(** * Bit-matrix engine of the QR-code scanner: a shallow embedding

    The development follows the TypeScript sources
    [core/Exception.ts], [core/common/BitSource.ts],
    [core/common/BitMatrix.ts], [core/common/PerspectiveTransform.ts],
    [core/common/GridSampler.ts] and [core/common/DefaultGridSampler.ts].

    Conventions.
    - A JavaScript value annotated [number /*int*/] is a [Z].
    - An [Int32Array] / [Uint8Array] is a [list Z]; reading outside of it
      yields [undefined] (here [None]) and writing outside of it is ignored,
      as typed arrays do.
    - The 32-bit operators [&], [|], [<<], [>>], [>>>] are written out with
      their wrap-around ([toInt32], [toUint32]).
    - A [number /*float*/] is an IEEE 754 double ([number] below): the
      finite values as the rationals they denote, the two zeros, the two
      infinities and NaN.  The arithmetic operators round to the nearest
      double, a store into a [Float32Array] to the nearest single.
    - A [throw] is the [Throw] constructor of [result].  Allocations of
      typed arrays are taken to succeed. *)

From Stdlib Require Import ZArith QArith Qround Qabs Qpower Lia List String Ascii Bool.
From Stdlib Require Qcanon.
From stdpp Require Import base list.
Import ListNotations.
Open Scope Z_scope.

(** ** Exceptions ([Exception.ts]) *)

Inductive Exception : Type :=
| IllegalArgumentException
| NotFoundException
| ArithmeticException
| FormatException
| ChecksumException
| WriterException
| IllegalStateException
| UnsupportedOperationException
| ReedSolomonException
| ArgumentException
| ReaderException.

Inductive result (A : Type) : Type :=
| Ok (a : A)
| Throw (e : Exception).
Arguments Ok {A} a.
Arguments Throw {A} e.

Definition bind {A B} (m : result A) (k : A -> result B) : result B :=
  match m with
  | Ok a => k a
  | Throw e => Throw e
  end.

(** [try { body } catch (_) { handler }] *)
Definition tryCatch {A} (body : result A) (handler : Exception -> result A) : result A :=
  match body with
  | Ok a => Ok a
  | Throw e => handler e
  end.

Declare Scope result_scope.
Delimit Scope result_scope with result.
Notation "'do' x <- m ; k" := (bind m (fun x => k))
  (at level 10, x name, m at level 100, k at level 200) : result_scope.
Open Scope result_scope.

(** The invalid-argument family of [Exception.ts]. *)
Definition isInvalidArgument (e : Exception) : bool :=
  match e with
  | IllegalArgumentException | ArgumentException => true
  | _ => false
  end.

(** ** 32-bit integer operators of JavaScript *)

Definition toInt32 (z : Z) : Z := (z + 2 ^ 31) mod 2 ^ 32 - 2 ^ 31.
Definition toUint32 (z : Z) : Z := z mod 2 ^ 32.

(** [a & b], [a | b], [a ^ b] *)
Definition js_and (a b : Z) : Z := toInt32 (Z.land (toInt32 a) (toInt32 b)).
Definition js_or (a b : Z) : Z := toInt32 (Z.lor (toInt32 a) (toInt32 b)).
Definition js_xor (a b : Z) : Z := toInt32 (Z.lxor (toInt32 a) (toInt32 b)).
(** [a << n], [a >> n], [a >>> n]: the shift count is taken modulo 32. *)
Definition js_shl (a n : Z) : Z := toInt32 (Z.shiftl (toInt32 a) (Z.land n 31)).
Definition js_sar (a n : Z) : Z := Z.shiftr (toInt32 a) (Z.land n 31).
Definition js_shr (a n : Z) : Z := Z.shiftr (toUint32 a) (Z.land n 31).
(** [~a] *)
Definition js_not (a : Z) : Z := toInt32 (Z.lnot (toInt32 a)).

(** ** Typed arrays *)

(** [a[i]]: [None] is [undefined]. *)
Definition typedGet (a : list Z) (i : Z) : option Z :=
  if i <? 0 then None else a !! Z.to_nat i.

(** [a[i] = v]: ignored outside of the array. *)
Definition typedSet (a : list Z) (i : Z) (v : Z) : list Z :=
  if i <? 0 then a else <[Z.to_nat i := v]> a.

(** An [undefined] operand of a bitwise operator is converted to [0]. *)
Definition orUndefined (o : option Z) : Z :=
  match o with
  | Some v => v
  | None => 0
  end.

(** ** BitSource ([BitSource.ts]) *)

Module BitSource.

Record t : Type := mk {
  bytes : list Z;
  byteOffset : Z;
  bitOffset : Z
}.

(** [new BitSource(bytes)] *)
Definition new (bytes : list Z) : t :=
  {| bytes := bytes; byteOffset := 0; bitOffset := 0 |}.

Definition getBitOffset (s : t) : Z := bitOffset s.
Definition getByteOffset (s : t) : Z := byteOffset s.

Definition available (s : t) : Z :=
  8 * (Z.of_nat (length (bytes s)) - byteOffset s) - bitOffset s.

(** [while (numBits >= 8) { ... }]: every turn takes 8 from [numBits], so
    [Z.to_nat numBits] turns are always enough (see [wholeBytes_exit]). *)
Fixpoint wholeBytes (fuel : nat) (bytes : list Z) (result numBits byteOffset : Z)
  : Z * Z * Z :=
  match fuel with
  | O => (result, numBits, byteOffset)
  | S fuel' =>
      if numBits >=? 8 then
        let result := js_or (js_shl result 8)
                            (js_and (orUndefined (typedGet bytes byteOffset)) 255) in
        wholeBytes fuel' bytes result (numBits - 8) (byteOffset + 1)
      else (result, numBits, byteOffset)
  end.

Definition readBits (numBits : Z) (s : t) : result (Z * t) :=
  if (numBits <? 1) || (numBits >? 32) || (numBits >? available s) then
    Throw IllegalArgumentException
  else
    let result := 0 in
    let bitOffset := bitOffset s in
    let byteOffset := byteOffset s in
    let bytes := bytes s in
    (* First, read remainder from current byte *)
    let '(result, numBits, bitOffset, byteOffset) :=
      if bitOffset >? 0 then
        let bitsLeft := 8 - bitOffset in
        let toRead := if numBits <? bitsLeft then numBits else bitsLeft in
        let bitsToNotRead := bitsLeft - toRead in
        let mask := js_shl (js_sar 255 (8 - toRead)) bitsToNotRead in
        let result :=
          js_sar (js_and (orUndefined (typedGet bytes byteOffset)) mask) bitsToNotRead in
        let numBits := numBits - toRead in
        let bitOffset := bitOffset + toRead in
        if bitOffset =? 8 then (result, numBits, 0, byteOffset + 1)
        else (result, numBits, bitOffset, byteOffset)
      else (result, numBits, bitOffset, byteOffset) in
    (* Next read whole bytes *)
    let '(result, bitOffset, byteOffset) :=
      if numBits >? 0 then
        let '(result, numBits, byteOffset) :=
          wholeBytes (Z.to_nat numBits) bytes result numBits byteOffset in
        (* Finally read a partial byte *)
        if numBits >? 0 then
          let bitsToNotRead := 8 - numBits in
          let mask := js_shl (js_sar 255 bitsToNotRead) bitsToNotRead in
          let result :=
            js_or (js_shl result numBits)
                  (js_sar (js_and (orUndefined (typedGet bytes byteOffset)) mask)
                          bitsToNotRead) in
          (result, bitOffset + numBits, byteOffset)
        else (result, bitOffset, byteOffset)
      else (result, bitOffset, byteOffset) in
    Ok (result, {| bytes := bytes; byteOffset := byteOffset; bitOffset := bitOffset |}).

(** States reached from a fresh source by successful reads. *)
Inductive reachable (bs : list Z) : t -> Prop :=
| reach_new : reachable bs (new bs)
| reach_read s n v s' :
    reachable bs s -> readBits n s = Ok (v, s') -> reachable bs s'.

(** The cursor invariant of the class. *)
Definition cursor_ok (s : t) : Prop :=
  0 <= bitOffset s < 8 /\ 0 <= byteOffset s /\ 0 <= available s.

(** Number of bits consumed so far. *)
Definition position (s : t) : Z := 8 * byteOffset s + bitOffset s.

(** *** Vocabulary for the statements about the bits read

    Bit [i] of the buffer taken as one sequence of bits, the most significant
    bit of byte 0 first. *)
Definition bitAt (bytes : list Z) (i : Z) : bool :=
  Z.testbit (orUndefined (typedGet bytes (i / 8))) (7 - i mod 8).

(** The number written by the [n] bits from position [pos] on, first bit
    most significant, after the digits of [acc]. *)
Fixpoint bitsValue (bytes : list Z) (n : nat) (pos acc : Z) : Z :=
  match n with
  | O => acc
  | S n' => bitsValue bytes n' (pos + 1) (2 * acc + Z.b2z (bitAt bytes pos))
  end.

(** The state whose cursor is at bit [pos] of the buffer. *)
Definition at_position (bytes : list Z) (pos : Z) : t :=
  {| bytes := bytes; byteOffset := pos / 8; bitOffset := pos mod 8 |}.

(** The 32-bit word [r] holds, in its low [m] bits, the [m] bits of the buffer
    that end before position [p], and nothing above them. *)
Definition readSoFar (bytes : list Z) (r m p : Z) : Prop :=
  - 2 ^ 31 <= r < 2 ^ 31 /\
  forall j, 0 <= j < 32 -> Z.testbit r j = (j <? m) && bitAt bytes (p - 1 - j).

End BitSource.

(** ** Loop ranges *)

(** [0, 1, ..., n-1]: the values of [i] in [for (i = 0; i < n; i++)]. *)
Definition upto (n : Z) : list Z := map Z.of_nat (seq 0 (Z.to_nat n)).

(** [0, 2, 4, ...] below [max]: the values of [x] in
    [for (x = 0; x < max; x += 2)]. *)
Definition evens (max : Z) : list Z := map (fun k => 2 * k) (upto ((max + 1) / 2)).

(** [len-2, len-4, ...] down to the last value that is not negative: the values
    of [offset] in [for (offset = len - 2; offset >= 0; offset -= 2)]. *)
Definition evensDown (len : Z) : list Z := map (fun k => len - 2 - 2 * k) (upto (len / 2)).

(** [from, from+1, ..., to-1]: the values of [y] in
    [for (y = from; y < to; y++)]. *)
Definition range (from to : Z) : list Z := map (fun k => from + k) (upto (to - from)).

Fixpoint foldM {A B} (f : A -> B -> result A) (l : list B) (a : A) : result A :=
  match l with
  | [] => Ok a
  | b :: l' => do a' <- f a b; foldM f l' a'
  end.

(** ** JavaScript numbers used as floats

    A JavaScript number is an IEEE 754 double: a finite value, one of the
    two zeros, an infinity or NaN.  A finite value other than [-0] is held
    as the rational it denotes, [+0] being [Fin 0]; every arithmetic
    operator rounds its exact result to the nearest double, and a store into
    a [Float32Array] rounds once more, to the nearest single. *)

Inductive number : Type :=
| Fin (q : Q)
| NegZero
| PInf
| NInf
| NaN.

Module Num.

(** The integer nearest to [q]; of two that are equally near, the even one. *)
Definition nearestEven (q : Q) : Z :=
  let f := Qfloor q in
  match (q - inject_Z f ?= 1 # 2)%Q with
  | Lt => f
  | Gt => f + 1
  | Eq => if Z.even f then f else f + 1
  end.

(** The [e] with [2^e <= q < 2^(e+1)], for [q > 0]. *)
Definition exponent (q : Q) : Z :=
  let k := Z.log2 (Qnum q) - Z.log2 (Zpos (Qden q)) in
  if Qle_bool (2 ^ k) q then k else k - 1.

(** Rounding to the binary format with [prec] bits of precision and
    magnitudes below [2^emax], ties to even (IEEE 754 roundTiesToEven).
    With [2^e <= |q| < 2^(e+1)] the numbers of the format near [q] are the
    multiples of [2^(e + 1 - prec)], and of [2^(3 - emax - prec)] in the
    subnormal range.  A magnitude that rounds to [2^emax] or more becomes an
    infinity; one that rounds to zero keeps its sign. *)
Definition roundTo (prec emax : Z) (q : Q) : number :=
  if Qeq_bool q 0 then Fin 0
  else
    let negative := negb (Qle_bool 0 q) in
    let a := Qabs q in
    let ulp := (2 ^ Z.max (exponent a + 1 - prec) (3 - emax - prec))%Q in
    let r := (inject_Z (nearestEven (a / ulp)) * ulp)%Q in
    if Qle_bool (2 ^ emax) r then (if negative then NInf else PInf)
    else if Qeq_bool r 0 then (if negative then NegZero else Fin 0)
    else Fin (Qred (if negative then - r else r)).

(** The double nearest to [q]: binary64. *)
Definition round64 : Q -> number := roundTo 53 1024.

(** [Math.fround]: the value a [Float32Array] holds after a store, binary32. *)
Definition fround (x : number) : number :=
  match x with
  | Fin q => roundTo 24 128 q
  | _ => x
  end.

(** An integer of the program as a number (exact up to [2^53]), and [0.5]. *)
Definition ofZ (z : Z) : number := Fin (inject_Z z).
Definition half : number := Fin (1 # 2).

(** The value of a finite number. *)
Definition value (x : number) : Q :=
  match x with
  | Fin q => q
  | _ => 0
  end.

Definition isZero (x : number) : bool :=
  match x with
  | Fin q => Qeq_bool q 0
  | NegZero => true
  | _ => false
  end.

Definition isInfinite (x : number) : bool :=
  match x with
  | PInf | NInf => true
  | _ => false
  end.

Definition signBit (x : number) : bool :=
  match x with
  | Fin q => negb (Qle_bool 0 q)
  | NegZero | NInf => true
  | PInf | NaN => false
  end.

Definition zero (negative : bool) : number := if negative then NegZero else Fin 0.
Definition infinity (negative : bool) : number := if negative then NInf else PInf.

Definition neg (x : number) : number :=
  match x with
  | Fin q => if Qeq_bool q 0 then NegZero else Fin (- q)
  | NegZero => Fin 0
  | PInf => NInf
  | NInf => PInf
  | NaN => NaN
  end.

(** [x + y]: a sum that is exactly zero is [+0], except [-0 + -0]. *)
Definition add (x y : number) : number :=
  match x, y with
  | NaN, _ | _, NaN => NaN
  | PInf, NInf | NInf, PInf => NaN
  | PInf, _ | _, PInf => PInf
  | NInf, _ | _, NInf => NInf
  | NegZero, NegZero => NegZero
  | _, _ =>
      let s := (value x + value y)%Q in
      if Qeq_bool s 0 then Fin 0 else round64 s
  end.

(** [x - y] *)
Definition sub (x y : number) : number := add x (neg y).

(** [x * y]: the sign of the result is the exclusive or of the signs. *)
Definition mul (x y : number) : number :=
  let negative := xorb (signBit x) (signBit y) in
  match x, y with
  | NaN, _ | _, NaN => NaN
  | _, _ =>
      if isInfinite x || isInfinite y then
        if isZero x || isZero y then NaN else infinity negative
      else if isZero x || isZero y then zero negative
      else round64 (value x * value y)
  end.

(** [x / y] *)
Definition div (x y : number) : number :=
  let negative := xorb (signBit x) (signBit y) in
  match x, y with
  | NaN, _ | _, NaN => NaN
  | _, _ =>
      if isInfinite x then
        if isInfinite y then NaN else infinity negative
      else if isInfinite y then zero negative
      else if isZero y then
        if isZero x then NaN else infinity negative
      else if isZero x then zero negative
      else round64 (value x / value y)
  end.

(** [Math.floor] *)
Definition floor (x : number) : number :=
  match x with
  | Fin q => Fin (inject_Z (Qfloor q))
  | _ => x
  end.

(** [x < y], [x > y], [x === y] *)
Definition lt (x y : number) : bool :=
  match x, y with
  | NaN, _ | _, NaN => false
  | PInf, _ | _, NInf => false
  | _, PInf | NInf, _ => true
  | _, _ => negb (Qle_bool (value y) (value x))
  end.

Definition gt (x y : number) : bool := lt y x.

Definition eqb (x y : number) : bool :=
  match x, y with
  | NaN, _ | _, NaN => false
  | PInf, PInf | NInf, NInf => true
  | PInf, _ | NInf, _ | _, PInf | _, NInf => false
  | _, _ => Qeq_bool (value x) (value y)
  end.

(** [points[i]] on a [Float32Array]; [undefined] behaves as NaN in
    arithmetic and under [Math.floor]. *)
Definition get (a : list number) (i : Z) : number :=
  if i <? 0 then NaN else default NaN (a !! Z.to_nat i).

(** [points[i] = v] on a [Float32Array]: the value is rounded to a single;
    a store outside of the array is ignored. *)
Definition set (a : list number) (i : Z) (v : number) : list number :=
  if i <? 0 then a else <[Z.to_nat i := fround v]> a.

End Num.

(** ** System ([util/System.ts]) *)

Module System.

(** [arraycopy(src, srcPos, dest, destPos, length)] into an [Int32Array]:
    [let c = length; while (c--) dest[j++] = src[i++]], for a [length] that
    is not negative.  An [undefined] source element is stored as [0]. *)
Definition arraycopy (src : list Z) (srcPos : Z) (dest : list Z) (destPos length : Z)
  : list Z :=
  fold_left
    (fun dest k => typedSet dest (destPos + k) (orUndefined (typedGet src (srcPos + k))))
    (upto length) dest.

End System.

(** ** BitArray *)

Module BitArray.

(** Modelled from the spec: the class [BitArray] ([common/BitArray.ts]) is not
    among the sources.  The spec describes a row buffer as a "row-width bit
    sequence" with a capacity, packed in the word layout of the matrix
    (32 bits a word, least-significant bit first). *)
Record t : Type := mk {
  size : Z;
  bits : list Z
}.

(** Modelled from the spec: [new BitArray(size)], a cleared buffer with room
    for [size] bits. *)
Definition new (size : Z) : t :=
  {| size := size; bits := repeat 0 (Z.to_nat ((size + 31) / 32)) |}.

(** Modelled from the spec: [getSize()], the capacity in bits. *)
Definition getSize (a : t) : Z := size a.

(** Modelled from the spec: [getBitArray()], the packed words. *)
Definition getBitArray (a : t) : list Z := bits a.

(** Modelled from the spec: [clear()] ("always clears stale bits first"). *)
Definition clear (a : t) : t :=
  {| size := size a; bits := map (fun _ => 0) (bits a) |}.

(** Modelled from the spec: [setBulk(i, newBits)] stores the word that holds
    the 32 bits from bit [i] on ("reuse the same word layout"). *)
Definition setBulk (a : t) (i newBits : Z) : t :=
  {| size := size a; bits := typedSet (bits a) (i / 32) newBits |}.

(** Modelled from the spec: bit [i] of the sequence. *)
Definition get (a : t) (i : Z) : bool :=
  Z.testbit (orUndefined (typedGet (bits a) (i / 32))) (i mod 32).

(** Modelled from the spec: the word whose bit [k] is [f (from + k)], for
    the words of [reverse] below. *)
Fixpoint packBits (n : nat) (f : Z -> bool) (from : Z) : Z :=
  match n with
  | O => 0
  | S n' => 2 * packBits n' f (from + 1) + Z.b2z (f from)
  end.

(** Modelled from the spec: the same as a 32-bit word. *)
Definition packWord (f : Z -> bool) (from : Z) : Z := toInt32 (packBits 32 f from).

(** Modelled from the spec: [reverse()] reverses the bit order of the
    sequence ("bit-reversed"): bit [i] of the result is bit [size - 1 - i],
    and the unused bits of the last word are clear. *)
Definition reverse (a : t) : t :=
  {| size := size a;
     bits := map (fun j => packWord (fun i => (i <? size a) && get a (size a - 1 - i))
                                    (32 * j))
                 (upto (Z.of_nat (length (bits a)))) |}.

End BitArray.

(** ** StringBuilder *)

Module StringBuilder.

(** Modelled from the spec: the class [StringBuilder]
    ([util/StringBuilder.ts]) is not among the sources.  The spec has a
    matrix "serialized to a line-delimited string": the builder collects the
    text appended to it. *)
Definition t : Type := string.

(** Modelled from the spec: [new StringBuilder()], nothing collected yet. *)
Definition new : t := EmptyString.

(** Modelled from the spec: [append(s)] adds [s] at the end. *)
Definition append (sb : t) (s : string) : t := String.append sb s.

(** Modelled from the spec: [toString()], the text collected. *)
Definition toString (sb : t) : string := sb.

End StringBuilder.

(** ** BitMatrix ([BitMatrix.ts]) *)

Module BitMatrix.

Record t : Type := mk {
  width : Z;
  height : Z;
  rowSize : Z;
  bits : list Z
}.

(** [new BitMatrix(width, height)] ([rowSize] and [bits] left undefined).
    The allocation of the words is taken to succeed; the [RangeError] of an
    engine that cannot make so long an array is not represented. *)
Definition new (width height : Z) : result t :=
  if (width <? 1) || (height <? 1) then Throw IllegalArgumentException
  else
    let rowSize := (width + 31) / 32 in
    Ok {| width := width; height := height; rowSize := rowSize;
          bits := repeat 0 (Z.to_nat (rowSize * height)) |}.

Definition getWidth (m : t) : Z := width m.
Definition getHeight (m : t) : Z := height m.
Definition getRowSize (m : t) : Z := rowSize m.

Definition get (m : t) (x y : Z) : bool :=
  let offset := y * rowSize m + x / 32 in
  negb (js_and (js_shr (orUndefined (typedGet (bits m) offset)) (js_and x 31)) 1 =? 0).

Definition withBits (m : t) (bs : list Z) : t :=
  {| width := width m; height := height m; rowSize := rowSize m; bits := bs |}.

Definition set (m : t) (x y : Z) : t :=
  let offset := y * rowSize m + x / 32 in
  withBits m
    (typedSet (bits m) offset
       (js_or (orUndefined (typedGet (bits m) offset))
              (js_and (js_shl 1 (js_and x 31)) 4294967295))).

(** [theBits !== 0] for a word read from the array ([undefined !== 0] holds). *)
Definition nonZeroWord (theBits : option Z) : bool :=
  match theBits with
  | Some v => negb (v =? 0)
  | None => true
  end.

(** [let bit = 0; while (((theBits << (31 - bit)) & 0xFFFFFFFF) === 0) bit++]
    and [let bit = 31; while ((theBits >>> bit) === 0) bit--].  Both end
    within 32 turns on a 32-bit word that is not zero and do not end at all
    on a word that is zero; [None] is a loop that does not end. *)
Fixpoint lowestBitLoop (fuel : nat) (theBits bit : Z) : option Z :=
  match fuel with
  | O => None
  | S fuel' =>
      if js_and (js_shl theBits (31 - bit)) 4294967295 =? 0
      then lowestBitLoop fuel' theBits (bit + 1)
      else Some bit
  end.

Fixpoint highestBitLoop (fuel : nat) (theBits bit : Z) : option Z :=
  match fuel with
  | O => None
  | S fuel' =>
      if js_shr theBits bit =? 0
      then highestBitLoop fuel' theBits (bit - 1)
      else Some bit
  end.

Definition lowestBit (theBits : Z) : option Z := lowestBitLoop 33 theBits 0.
Definition highestBit (theBits : Z) : option Z := highestBitLoop 33 theBits 31.

(** [Int32Array.from(values)] *)
Definition int32ArrayFrom (values : list Z) : list Z := map toInt32 values.

(** The body of the two nested loops of [getEnclosingRectangle], at word
    [x32] of row [y]; the state is [(left, top, right, bottom)] ([left_] and
    [right_] below, the plain names being taken). *)
Definition encloseWord (m : t) (y : Z) (st : Z * Z * Z * Z) (x32 : Z)
  : option (Z * Z * Z * Z) :=
  let '(left_, top, right_, bottom) := st in
  let theBits := typedGet (bits m) (y * rowSize m + x32) in
  if nonZeroWord theBits then
    let top := if y <? top then y else top in
    let bottom := if y >? bottom then y else bottom in
    left_ ← (if x32 * 32 <? left_ then
              bit ← lowestBit (orUndefined theBits);
              Some (if x32 * 32 + bit <? left_ then x32 * 32 + bit else left_)
            else Some left_);
    right_ ← (if x32 * 32 + 31 >? right_ then
               bit ← highestBit (orUndefined theBits);
               Some (if x32 * 32 + bit >? right_ then x32 * 32 + bit else right_)
             else Some right_);
    Some (left_, top, right_, bottom)
  else Some st.

(** [for (x = ...) { body }] whose body may not end. *)
Fixpoint forEach {A} (body : A -> Z -> option A) (range : list Z) (a : A) : option A :=
  match range with
  | [] => Some a
  | i :: range' => a' ← body a i; forEach body range' a'
  end.

(** The result is [Some None] for [null] and [None] when a loop does not end. *)
Definition getEnclosingRectangle (m : t) : option (option (list Z)) :=
  st ← forEach (fun st y => forEach (encloseWord m y) (upto (rowSize m)) st)
               (upto (height m)) (width m, height m, -1, -1);
  let '(left_, top, right_, bottom) := st in
  if (right_ <? left_) || (bottom <? top) then Some None
  else Some (Some (int32ArrayFrom [left_; top; right_ - left_ + 1; bottom - top + 1])).

(** [while (bitsOffset < bits.length && bits[bitsOffset] === 0) bitsOffset++],
    on the words from [bitsOffset] on. *)
Fixpoint skipZerosUp (rest : list Z) (bitsOffset : Z) : Z :=
  match rest with
  | [] => bitsOffset
  | w :: rest' => if w =? 0 then skipZerosUp rest' (bitsOffset + 1) else bitsOffset
  end.

(** [while (bitsOffset >= 0 && bits[bitsOffset] === 0) bitsOffset--], on the
    words from [bitsOffset] down, the word at [bitsOffset] first. *)
Fixpoint skipZerosDown (restReversed : list Z) (bitsOffset : Z) : Z :=
  match restReversed with
  | [] => bitsOffset
  | w :: rest' => if w =? 0 then skipZerosDown rest' (bitsOffset - 1) else bitsOffset
  end.

(** [a % b]: [None] is NaN. *)
Definition jsRem (a b : Z) : option Z := if b =? 0 then None else Some (Z.rem a b).

(** A value stored into an [Int32Array]: truncated, NaN and the infinities
    become [0]. *)
Definition storedQuotient (a b : Z) : Z := if b =? 0 then 0 else toInt32 (Z.quot a b).
Definition storedFloorQuotient (a b : Z) : Z := if b =? 0 then 0 else toInt32 (a / b).
Definition storedOrNaN (v : option Z) : Z :=
  match v with
  | Some z => toInt32 z
  | None => 0
  end.

Definition getTopLeftOnBit (m : t) : option (option (list Z)) :=
  let bitsOffset := skipZerosUp (bits m) 0 in
  if bitsOffset =? Z.of_nat (length (bits m)) then Some None
  else
    (* [y = bitsOffset / rowSize] is not rounded before it is stored *)
    let y := storedQuotient bitsOffset (rowSize m) in
    let x := (fun r => r * 32) <$> jsRem bitsOffset (rowSize m) in
    let theBits := orUndefined (typedGet (bits m) bitsOffset) in
    bit ← lowestBit theBits;
    let x := (fun x => x + bit) <$> x in
    Some (Some [storedOrNaN x; y]).

Definition getBottomRightOnBit (m : t) : option (option (list Z)) :=
  let bitsOffset := skipZerosDown (rev (bits m)) (Z.of_nat (length (bits m)) - 1) in
  if bitsOffset <? 0 then Some None
  else
    let y := storedFloorQuotient bitsOffset (rowSize m) in
    let x := (fun r => r * 32) <$> jsRem bitsOffset (rowSize m) in
    let theBits := orUndefined (typedGet (bits m) bitsOffset) in
    bit ← highestBit theBits;
    let x := (fun x => x + bit) <$> x in
    Some (Some [storedOrNaN x; y]).

(** *** Text form *)

(** The cursor state of [parseFromString].  The array [bits] is only ever
    written at [bitsPos], which then advances: it is the list of the values
    written so far and [bitsPos] is its length. *)
Record parseState : Type := mkParseState {
  parsedBits : list bool;
  rowStartPos : Z;
  rowLength : Z;
  nRows : Z
}.

Definition bitsPos (st : parseState) : Z := Z.of_nat (length (parsedBits st)).

Definition parseStart : parseState :=
  {| parsedBits := []; rowStartPos := 0; rowLength := -1; nRows := 0 |}.

Definition isNewline (ch : ascii) : bool :=
  Ascii.eqb ch "010"%char || Ascii.eqb ch "013"%char.

(** The branch of the loop taken at a line feed or carriage return. *)
Definition endOfRow (st : parseState) : result parseState :=
  if bitsPos st >? rowStartPos st then
    if rowLength st =? -1 then
      Ok {| parsedBits := parsedBits st; rowStartPos := bitsPos st;
            rowLength := bitsPos st - rowStartPos st; nRows := nRows st + 1 |}
    else if negb (bitsPos st - rowStartPos st =? rowLength st) then
      Throw IllegalArgumentException
    else
      Ok {| parsedBits := parsedBits st; rowStartPos := bitsPos st;
            rowLength := rowLength st; nRows := nRows st + 1 |}
  else Ok st.

(** [bits[bitsPos] = b; bitsPos++] *)
Definition pushBit (b : bool) (st : parseState) : parseState :=
  {| parsedBits := parsedBits st ++ [b]; rowStartPos := rowStartPos st;
     rowLength := rowLength st; nRows := nRows st |}.

Fixpoint dropChars (n : nat) (s : string) : string :=
  match n, s with
  | S n', String _ s' => dropChars n' s'
  | _, _ => s
  end.

(** [while (pos < stringRepresentation.length) { ... }] on the text from [pos]
    on.  [stringRepresentation.substring(pos, pos + t.length) === t] says that
    [t] is a prefix of that text.  A turn that matches an empty token does not
    advance and the loop does not end: [None]. *)
Fixpoint parseLoop (fuel : nat) (setString unsetString : string) (rest : string)
  (st : parseState) : option (result parseState) :=
  match fuel with
  | O => None
  | S fuel' =>
      match rest with
      | EmptyString => Some (Ok st)
      | String ch rest' =>
          if isNewline ch then
            match endOfRow st with
            | Ok st' => parseLoop fuel' setString unsetString rest' st'
            | Throw e => Some (Throw e)
            end
          else if String.prefix setString rest then
            parseLoop fuel' setString unsetString
                      (dropChars (String.length setString) rest) (pushBit true st)
          else if String.prefix unsetString rest then
            parseLoop fuel' setString unsetString
                      (dropChars (String.length unsetString) rest) (pushBit false st)
          else Some (Throw IllegalArgumentException)
      end
  end.

(** The block after the loop ("no EOL at end?"). *)
Definition endOfInput (st : parseState) : result parseState :=
  if bitsPos st >? rowStartPos st then
    if rowLength st =? -1 then
      Ok {| parsedBits := parsedBits st; rowStartPos := rowStartPos st;
            rowLength := bitsPos st - rowStartPos st; nRows := nRows st + 1 |}
    else if negb (bitsPos st - rowStartPos st =? rowLength st) then
      Throw IllegalArgumentException
    else
      Ok {| parsedBits := parsedBits st; rowStartPos := rowStartPos st;
            rowLength := rowLength st; nRows := nRows st + 1 |}
  else Ok st.

(** [for (i = 0; i < bitsPos; i++) if (bits[i]) matrix.set(i % rowLength, i / rowLength)] *)
Definition fillFrom (st : parseState) (matrix : t) : t :=
  fold_left
    (fun matrix i =>
       if default false (parsedBits st !! Z.to_nat i)
       then set matrix (Z.rem i (rowLength st)) (i / rowLength st)
       else matrix)
    (upto (bitsPos st)) matrix.

Definition parseFromString (stringRepresentation setString unsetString : string)
  : option (result t) :=
  match parseLoop (S (String.length stringRepresentation)) setString unsetString
                  stringRepresentation parseStart with
  | None => None
  | Some (Throw e) => Some (Throw e)
  | Some (Ok st) =>
      Some (do st <- endOfInput st;
            do matrix <- new (rowLength st) (nRows st);
            Ok (fillFrom st matrix))
  end.

Definition buildToString (m : t) (setString unsetString lineSeparator : string) : string :=
  let result := StringBuilder.new in
  let result := StringBuilder.append result lineSeparator in
  StringBuilder.toString
    (fold_left
       (fun result y =>
          StringBuilder.append
            (fold_left
               (fun result x =>
                  StringBuilder.append result (if get m x y then setString else unsetString))
               (upto (width m)) result)
            lineSeparator)
       (upto (height m)) result).

Definition toString (m : t) (setString unsetString lineSeparator : string) : string :=
  buildToString m setString unsetString lineSeparator.

(** The default line separator, ["\n"]. *)
Definition lineFeed : string := String "010" EmptyString.

(** *** Vocabulary for the statements about the text form *)

(** A token can be told from a line end by its first character. *)
Definition headOk (token : string) : bool :=
  match token with
  | EmptyString => false
  | String ch _ => negb (isNewline ch)
  end.

(** Tokens that [parseFromString] can tell apart: neither starts with a line
    feed or carriage return and neither is a prefix of the other (so both are
    non-empty and they differ). *)
Definition tokensOk (setString unsetString : string) : Prop :=
  headOk setString = true /\ headOk unsetString = true /\
  String.prefix setString unsetString = false /\
  String.prefix unsetString setString = false.

Definition token (setString unsetString : string) (b : bool) : string :=
  if b then setString else unsetString.

(** A row of bits, and rows each followed by a line feed, as text. *)
Fixpoint renderRow (setString unsetString : string) (row : list bool) : string :=
  match row with
  | [] => EmptyString
  | b :: row' =>
      String.append (token setString unsetString b) (renderRow setString unsetString row')
  end.

Fixpoint renderRows (setString unsetString : string) (rows : list (list bool)) : string :=
  match rows with
  | [] => EmptyString
  | row :: rows' =>
      String.append (renderRow setString unsetString row)
        (String.append lineFeed (renderRows setString unsetString rows'))
  end.

(** The rows of a matrix, top row first. *)
Definition rowsOf (m : t) : list (list bool) :=
  map (fun y => map (fun x => get m x y) (upto (width m))) (upto (height m)).

(** The loop, started on [rest] in state [st], ends with [r]. *)
Definition runs (setString unsetString rest : string) (st : parseState)
  (r : result parseState) : Prop :=
  forall fuel, (String.length rest < fuel)%nat ->
    parseLoop fuel setString unsetString rest st = Some r.

Definition pushBits (bs : list bool) (st : parseState) : parseState :=
  {| parsedBits := parsedBits st ++ bs; rowStartPos := rowStartPos st;
     rowLength := rowLength st; nRows := nRows st |}.

(** The state of the loop after the rows [done], each [w] bits long and
    ended by a line feed. *)
Definition stateAfter (w : Z) (done : list (list bool)) : parseState :=
  {| parsedBits := concat done;
     rowStartPos := Z.of_nat (length (concat done));
     rowLength := match done with [] => -1 | _ => w end;
     nRows := Z.of_nat (length done) |}.

(** [getRow(y, row)]; [None] is a [row] that is [null] or [undefined]. *)
Definition getRow (m : t) (y : Z) (row : option BitArray.t) : BitArray.t :=
  let row :=
    match row with
    | None => BitArray.new (width m)
    | Some row =>
        if BitArray.getSize row <? width m then BitArray.new (width m)
        else BitArray.clear row
    end in
  let offset := y * rowSize m in
  fold_left
    (fun row x => BitArray.setBulk row (x * 32) (orUndefined (typedGet (bits m) (offset + x))))
    (upto (rowSize m)) row.

Definition setRow (m : t) (y : Z) (row : BitArray.t) : t :=
  withBits m (System.arraycopy (BitArray.getBitArray row) 0 (bits m) (y * rowSize m) (rowSize m)).

(** One turn of the loop of [rotate180]; the state is the matrix and the two
    row buffers. *)
Definition rotateRows (height : Z) (st : t * BitArray.t * BitArray.t) (i : Z)
  : t * BitArray.t * BitArray.t :=
  let '(m, topRow, bottomRow) := st in
  let topRow := getRow m i (Some topRow) in
  let bottomRow := getRow m (height - 1 - i) (Some bottomRow) in
  let topRow := BitArray.reverse topRow in
  let bottomRow := BitArray.reverse bottomRow in
  let m := setRow m i bottomRow in
  let m := setRow m (height - 1 - i) topRow in
  (m, topRow, bottomRow).

Definition rotate180 (m : t) : t :=
  let width := getWidth m in
  let height := getHeight m in
  let topRow := BitArray.new width in
  let bottomRow := BitArray.new width in
  fst (fst (fold_left (rotateRows height) (upto ((height + 1) / 2)) (m, topRow, bottomRow))).

(** [this.bits[offset] op= v] for the three single-bit updates; [set] above
    is the first of them. *)
Definition unset (m : t) (x y : Z) : t :=
  let offset := y * rowSize m + x / 32 in
  withBits m
    (typedSet (bits m) offset
       (js_and (orUndefined (typedGet (bits m) offset))
               (js_not (js_and (js_shl 1 (js_and x 31)) 4294967295)))).

Definition flip (m : t) (x y : Z) : t :=
  let offset := y * rowSize m + x / 32 in
  withBits m
    (typedSet (bits m) offset
       (js_xor (orUndefined (typedGet (bits m) offset))
               (js_and (js_shl 1 (js_and x 31)) 4294967295))).

(** [xor(mask)]: the row buffer [rowArray] is handed to every [getRow] call,
    which clears it or, when it is too small for a row, allocates another. *)
Definition xor (m mask : t) : result t :=
  if negb (width m =? getWidth mask) || negb (height m =? getHeight mask)
     || negb (rowSize m =? getRowSize mask)
  then Throw IllegalArgumentException
  else
    let rowArray := BitArray.new (width m / 32 + 1) in
    let rowSize := rowSize m in
    Ok (withBits m
          (fold_left
             (fun bits y =>
                let offset := y * rowSize in
                let row := BitArray.getBitArray (getRow mask y (Some rowArray)) in
                fold_left
                  (fun bits x =>
                     typedSet bits (offset + x)
                       (js_xor (orUndefined (typedGet bits (offset + x)))
                               (orUndefined (typedGet row x))))
                  (upto rowSize) bits)
             (upto (height m)) (bits m))).

Definition clear (m : t) : t :=
  let max := Z.of_nat (length (bits m)) in
  withBits m (fold_left (fun bits i => typedSet bits i 0) (upto max) (bits m)).

(** [setRegion(left, top, width, height)] *)
Definition setRegion (m : t) (left_ top regionWidth regionHeight : Z) : result t :=
  if (top <? 0) || (left_ <? 0) then Throw IllegalArgumentException
  else if (regionHeight <? 1) || (regionWidth <? 1) then Throw IllegalArgumentException
  else
    let right_ := left_ + regionWidth in
    let bottom := top + regionHeight in
    if (bottom >? height m) || (right_ >? width m) then Throw IllegalArgumentException
    else
      let rowSize := rowSize m in
      Ok (withBits m
            (fold_left
               (fun bits y =>
                  let offset := y * rowSize in
                  fold_left
                    (fun bits x =>
                       typedSet bits (offset + x / 32)
                         (js_or (orUndefined (typedGet bits (offset + x / 32)))
                                (js_and (js_shl 1 (js_and x 31)) 4294967295)))
                    (range left_ right_) bits)
               (range top bottom) (bits m))).

(** [parseFromBooleanArray(image)].  [None] is the [TypeError] of
    [image[0].length] on an array without rows; an element missing from a
    row is [undefined], which the test [if (imageI[j])] takes for false. *)
Definition parseFromBooleanArray (image : list (list bool)) : option (result t) :=
  match image with
  | [] => None
  | row0 :: _ =>
      let height := Z.of_nat (length image) in
      let width := Z.of_nat (length row0) in
      Some (do bits <- new width height;
            Ok (fold_left
                  (fun bits i =>
                     let imageI := default [] (image !! Z.to_nat i) in
                     fold_left
                       (fun bits j =>
                          if default false (imageI !! Z.to_nat j) then set bits j i else bits)
                       (upto width) bits)
                  (upto height) bits))
  end.

(** *** Vocabulary for the statements about matrices *)

Definition int32 (v : Z) : Prop := - 2 ^ 31 <= v < 2 ^ 31.

(** A matrix as the constructor makes it and the methods keep it. *)
Record wellFormed (m : t) : Prop := {
  wf_width : 1 <= width m < 2 ^ 31;
  wf_height : 1 <= height m < 2 ^ 31;
  wf_rowSize : rowSize m = (width m + 31) / 32;
  wf_length : Z.of_nat (length (bits m)) = rowSize m * height m;
  wf_words : Forall int32 (bits m)
}.

(** No bit of the packed rows is set, unused bits of the last word of a row
    included. *)
Definition noBitSet (m : t) : Prop :=
  forall x y, 0 <= x < 32 * rowSize m -> 0 <= y < height m -> get m x y = false.

(** The bit at [(x0, y0)] is the only bit of the packed rows that is set. *)
Definition onlyBitSet (m : t) (x0 y0 : Z) : Prop :=
  forall x y, 0 <= x < 32 * rowSize m -> 0 <= y < height m ->
    get m x y = (x =? x0) && (y =? y0).

(** Word [c] of row [y], and the same word of that row with its [width]
    bits in reverse order. *)
Definition wordAt (m : t) (y c : Z) : Z :=
  orUndefined (typedGet (bits m) (y * rowSize m + c)).

Definition reversedWord (m : t) (y c : Z) : Z :=
  BitArray.packWord (fun i => (i <? width m) && get m (width m - 1 - i) y) (32 * c).

(** A row buffer as [rotate180] allocates it for [m]. *)
Definition bufferFor (m : t) (row : BitArray.t) : Prop :=
  BitArray.size row = width m /\
  Z.of_nat (length (BitArray.bits row)) = rowSize m.

Definition sameShape (m m' : t) : Prop :=
  width m' = width m /\ height m' = height m /\ rowSize m' = rowSize m /\
  length (bits m') = length (bits m).

(** The state of [rotate180] after [k] turns: the first and the last [k]
    rows hold their final content, the rows between are untouched. *)
Definition rotatedUpTo (m0 : t) (k : Z) (m : t) : Prop :=
  sameShape m0 m /\
  forall y c, 0 <= y < height m0 -> 0 <= c < rowSize m0 ->
    typedGet (bits m) (y * rowSize m0 + c)
    = Some (if (y <? k) || (height m0 - 1 - k <? y)
            then reversedWord m0 (height m0 - 1 - y) c
            else wordAt m0 y c).

(** The unused bits of the last word of every row are clear. *)
Definition cleanPadding (m : t) : Prop :=
  forall x y, width m <= x < 32 * rowSize m -> 0 <= y < height m -> get m x y = false.

(** A set bit of the packed rows. *)
Definition setAt (m : t) (x y : Z) : Prop :=
  0 <= x < 32 * rowSize m /\ 0 <= y < height m /\ get m x y = true.

Definition someBitSet (m : t) : Prop := exists x y, setAt m x y.

(** The first and the last set bit in reading order: rows from the top,
    each row from the left. *)
Definition firstSetBit (m : t) (x0 y0 : Z) : Prop :=
  setAt m x0 y0 /\ forall x y, setAt m x y -> y0 < y \/ (y0 = y /\ x0 <= x).

Definition lastSetBit (m : t) (x0 y0 : Z) : Prop :=
  setAt m x0 y0 /\ forall x y, setAt m x y -> y < y0 \/ (y = y0 /\ x <= x0).

(** The columns [left_ .. right_] and the rows [top .. bottom] hold every
    set bit, and each of the four is reached by one. *)
Definition enclosingBox (m : t) (left_ top right_ bottom : Z) : Prop :=
  (forall x y, setAt m x y -> left_ <= x <= right_ /\ top <= y <= bottom) /\
  (exists y, setAt m left_ y) /\ (exists x, setAt m x top) /\
  (exists y, setAt m right_ y) /\ (exists x, setAt m x bottom).

(** The set bits in the words that the loops of [getEnclosingRectangle]
    have visited before word [c] of row [y], and what the four variables
    hold at that moment. *)
Definition seenBefore (m : t) (y c x' y' : Z) : Prop :=
  setAt m x' y' /\ (y' < y \/ (y' = y /\ x' / 32 < c)).

Definition boxSoFar (m : t) (y c : Z) (st : Z * Z * Z * Z) : Prop :=
  let '(left_, top, right_, bottom) := st in
  (forall x' y', seenBefore m y c x' y' -> left_ <= x' <= right_ /\ top <= y' <= bottom) /\
  (left_ = width m \/ exists y', seenBefore m y c left_ y') /\
  (top = height m \/ exists x', seenBefore m y c x' top) /\
  (right_ = -1 \/ exists y', seenBefore m y c right_ y') /\
  (bottom = -1 \/ exists x', seenBefore m y c x' bottom).

(** Word [c] of row [y] when the bit at [(x0, y0)] is the only one set. *)
Definition theWord (x0 y0 y c : Z) : Z :=
  if (y =? y0) && (c =? x0 / 32) then toInt32 (2 ^ (x0 mod 32)) else 0.

(** [get(Math.floor(px), Math.floor(py))] as the sampler calls it.  When a
    coordinate is not finite, the word index [y * rowSize + Math.floor(x / 32)]
    is not an index of the array, the word read is [undefined] and the
    result is [false]. *)
Definition getAtFloor (m : t) (px py : number) : bool :=
  match px, py with
  | (Fin _ | NegZero), (Fin _ | NegZero) =>
      get m (Qfloor (Num.value px)) (Qfloor (Num.value py))
  | _, _ => false
  end.

End BitMatrix.

(** ** PerspectiveTransform ([PerspectiveTransform.ts]) *)

Module PerspectiveTransform.

Record t : Type := mk {
  a11 : number; a21 : number; a31 : number;
  a12 : number; a22 : number; a32 : number;
  a13 : number; a23 : number; a33 : number
}.

Import Num.

Definition transformPoints (tr : t) (points : list number) : list number :=
  let max := Z.of_nat (length points) in
  fold_left
    (fun points i =>
       let x := get points i in
       let y := get points (i + 1) in
       let denominator := add (add (mul (a13 tr) x) (mul (a23 tr) y)) (a33 tr) in
       let points :=
         set points i (div (add (add (mul (a11 tr) x) (mul (a21 tr) y)) (a31 tr)) denominator) in
       set points (i + 1)
         (div (add (add (mul (a12 tr) x) (mul (a22 tr) y)) (a32 tr)) denominator))
    (evens max) points.

(** [transformPointsWithValues(xValues, yValues)]; the state is the pair of
    the two arrays. *)
Definition transformPointsWithValues (tr : t) (xValues yValues : list number)
  : list number * list number :=
  let n := Z.of_nat (length xValues) in
  fold_left
    (fun '(xValues, yValues) i =>
       let x := get xValues i in
       let y := get yValues i in
       let denominator := add (add (mul (a13 tr) x) (mul (a23 tr) y)) (a33 tr) in
       let xValues :=
         set xValues i (div (add (add (mul (a11 tr) x) (mul (a21 tr) y)) (a31 tr)) denominator) in
       let yValues :=
         set yValues i (div (add (add (mul (a12 tr) x) (mul (a22 tr) y)) (a32 tr)) denominator) in
       (xValues, yValues))
    (upto n) (xValues, yValues).

Definition squareToQuadrilateral (x0 y0 x1 y1 x2 y2 x3 y3 : number) : t :=
  let dx3 := sub (add (sub x0 x1) x2) x3 in
  let dy3 := sub (add (sub y0 y1) y2) y3 in
  if eqb dx3 (Fin 0) && eqb dy3 (Fin 0) then
    mk (sub x1 x0) (sub x2 x1) x0
       (sub y1 y0) (sub y2 y1) y0
       (Fin 0) (Fin 0) (Fin 1)
  else
    let dx1 := sub x1 x2 in
    let dx2 := sub x3 x2 in
    let dy1 := sub y1 y2 in
    let dy2 := sub y3 y2 in
    let denominator := sub (mul dx1 dy2) (mul dx2 dy1) in
    let a13 := div (sub (mul dx3 dy2) (mul dx2 dy3)) denominator in
    let a23 := div (sub (mul dx1 dy3) (mul dx3 dy1)) denominator in
    mk (add (sub x1 x0) (mul a13 x1)) (add (sub x3 x0) (mul a23 x3)) x0
       (add (sub y1 y0) (mul a13 y1)) (add (sub y3 y0) (mul a23 y3)) y0
       a13 a23 (Fin 1).

Definition buildAdjoint (this : t) : t :=
  mk (sub (mul (a22 this) (a33 this)) (mul (a23 this) (a32 this)))
     (sub (mul (a23 this) (a31 this)) (mul (a21 this) (a33 this)))
     (sub (mul (a21 this) (a32 this)) (mul (a22 this) (a31 this)))
     (sub (mul (a13 this) (a32 this)) (mul (a12 this) (a33 this)))
     (sub (mul (a11 this) (a33 this)) (mul (a13 this) (a31 this)))
     (sub (mul (a12 this) (a31 this)) (mul (a11 this) (a32 this)))
     (sub (mul (a12 this) (a23 this)) (mul (a13 this) (a22 this)))
     (sub (mul (a13 this) (a21 this)) (mul (a11 this) (a23 this)))
     (sub (mul (a11 this) (a22 this)) (mul (a12 this) (a21 this))).

Definition times (this other : t) : t :=
  mk (add (add (mul (a11 this) (a11 other)) (mul (a21 this) (a12 other))) (mul (a31 this) (a13 other)))
     (add (add (mul (a11 this) (a21 other)) (mul (a21 this) (a22 other))) (mul (a31 this) (a23 other)))
     (add (add (mul (a11 this) (a31 other)) (mul (a21 this) (a32 other))) (mul (a31 this) (a33 other)))
     (add (add (mul (a12 this) (a11 other)) (mul (a22 this) (a12 other))) (mul (a32 this) (a13 other)))
     (add (add (mul (a12 this) (a21 other)) (mul (a22 this) (a22 other))) (mul (a32 this) (a23 other)))
     (add (add (mul (a12 this) (a31 other)) (mul (a22 this) (a32 other))) (mul (a32 this) (a33 other)))
     (add (add (mul (a13 this) (a11 other)) (mul (a23 this) (a12 other))) (mul (a33 this) (a13 other)))
     (add (add (mul (a13 this) (a21 other)) (mul (a23 this) (a22 other))) (mul (a33 this) (a23 other)))
     (add (add (mul (a13 this) (a31 other)) (mul (a23 this) (a32 other))) (mul (a33 this) (a33 other))).

Definition quadrilateralToSquare (x0 y0 x1 y1 x2 y2 x3 y3 : number) : t :=
  buildAdjoint (squareToQuadrilateral x0 y0 x1 y1 x2 y2 x3 y3).

Definition quadrilateralToQuadrilateral
  (x0 y0 x1 y1 x2 y2 x3 y3 x0p y0p x1p y1p x2p y2p x3p y3p : number) : t :=
  let qToS := quadrilateralToSquare x0 y0 x1 y1 x2 y2 x3 y3 in
  let sToQ := squareToQuadrilateral x0p y0p x1p y1p x2p y2p x3p y3p in
  times sToQ qToS.

(** *** Vocabulary for the statements about transforms

    The image of one point, as the loops above compute it in doubles, and
    the point that the [Float32Array] holds once the image is stored. *)
Definition imageOf (tr : t) (p : number * number) : number * number :=
  let x := fst p in
  let y := snd p in
  let denominator := add (add (mul (a13 tr) x) (mul (a23 tr) y)) (a33 tr) in
  (div (add (add (mul (a11 tr) x) (mul (a21 tr) y)) (a31 tr)) denominator,
   div (add (add (mul (a12 tr) x) (mul (a22 tr) y)) (a32 tr)) denominator).

Definition stored (p : number * number) : number * number :=
  (fround (fst p), fround (snd p)).

End PerspectiveTransform.

(** ** GridSampler ([GridSampler.ts]) *)

Module GridSampler.

Import Num.

(** The body shared by the two loops of [checkAndNudgePoints]: the point at
    [offset] is checked and nudged; the result carries the flag [nudged]. *)
Definition nudgeAt (width height : Z) (points : list number) (offset : Z)
  : result (list number * bool) :=
  let x := floor (get points offset) in
  let y := floor (get points (offset + 1)) in
  if lt x (ofZ (-1)) || gt x (ofZ width) || lt y (ofZ (-1)) || gt y (ofZ height) then
    Throw NotFoundException
  else
    let nudged := false in
    let '(points, nudged) :=
      if eqb x (ofZ (-1)) then (set points offset (Fin 0), true)
      else if eqb x (ofZ width) then (set points offset (ofZ (width - 1)), true)
      else (points, nudged) in
    let '(points, nudged) :=
      if eqb y (ofZ (-1)) then (set points (offset + 1) (Fin 0), true)
      else if eqb y (ofZ height) then (set points (offset + 1) (ofZ (height - 1)), true)
      else (points, nudged) in
    Ok (points, nudged).

(** One of the two [for (...; ... && nudged; ...)] loops, over the offsets it
    would visit. *)
Fixpoint scan (width height : Z) (offsets : list Z) (points : list number)
  (nudged : bool) : result (list number) :=
  match offsets with
  | [] => Ok points
  | offset :: rest =>
      if nudged then
        do r <- nudgeAt width height points offset;
        scan width height rest (fst r) (snd r)
      else Ok points
  end.

Definition checkAndNudgePoints (image : BitMatrix.t) (points : list number)
  : result (list number) :=
  let width := BitMatrix.getWidth image in
  let height := BitMatrix.getHeight image in
  (* Check and nudge points from start until we see some that are OK: *)
  do points <- scan width height (evens (Z.of_nat (length points))) points true;
  (* Check and nudge points from end: *)
  scan width height (evensDown (Z.of_nat (length points))) points true.

End GridSampler.

(** *** Vocabulary for the statements about [checkAndNudgePoints]

    A batch is handed over as the interleaved array [x0, y0, x1, y1, ...];
    the statements speak of it as a list of points. *)

Module Points.

Import Num.

Definition point : Type := number * number.

Fixpoint flatten (ps : list point) : list number :=
  match ps with
  | [] => []
  | p :: ps' => fst p :: snd p :: flatten ps'
  end.

(** A coordinate that the check leaves as it is: NaN, or a finite number
    whose floor is one of the indices [0 .. size - 1]. *)
Definition accepted (size : Z) (v : number) : Prop :=
  match v with
  | Fin q => 0 <= Qfloor q < size
  | NegZero => 0 < size
  | NaN => True
  | PInf | NInf => False
  end.

Section Image.
Variables width height : Z.

(** More than one unit outside: a floor coordinate below [-1] or above the
    width (height). *)
Definition farOut (p : point) : bool :=
  lt (floor (fst p)) (ofZ (-1)) || gt (floor (fst p)) (ofZ width) ||
  lt (floor (snd p)) (ofZ (-1)) || gt (floor (snd p)) (ofZ height).

(** One unit outside: a floor coordinate equal to [-1] or to the width
    (height). *)
Definition oneOut (p : point) : bool :=
  eqb (floor (fst p)) (ofZ (-1)) || eqb (floor (fst p)) (ofZ width) ||
  eqb (floor (snd p)) (ofZ (-1)) || eqb (floor (snd p)) (ofZ height).

(** A point that the scan nudges and then steps over. *)
Definition needsNudge (p : point) : bool := negb (farOut p) && oneOut p.

(** A point at which a scan stops without failing: both coordinates are
    [accepted] (see [inside_accepted]). *)
Definition inside (p : point) : bool := negb (farOut p) && negb (oneOut p).

Definition clampTo (size : Z) (v : number) : number :=
  if eqb (floor v) (ofZ (-1)) then Fin 0
  else if eqb (floor v) (ofZ size) then fround (ofZ (size - 1))
  else v.

(** The point moved onto the nearest edge. *)
Definition clamp (p : point) : point := (clampTo width (fst p), clampTo height (snd p)).

(** One scan read on the list of points, first point first. *)
Fixpoint scanPoints (ps : list point) : result (list point) :=
  match ps with
  | [] => Ok []
  | p :: rest =>
      if farOut p then Throw NotFoundException
      else if oneOut p then
        do rest' <- scanPoints rest; Ok (clamp p :: rest')
      else Ok (p :: rest)
  end.

End Image.

End Points.

(** ** DefaultGridSampler ([DefaultGridSampler.ts]) *)

Module DefaultGridSampler.

Import Num.

(** One turn of [for (let y = 0; y < dimensionY; y++)]. *)
Definition sampleRow (image : BitMatrix.t) (transform : PerspectiveTransform.t)
  (st : BitMatrix.t * list number) (y : Z) : result (BitMatrix.t * list number) :=
  let '(bits, points) := st in
  let max := Z.of_nat (length points) in
  let iValue := add (ofZ y) half in
  let points :=
    fold_left
      (fun points x => set (set points x (add (ofZ (x / 2)) half)) (x + 1) iValue)
      (evens max) points in
  let points := PerspectiveTransform.transformPoints transform points in
  do points <- GridSampler.checkAndNudgePoints image points;
  do bits <-
    tryCatch
      (Ok (fold_left
             (fun bits x =>
                if BitMatrix.getAtFloor image (get points x) (get points (x + 1))
                then BitMatrix.set bits (x / 2) y
                else bits)
             (evens max) bits))
      (fun _ => Throw NotFoundException);
  Ok (bits, points).

Definition sampleGridWithTransform (image : BitMatrix.t) (dimensionX dimensionY : Z)
  (transform : PerspectiveTransform.t) : result BitMatrix.t :=
  if (dimensionX <=? 0) || (dimensionY <=? 0) then Throw NotFoundException
  else
    do bits <- BitMatrix.new dimensionX dimensionY;
    let points := repeat (Fin 0) (Z.to_nat (2 * dimensionX)) in
    do st <- foldM (sampleRow image transform) (upto dimensionY) (bits, points);
    Ok (fst st).

Definition sampleGrid (image : BitMatrix.t) (dimensionX dimensionY : Z)
  (p1ToX p1ToY p2ToX p2ToY p3ToX p3ToY p4ToX p4ToY : number)
  (p1FromX p1FromY p2FromX p2FromY p3FromX p3FromY p4FromX p4FromY : number)
  : result BitMatrix.t :=
  let transform :=
    PerspectiveTransform.quadrilateralToQuadrilateral
      p1ToX p1ToY p2ToX p2ToY p3ToX p3ToY p4ToX p4ToY
      p1FromX p1FromY p2FromX p2FromY p3FromX p3FromY p4FromX p4FromY in
  sampleGridWithTransform image dimensionX dimensionY transform.

(** *** Vocabulary for the statements about sampling

    The point of the image at which bit [(x, y)] of the output is read: the
    centre [(x + 0.5, y + 0.5)] of the module as the array of points holds
    it, and its image under the transform as the array holds it. *)
Definition moduleCentre (x y : Z) : number * number :=
  PerspectiveTransform.stored (add (ofZ x) half, add (ofZ y) half).

Definition samplePoint (transform : PerspectiveTransform.t) (x y : Z) : number * number :=
  PerspectiveTransform.stored (PerspectiveTransform.imageOf transform (moduleCentre x y)).

(** A number that is exactly [x + 0.5]. *)
Definition centreOf (v : number) (x : Z) : Prop :=
  exists q, v = Fin q /\ (q == inject_Z x + (1 # 2))%Q.

End DefaultGridSampler.

(** ** Concrete inputs used in the examples *)

(** A 1x1 matrix with its bit unset. *)
Definition image1 : BitMatrix.t :=
  {| BitMatrix.width := 1; BitMatrix.height := 1; BitMatrix.rowSize := 1;
     BitMatrix.bits := [0] |}.

Definition identityTransform : PerspectiveTransform.t :=
  PerspectiveTransform.mk (Fin 1) (Fin 0) (Fin 0)
                          (Fin 0) (Fin 1) (Fin 0)
                          (Fin 0) (Fin 0) (Fin 1).

(** A 4x4 matrix with every bit set. *)
Definition darkImage4 : BitMatrix.t :=
  {| BitMatrix.width := 4; BitMatrix.height := 4; BitMatrix.rowSize := 1;
     BitMatrix.bits := [15; 15; 15; 15] |}.

(** The transform [sampleGrid] builds from the grid corners
    (0,0) (3,0) (3,3) (0,3) and the image corners (0,0) (3,1) (0,4) (2,1),
    a quadrilateral that is not convex. *)
Definition twistedTransform : PerspectiveTransform.t :=
  PerspectiveTransform.quadrilateralToQuadrilateral
    (Num.ofZ 0) (Num.ofZ 0) (Num.ofZ 3) (Num.ofZ 0)
    (Num.ofZ 3) (Num.ofZ 3) (Num.ofZ 0) (Num.ofZ 3)
    (Num.ofZ 0) (Num.ofZ 0) (Num.ofZ 3) (Num.ofZ 1)
    (Num.ofZ 0) (Num.ofZ 4) (Num.ofZ 2) (Num.ofZ 1).

(** The sample points of output row 0 for a grid three modules wide. *)
Definition row0Points : list number :=
  [Fin (1 # 2); Fin (1 # 2); Fin (3 # 2); Fin (1 # 2); Fin (5 # 2); Fin (1 # 2)].

(** What a [Float32Array] holds once the decimal [q] is stored into it. *)
Definition single (q : Q) : number := Num.fround (Num.round64 q).

(** An empty 10x10 matrix, and the translations of the plane by the doubles
    nearest to [dx] and [dy]. *)
Definition image10 : BitMatrix.t :=
  {| BitMatrix.width := 10; BitMatrix.height := 10; BitMatrix.rowSize := 1;
     BitMatrix.bits := repeat 0 10%nat |}.

Definition translation (dx dy : Q) : PerspectiveTransform.t :=
  PerspectiveTransform.mk (Fin 1) (Fin 0) (Num.round64 dx)
                          (Fin 0) (Fin 1) (Num.round64 dy)
                          (Fin 0) (Fin 0) (Fin 1).

(** A 40x3 matrix (two words a row) whose only set bit is at (37, 1). *)
Definition oneBit40x3 : BitMatrix.t :=
  {| BitMatrix.width := 40; BitMatrix.height := 3; BitMatrix.rowSize := 2;
     BitMatrix.bits := [0; 0; 0; 32; 0; 0] |}.

(** A 35x3 matrix (two words a row, three bits used in the second). *)
Definition matrix35x3 : BitMatrix.t :=
  {| BitMatrix.width := 35; BitMatrix.height := 3; BitMatrix.rowSize := 2;
     BitMatrix.bits := [1; 0; 6; 1; -2147483648; 4] |}.

(** A 4x2 matrix whose only set bit is bit 31 of the word of row 1, a bit
    that no column uses; [new BitMatrix(4, 2, 1, bits)] builds it, and so
    does [set(31, 1)] on an empty 4x2 matrix. *)
Definition unusedBit4x2 : BitMatrix.t :=
  {| BitMatrix.width := 4; BitMatrix.height := 2; BitMatrix.rowSize := 1;
     BitMatrix.bits := [0; -2147483648] |}.

(** A 1x1 matrix with its bit set. *)
Definition dark1 : BitMatrix.t :=
  {| BitMatrix.width := 1; BitMatrix.height := 1; BitMatrix.rowSize := 1;
     BitMatrix.bits := [1] |}.

(** A 1x1 matrix with its bit set and, beside it, a bit of the packed word
    that no column uses. *)
Definition dark1Padded : BitMatrix.t :=
  {| BitMatrix.width := 1; BitMatrix.height := 1; BitMatrix.rowSize := 1;
     BitMatrix.bits := [3] |}.

(** * Theorems *)

Section BitSourceFacts.
Import BitSource.

Lemma wholeBytes_exit fuel bs r n b :
  0 <= n -> (Z.to_nat n <= fuel)%nat ->
  exists r', wholeBytes fuel bs r n b = (r', n mod 8, b + n / 8).
Proof.
  revert r n b. induction fuel as [|fuel IH]; intros r n b Hn Hf.
  - assert (n = 0) by lia. subst n. exists r. simpl.
    change (0 mod 8) with 0. change (0 / 8) with 0. now rewrite Z.add_0_r.
  - simpl. destruct (Z.geb_spec n 8) as [E|E].
    + destruct (IH (js_or (js_shl r 8) (js_and (orUndefined (typedGet bs b)) 255))
                   (n - 8) (b + 1)) as [r' Hr']; [lia | lia |].
      exists r'. rewrite Hr'.
      assert ((n - 8) mod 8 = n mod 8) as -> by (Z.div_mod_to_equations; lia).
      assert (b + 1 + (n - 8) / 8 = b + n / 8) as -> by (Z.div_mod_to_equations; lia).
      reflexivity.
    + exists r.
      assert (n mod 8 = n) as -> by (Z.div_mod_to_equations; lia).
      assert (n / 8 = 0) as -> by (Z.div_mod_to_equations; lia).
      f_equal. lia.
Qed.

Local Ltac cursor_fin :=
  repeat split; try reflexivity; Z.div_mod_to_equations; lia.

Lemma readBits_step n s v s' :
  cursor_ok s -> readBits n s = Ok (v, s') ->
  cursor_ok s' /\ bytes s' = bytes s /\ byteOffset s <= byteOffset s' /\
  position s' = position s + n.
Proof.
  intros (Hbit & Hbyte & Hav) H. unfold readBits in H.
  destruct ((n <? 1) || (n >? 32) || (n >? available s)) eqn:G; [discriminate |].
  apply orb_false_elim in G as [G G3]. apply orb_false_elim in G as [G1 G2].
  apply Z.ltb_ge in G1.
  assert (n <= 32) as Hn32 by (destruct (Z.gtb_spec n 32); [discriminate | lia]).
  assert (n <= available s) as Hnav by (destruct (Z.gtb_spec n (available s)); [discriminate | lia]).
  clear G2 G3. unfold cursor_ok, position, available in *.
  destruct s as [bs byo bio]; simpl in *.
  destruct (Z.gtb_spec bio 0) as [E1|E1].
  - destruct (Z.ltb_spec n (8 - bio)) as [E2|E2].
    + (* the request fits in the current byte *)
      destruct (Z.eqb_spec (bio + n) 8) as [E3|E3]; [lia |].
      destruct (Z.gtb_spec (n - n) 0) as [E4|E4]; [lia |].
      injection H as <- <-. simpl. cursor_fin.
    + destruct (Z.eqb_spec (bio + (8 - bio)) 8) as [E3|E3]; [| lia].
      destruct (Z.gtb_spec (n - (8 - bio)) 0) as [E4|E4].
      * match type of H with context [wholeBytes ?f ?b ?r ?m ?o] =>
          destruct (wholeBytes_exit f b r m o) as [r' Hr']; [lia | lia |];
          rewrite Hr' in H
        end.
        destruct (Z.gtb_spec ((n - (8 - bio)) mod 8) 0) as [E5|E5];
          injection H as <- <-; simpl; cursor_fin.
      * injection H as <- <-. simpl. cursor_fin.
  - assert (bio = 0) as -> by lia.
    destruct (Z.gtb_spec n 0) as [E4|E4]; [| lia].
    match type of H with context [wholeBytes ?f ?b ?r ?m ?o] =>
      destruct (wholeBytes_exit f b r m o) as [r' Hr']; [lia | lia |];
      rewrite Hr' in H
    end.
    destruct (Z.gtb_spec (n mod 8) 0) as [E5|E5];
      injection H as <- <-; simpl; cursor_fin.
Qed.

Lemma reachable_cursor_ok bs s :
  reachable bs s -> cursor_ok s /\ bytes s = bs.
Proof.
  induction 1 as [|s n v s' _ [IH1 IH2] Hr].
  - unfold cursor_ok, available, new. simpl. repeat split; lia.
  - destruct (readBits_step n s v s' IH1 Hr) as (? & ? & _). split; congruence.
Qed.

(** C4. Over the buffer [0xB4, 0x3A]: [readBits(4)] returns 11, the next
    [readBits(8)] returns 67, [available()] is then 4, and [readBits(5)]
    throws [IllegalArgumentException]. *)
Theorem BitSource_scenario :
  exists s1 s2,
    readBits 4 (new [180; 58]) = Ok (11, s1) /\
    readBits 8 s1 = Ok (67, s2) /\
    available s2 = 4 /\
    readBits 5 s2 = Throw IllegalArgumentException.
Proof.
  exists {| bytes := [180; 58]; byteOffset := 0; bitOffset := 4 |}.
  exists {| bytes := [180; 58]; byteOffset := 1; bitOffset := 4 |}.
  repeat split; vm_compute; reflexivity.
Qed.

(** C5 (as the code has it). After every successful [readBits(n)] on a source
    reached from a fresh one: [0 <= bitOffset < 8],
    [available() = 8*(len - byteOffset) - bitOffset >= 0], [byteOffset] has
    not decreased, and the bit position [8*byteOffset + bitOffset] has grown
    by exactly [n] (at least one). *)
Theorem BitSource_cursor_invariant bs s n v s' :
  reachable bs s -> readBits n s = Ok (v, s') ->
  0 <= bitOffset s' < 8 /\
  available s' = 8 * (Z.of_nat (length bs) - byteOffset s') - bitOffset s' /\
  0 <= available s' /\
  byteOffset s <= byteOffset s' /\
  position s' = position s + n /\ 1 <= n.
Proof.
  intros Hs Hr. destruct (reachable_cursor_ok bs s Hs) as [Hok Hbs].
  destruct (readBits_step n s v s' Hok Hr) as ((Hb & _ & Ha) & Hbytes & Hmono & Hpos).
  repeat split; try tauto; try lia.
  - unfold available. now rewrite Hbytes, Hbs.
  - unfold readBits in Hr. destruct (Z.ltb_spec n 1); [discriminate | lia].
Qed.

(** A successful read that leaves [byteOffset] where it was: the byte cursor
    does not strictly increase with every read. *)
Lemma BitSource_byteOffset_not_strict :
  exists v s',
    readBits 1 (new [180; 58]) = Ok (v, s') /\
    ~ (byteOffset (new [180; 58]) < byteOffset s').
Proof.
  exists 1, {| bytes := [180; 58]; byteOffset := 0; bitOffset := 1 |}.
  split; [vm_compute; reflexivity | simpl; lia].
Qed.

Lemma BitSource_cursor_invariant_witness :
  reachable [180; 58] (new [180; 58]) /\
  readBits 4 (new [180; 58])
    = Ok (11, {| bytes := [180; 58]; byteOffset := 0; bitOffset := 4 |}) /\
  position {| bytes := [180; 58]; byteOffset := 0; bitOffset := 4 |} = 0 + 4.
Proof.
  split; [constructor | split; [vm_compute; reflexivity |]].
  apply (BitSource_cursor_invariant [180; 58] (new [180; 58]) 4 11
           {| bytes := [180; 58]; byteOffset := 0; bitOffset := 4 |});
    [constructor | vm_compute; reflexivity].
Defined.

End BitSourceFacts.

(** ** Sampler: the dimension guard *)

Section SamplerGuard.
Import DefaultGridSampler.

(** C1 (as the code has it). With [dimensionX <= 0] or [dimensionY <= 0],
    [sampleGridWithTransform], and hence [sampleGrid], throws
    [NotFoundException], whatever the image and the transform. *)
Theorem sampleGrid_nonpositive_dimension image dimensionX dimensionY :
  dimensionX <= 0 \/ dimensionY <= 0 ->
  (forall transform,
      sampleGridWithTransform image dimensionX dimensionY transform
      = Throw NotFoundException) /\
  (forall a b c d e f g h a' b' c' d' e' f' g' h',
      sampleGrid image dimensionX dimensionY a b c d e f g h a' b' c' d' e' f' g' h'
      = Throw NotFoundException).
Proof.
  intros H.
  assert ((dimensionX <=? 0) || (dimensionY <=? 0) = true) as G.
  { apply orb_true_iff. destruct H; [left | right]; now apply Z.leb_le. }
  split; intros; unfold sampleGrid, sampleGridWithTransform; now rewrite G.
Qed.

Lemma sampleGrid_nonpositive_dimension_witness :
  sampleGridWithTransform image1 0 1 identityTransform = Throw NotFoundException.
Proof.
  apply (sampleGrid_nonpositive_dimension image1 0 1). left. lia.
Defined.

(** The error thrown for a dimension of zero is not of the invalid-argument
    family. *)
Lemma sampleGrid_zero_dimension_not_invalid_argument :
  ~ exists e,
      sampleGridWithTransform image1 0 1 identityTransform = Throw e /\
      isInvalidArgument e = true.
Proof.
  intros (e & H & He). vm_compute in H. injection H as <-. discriminate He.
Qed.

End SamplerGuard.

(** ** Sampler: lookups outside of the image *)

Section SamplerLookups.
Import Num DefaultGridSampler.

(** The body of the [try] block of [sampleGridWithTransform] never throws:
    [get] answers [false] outside of the packed array, so the [catch] that
    turns a fault into [NotFoundException] is never entered, and a row fails
    only when [checkAndNudgePoints] does. *)
Lemma sampleRow_fails_only_in_check image transform st y e :
  sampleRow image transform st y = Throw e ->
  exists points, GridSampler.checkAndNudgePoints image points = Throw e.
Proof.
  unfold sampleRow. destruct st as [bits points].
  match goal with |- context [GridSampler.checkAndNudgePoints image ?pts] =>
    destruct (GridSampler.checkAndNudgePoints image pts) as [pts'|e'] eqn:E
  end; cbn [bind tryCatch].
  - discriminate.
  - intros H. injection H as <-. eexists. exact E.
Qed.

(** C2 (the code at the failing input). Sampling the all-dark 4x4 image into a
    3x3 grid through [twistedTransform] returns a matrix, although the second
    sample point of row 0 is at (8, 2) after nudging, outside of the image:
    the lookup there is read as [false] and output row 0 is [101]. *)
Theorem sampleGrid_reads_outside_silently :
  sampleGrid darkImage4 3 3
    (ofZ 0) (ofZ 0) (ofZ 3) (ofZ 0) (ofZ 3) (ofZ 3) (ofZ 0) (ofZ 3)
    (ofZ 0) (ofZ 0) (ofZ 3) (ofZ 1) (ofZ 0) (ofZ 4) (ofZ 2) (ofZ 1)
  = Ok {| BitMatrix.width := 3; BitMatrix.height := 3; BitMatrix.rowSize := 1;
          BitMatrix.bits := [5; 7; 7] |} /\
  exists points,
    GridSampler.checkAndNudgePoints darkImage4
      (PerspectiveTransform.transformPoints twistedTransform row0Points) = Ok points /\
    floor (get points 2) = ofZ 8 /\ floor (get points 3) = ofZ 2 /\
    gt (floor (get points 2)) (ofZ (BitMatrix.getWidth darkImage4)) = true /\
    BitMatrix.getAtFloor darkImage4 (get points 2) (get points 3) = false.
Proof.
  split; [vm_compute; reflexivity |].
  eexists. split; [vm_compute; reflexivity |].
  repeat split; vm_compute; reflexivity.
Qed.

End SamplerLookups.

(** ** PerspectiveTransform: the affine case *)

Section Affine.
Import Num PerspectiveTransform.

(** C9. When [dx3 = x0 - x1 + x2 - x3] and [dy3 = y0 - y1 + y2 - y3], as the
    code computes them in doubles from left to right, both compare equal to
    zero, [squareToQuadrilateral] returns the transform with [a13 = 0],
    [a23 = 0], [a33 = 1] and the other six coefficients the differences of
    the corners, computed in doubles as well. *)
Theorem squareToQuadrilateral_affine x0 y0 x1 y1 x2 y2 x3 y3 :
  eqb (sub (add (sub x0 x1) x2) x3) (Fin 0) = true ->
  eqb (sub (add (sub y0 y1) y2) y3) (Fin 0) = true ->
  let tr := squareToQuadrilateral x0 y0 x1 y1 x2 y2 x3 y3 in
  a13 tr = Fin 0 /\ a23 tr = Fin 0 /\ a33 tr = Fin 1 /\
  a11 tr = sub x1 x0 /\ a21 tr = sub x2 x1 /\ a31 tr = x0 /\
  a12 tr = sub y1 y0 /\ a22 tr = sub y2 y1 /\ a32 tr = y0.
Proof.
  intros Hx Hy tr. subst tr. unfold squareToQuadrilateral.
  rewrite Hx, Hy. cbn [andb a11 a21 a31 a12 a22 a32 a13 a23 a33]. repeat split.
Qed.

Lemma squareToQuadrilateral_affine_witness :
  a13 (squareToQuadrilateral (Fin 0) (Fin 0) (Fin 1) (Fin 0)
                             (Fin 1) (Fin 1) (Fin 0) (Fin 1)) = Fin 0.
Proof.
  apply (squareToQuadrilateral_affine (Fin 0) (Fin 0) (Fin 1) (Fin 0)
                                      (Fin 1) (Fin 1) (Fin 0) (Fin 1));
    vm_compute; reflexivity.
Defined.

(** The test is on the rounded sums.  With the corners (1,0), (10^16,0),
    (10^16,1), (1,1) the exact sums are zero, but [1 - 10^16] rounds to
    [-10^16], [dx3] is [-1] and the projective branch is taken; with the
    corners (10^16,0), (1,0), (0,1), (10^16,1) the exact [dx3] is [-1], the
    computed one is zero and the affine branch is taken. *)
Lemma squareToQuadrilateral_test_is_rounded :
  let big := ofZ (10 ^ 16) in
  (sub (add (sub (Fin 1) big) big) (Fin 1) = Fin (-1) /\
   eqb (a23 (squareToQuadrilateral (Fin 1) (Fin 0) big (Fin 0) big (Fin 1) (Fin 1) (Fin 1)))
       (Fin 0) = false) /\
  (sub (add (sub big (Fin 1)) (Fin 0)) big = Fin 0 /\
   a23 (squareToQuadrilateral big (Fin 0) (Fin 1) (Fin 0) (Fin 0) (Fin 1) big (Fin 1))
   = Fin 0).
Proof. repeat split; vm_compute; reflexivity. Qed.

End Affine.

(** ** BitMatrix: reading outside of the packed array *)

Section GetTotal.
Import BitMatrix.





End GetTotal.

(** ** Numbers: values that rounding leaves as they are *)

Section Rounding.
Import Num.
Local Open Scope Q_scope.

Lemma nearestEven_int q n : q == inject_Z n -> nearestEven q = n.
Proof.
  intros H. unfold nearestEven. cbv zeta.
  rewrite (Qfloor_comp _ _ H), Qfloor_Z.
  assert (q - inject_Z n == 0) as E by (rewrite H; ring).
  now rewrite (Qcompare_comp _ _ E _ _ (Qeq_refl _)).
Qed.

Lemma two_nonzero : ~ 2 == 0.
Proof. discriminate. Qed.

Lemma pow2_pos e : 0 < 2 ^ e.
Proof. now apply Qpower_0_lt. Qed.

Lemma pow2_inject n : (0 <= n)%Z -> 2 ^ n == inject_Z (2 ^ n).
Proof. intros H. now rewrite Zpower_Qpower. Qed.

Lemma exponent_le a : 0 < a -> 2 ^ exponent a <= a.
Proof.
  destruct a as [n d]. intros Ha.
  assert (0 < n)%Z as Hn by (unfold Qlt in Ha; simpl in Ha; lia).
  unfold exponent. cbn [Qnum Qden].
  set (k := (Z.log2 n - Z.log2 (Z.pos d))%Z).
  destruct (Qle_bool (2 ^ k) (n # d)) eqn:E; [now apply Qle_bool_iff |].
  replace (k - 1)%Z with (Z.log2 n - (Z.log2 (Z.pos d) + 1))%Z by (unfold k; lia).
  rewrite Qpower_minus by exact two_nonzero.
  pose proof (Z.log2_nonneg n). pose proof (Z.log2_nonneg (Z.pos d)).
  rewrite !pow2_inject by lia.
  destruct (Z.log2_spec n Hn) as [Hlo _].
  destruct (Z.log2_spec (Z.pos d) ltac:(lia)) as [_ Hhi].
  rewrite <- Z.add_1_r in Hhi.
  apply Qle_shift_div_r.
  - change 0 with (inject_Z 0). rewrite <- Zlt_Qlt. lia.
  - unfold Qle. cbn [Qnum Qden Qmult inject_Z]. nia.
Qed.

(** A value that is a multiple of the spacing at its place is the result of
    its own rounding. *)
Lemma roundTo_multiple prec emax q f n :
  ~ q == 0 ->
  Z.max (exponent (Qabs q) + 1 - prec) (3 - emax - prec) = f ->
  Qabs q / 2 ^ f == inject_Z n -> Qabs q < 2 ^ emax ->
  roundTo prec emax q = Fin (Qred q).
Proof.
  intros Hq Hf Hn Hmax. unfold roundTo.
  destruct (Qeq_bool q 0) eqn:E0; [apply Qeq_bool_iff in E0; contradiction |].
  cbv zeta. rewrite Hf, (nearestEven_int _ _ Hn).
  assert (inject_Z n * 2 ^ f == Qabs q) as Hr.
  { rewrite <- Hn. field. apply Qpower_not_0, two_nonzero. }
  destruct (Qle_bool (2 ^ emax) (inject_Z n * 2 ^ f)) eqn:E1.
  { apply Qle_bool_iff in E1. rewrite Hr in E1.
    exfalso. exact (Qlt_not_le _ _ Hmax E1). }
  destruct (Qeq_bool (inject_Z n * 2 ^ f) 0) eqn:E2.
  { apply Qeq_bool_iff in E2. rewrite Hr in E2. exfalso. apply Hq.
    revert E2. apply Qabs_case; intros _ E2; [exact E2 |].
    rewrite <- (Qopp_involutive q), E2. reflexivity. }
  f_equal. apply Qred_complete.
  destruct (Qle_bool 0 q) eqn:E3; cbn [negb]; rewrite Hr.
  - apply Qabs_pos. now apply Qle_bool_iff.
  - rewrite Qabs_neg; [apply Qopp_involutive |].
    apply Qlt_le_weak, Qnot_le_lt. intros H.
    apply Qle_bool_iff in H. congruence.
Qed.

Lemma roundTo_exact prec emax q m e :
  q == inject_Z m * 2 ^ e ->
  (0 < Z.abs m < 2 ^ prec)%Z -> (3 - emax - prec <= e)%Z -> (e + prec <= emax)%Z ->
  roundTo prec emax q = Fin (Qred q).
Proof.
  intros Hq Hm Hlo Hhi.
  assert (0 < prec)%Z as Hprec.
  { destruct (Z.lt_ge_cases 0%Z prec); [assumption |].
    assert (2 ^ prec <= 1)%Z; [| lia].
    destruct (Z.eq_dec prec 0%Z) as [->|]; [reflexivity |].
    rewrite Z.pow_neg_r by lia. lia. }
  assert (Qabs q == inject_Z (Z.abs m) * 2 ^ e) as Habs.
  { rewrite Hq, Qabs_Qmult, (Qabs_pos (2 ^ e)) by apply Qlt_le_weak, pow2_pos.
    reflexivity. }
  assert (0 < inject_Z (Z.abs m)) as Hpos
    by (change 0 with (inject_Z 0); rewrite <- Zlt_Qlt; lia).
  assert (0 < Qabs q) as Ha.
  { rewrite Habs. apply Qmult_lt_0_compat; [exact Hpos | apply pow2_pos]. }
  assert (Qabs q < 2 ^ (e + prec)) as Hlt.
  { rewrite Habs, Qpower_plus, (Qmult_comm (2 ^ e)) by exact two_nonzero.
    apply Qmult_lt_compat_r; [apply pow2_pos |].
    rewrite pow2_inject by lia. rewrite <- Zlt_Qlt. lia. }
  assert (exponent (Qabs q) < e + prec)%Z as Hex.
  { apply (Qpower_lt_compat_l_inv 2); [| reflexivity].
    eapply Qle_lt_trans; [apply exponent_le, Ha | exact Hlt]. }
  set (f := Z.max (exponent (Qabs q) + 1 - prec) (3 - emax - prec)).
  assert (f <= e)%Z as Hfe by (unfold f; lia).
  apply (roundTo_multiple prec emax _ f (Z.abs m * 2 ^ (e - f))).
  - intros E. rewrite E in Ha. exact (Qlt_irrefl _ Ha).
  - reflexivity.
  - rewrite Habs, inject_Z_mult, <- pow2_inject by lia.
    rewrite Qpower_minus by exact two_nonzero. field.
    apply Qpower_not_0, two_nonzero.
  - eapply Qlt_le_trans; [exact Hlt |].
    apply Qpower_le_compat_l; [lia | discriminate].
Qed.

(** Integers of up to 24 bits are singles, of up to 53 bits doubles. *)
Lemma Qred_inject z : Qred (inject_Z z) = inject_Z z.
Proof. apply Qcanon.Qred_identity. cbn [Qnum Qden inject_Z]. apply Z.gcd_1_r. Qed.

Lemma roundTo_ofZ prec emax z :
  (0 < prec < emax)%Z -> (3 - emax - prec <= 0)%Z -> (Z.abs z <= 2 ^ prec)%Z ->
  roundTo prec emax (inject_Z z) = Fin (inject_Z z).
Proof.
  intros [Hprec He] Hmin Hz.
  destruct (Z.eq_dec z 0%Z) as [->|Hz0]; [reflexivity |].
  rewrite <- (Qred_inject z) at 2.
  destruct (Z.eq_dec (Z.abs z) (2 ^ prec)%Z) as [Htop|Hlow].
  - assert (2 ^ prec = 2 * 2 ^ (prec - 1))%Z as Hpow
      by (rewrite <- Z.pow_succ_r by lia; f_equal; lia).
    apply (roundTo_exact prec emax _ (Z.sgn z * 2 ^ (prec - 1)) 1); try lia.
    assert (z = Z.sgn z * 2 ^ (prec - 1) * 2)%Z as Ez.
    { rewrite <- (Z.abs_sgn z) at 1. rewrite Htop, Hpow. ring. }
    rewrite Ez at 1. now rewrite inject_Z_mult.
  - apply (roundTo_exact prec emax _ z 0); try lia.
    change (2 ^ 0) with 1. now rewrite Qmult_1_r.
Qed.

Lemma fround_ofZ z : (Z.abs z <= 2 ^ 24)%Z -> fround (ofZ z) = ofZ z.
Proof. intros H. apply roundTo_ofZ; lia. Qed.

Lemma round64_ofZ z : (Z.abs z <= 2 ^ 53)%Z -> round64 (inject_Z z) = ofZ z.
Proof. intros H. apply roundTo_ofZ; lia. Qed.

End Rounding.

(** ** GridSampler: checking and nudging a batch of points *)

Section Nudge.
Import Num Points GridSampler.

Lemma length_flatten ps : length (flatten ps) = (2 * length ps)%nat.
Proof. induction ps as [|p ps IH]; simpl; lia. Qed.

Lemma flatten_app ps qs : flatten (ps ++ qs) = flatten ps ++ flatten qs.
Proof. induction ps as [|p ps IH]; simpl; [reflexivity | now rewrite IH]. Qed.

Lemma get_flatten_fst pre p post :
  get (flatten (pre ++ p :: post)) (2 * Z.of_nat (length pre)) = fst p.
Proof.
  unfold get. destruct (Z.ltb_spec (2 * Z.of_nat (length pre)) 0); [lia |].
  rewrite flatten_app. simpl.
  replace (Z.to_nat (2 * Z.of_nat (length pre))) with (length (flatten pre))
    by (rewrite length_flatten; lia).
  now rewrite list_lookup_middle.
Qed.

Lemma get_flatten_snd pre p post :
  get (flatten (pre ++ p :: post)) (2 * Z.of_nat (length pre) + 1) = snd p.
Proof.
  unfold get. destruct (Z.ltb_spec (2 * Z.of_nat (length pre) + 1) 0); [lia |].
  rewrite flatten_app. simpl.
  replace (Z.to_nat (2 * Z.of_nat (length pre) + 1))
    with (length (flatten pre ++ [fst p])) by (rewrite length_app, length_flatten; simpl; lia).
  change (flatten pre ++ fst p :: snd p :: flatten post)
    with (flatten pre ++ [fst p] ++ snd p :: flatten post).
  rewrite app_assoc. now rewrite list_lookup_middle.
Qed.

Lemma set_flatten_fst pre p post v :
  set (flatten (pre ++ p :: post)) (2 * Z.of_nat (length pre)) v
  = flatten (pre ++ (fround v, snd p) :: post).
Proof.
  unfold set. destruct (Z.ltb_spec (2 * Z.of_nat (length pre)) 0); [lia |].
  rewrite !flatten_app. simpl.
  replace (Z.to_nat (2 * Z.of_nat (length pre))) with (length (flatten pre) + 0)%nat
    by (rewrite length_flatten; lia).
  now rewrite insert_app_r.
Qed.

Lemma set_flatten_snd pre p post v :
  set (flatten (pre ++ p :: post)) (2 * Z.of_nat (length pre) + 1) v
  = flatten (pre ++ (fst p, fround v) :: post).
Proof.
  unfold set. destruct (Z.ltb_spec (2 * Z.of_nat (length pre) + 1) 0); [lia |].
  rewrite !flatten_app. simpl.
  replace (Z.to_nat (2 * Z.of_nat (length pre) + 1)) with (length (flatten pre) + 1)%nat
    by (rewrite length_flatten; lia).
  now rewrite insert_app_r.
Qed.

Lemma nudgeAt_flatten w h pre p post :
  nudgeAt w h (flatten (pre ++ p :: post)) (2 * Z.of_nat (length pre))
  = if farOut w h p then Throw NotFoundException
    else Ok (flatten (pre ++ (if oneOut w h p then clamp w h p else p) :: post),
             oneOut w h p).
Proof.
  unfold nudgeAt. rewrite get_flatten_fst, get_flatten_snd.
  fold (farOut w h p). destruct (farOut w h p); [reflexivity |].
  unfold oneOut, clamp, clampTo. destruct p as [x y]; cbn [fst snd].
  destruct (eqb (floor x) (ofZ (-1))); [| destruct (eqb (floor x) (ofZ w))];
    rewrite ?set_flatten_fst; cbn [fst snd orb];
    (destruct (eqb (floor y) (ofZ (-1))); [| destruct (eqb (floor y) (ofZ h))]);
    rewrite ?set_flatten_snd; cbn [fst snd orb]; reflexivity.
Qed.

Lemma scan_stopped w h offsets points : scan w h offsets points false = Ok points.
Proof. destruct offsets; reflexivity. Qed.

(** The scan from the start, begun at the point after [pre]. *)
Lemma scan_forward w h ps : forall pre,
  scan w h (map (fun k => 2 * k) (map Z.of_nat (seq (length pre) (length ps))))
       (flatten (pre ++ ps)) true
  = do r <- scanPoints w h ps; Ok (flatten (pre ++ r)).
Proof.
  induction ps as [|p ps IH]; intros pre; [reflexivity |].
  cbn [scan map seq length scanPoints]. rewrite nudgeAt_flatten.
  destruct (farOut w h p); [reflexivity |].
  cbn [bind fst snd]. destruct (oneOut w h p) eqn:E.
  - specialize (IH (pre ++ [clamp w h p])).
    rewrite length_app, Nat.add_1_r, <- app_assoc in IH. cbn [app length] in IH.
    rewrite IH. destruct (scanPoints w h ps); cbn [bind]; [| reflexivity].
    now rewrite <- app_assoc.
  - now rewrite scan_stopped.
Qed.

(** The scan from the end, begun at the point before [post]. *)
Lemma scan_backward w h ps : forall post,
  scan w h
       (map (fun k => 2 * Z.of_nat (length ps + length post) - 2 - 2 * k)
            (map Z.of_nat (seq (length post) (length ps))))
       (flatten (ps ++ post)) true
  = do r <- scanPoints w h (rev ps); Ok (flatten (rev r ++ post)).
Proof.
  induction ps as [|p ps IH] using rev_ind; intros post; [reflexivity |].
  rewrite rev_unit, length_app, Nat.add_1_r. cbn [scan map seq length scanPoints].
  change (S (length ps) + length post)%nat with (S (length ps + length post)).
  replace (2 * Z.of_nat (S (length ps + length post)) - 2 - 2 * Z.of_nat (length post))
    with (2 * Z.of_nat (length ps)) by lia.
  rewrite <- app_assoc. cbn [app]. rewrite nudgeAt_flatten.
  destruct (farOut w h p); [reflexivity |].
  cbn [bind fst snd]. destruct (oneOut w h p) eqn:E.
  - specialize (IH (clamp w h p :: post)). cbn [length] in IH.
    replace (length ps + S (length post))%nat with (S (length ps + length post)) in IH by lia.
    rewrite IH. destruct (scanPoints w h (rev ps)); cbn [bind]; [| reflexivity].
    cbn [rev]. now rewrite <- app_assoc.
  - rewrite scan_stopped. cbn [bind rev]. now rewrite rev_involutive, <- app_assoc.
Qed.

(** [checkAndNudgePoints] is the scan from the start followed by the scan
    from the end. *)
Lemma checkAndNudgePoints_scans image ps :
  checkAndNudgePoints image (flatten ps)
  = do r1 <- scanPoints (BitMatrix.width image) (BitMatrix.height image) ps;
    do r2 <- scanPoints (BitMatrix.width image) (BitMatrix.height image) (rev r1);
    Ok (flatten (rev r2)).
Proof.
  unfold checkAndNudgePoints, BitMatrix.getWidth, BitMatrix.getHeight.
  set (w := BitMatrix.width image). set (h := BitMatrix.height image).
  assert (forall qs, evens (Z.of_nat (length (flatten qs)))
                     = map (fun k => 2 * k) (map Z.of_nat (seq 0 (length qs)))) as Hev.
  { intros qs. unfold evens, upto. rewrite length_flatten. do 3 f_equal.
    Z.div_mod_to_equations. lia. }
  assert (forall qs, evensDown (Z.of_nat (length (flatten qs)))
                     = map (fun k => 2 * Z.of_nat (length qs + 0) - 2 - 2 * k)
                           (map Z.of_nat (seq 0 (length qs)))) as Hdn.
  { intros qs. unfold evensDown, upto. rewrite length_flatten.
    replace (Z.to_nat (Z.of_nat (2 * length qs) / 2)) with (length qs)
      by (Z.div_mod_to_equations; lia).
    apply map_ext. intros k. lia. }
  pose proof (scan_forward w h ps []) as Hf. cbn [length app] in Hf.
  rewrite Hev, Hf.
  destruct (scanPoints w h ps) as [r1|]; cbn [bind]; [| reflexivity].
  pose proof (scan_backward w h r1 []) as Hb. cbn [length] in Hb.
  rewrite app_nil_r in Hb. rewrite Hdn, Hb.
  destruct (scanPoints w h (rev r1)); cbn [bind]; [| reflexivity].
  now rewrite app_nil_r.
Qed.

(** *** Numbers that are integers *)

Lemma lt_ofZ a b : lt (ofZ a) (ofZ b) = (a <? b).
Proof.
  unfold lt, ofZ, Qle_bool. simpl. rewrite !Z.mul_1_r.
  destruct (Z.ltb_spec a b), (Z.leb_spec b a); simpl; try reflexivity; lia.
Qed.

Lemma eqb_ofZ a b : eqb (ofZ a) (ofZ b) = (a =? b).
Proof.
  unfold eqb, ofZ, Qeq_bool. simpl. now rewrite !Z.mul_1_r.
Qed.

Lemma floor_ofZ a : floor (ofZ a) = ofZ a.
Proof. unfold floor, ofZ. now rewrite Qfloor_Z. Qed.

(** After a nudge a coordinate is inside of the image, for a size whose
    last index a single holds exactly. *)
Lemma clampTo_inside size v :
  1 <= size <= 2 ^ 24 + 1 ->
  lt (floor v) (ofZ (-1)) = false -> gt (floor v) (ofZ size) = false ->
  lt (floor (clampTo size v)) (ofZ (-1)) = false /\
  gt (floor (clampTo size v)) (ofZ size) = false /\
  eqb (floor (clampTo size v)) (ofZ (-1)) = false /\
  eqb (floor (clampTo size v)) (ofZ size) = false.
Proof.
  intros Hs Hlo Hhi. unfold clampTo.
  destruct (eqb (floor v) (ofZ (-1))) eqn:E1.
  - change (Fin 0) with (ofZ 0). unfold gt.
    rewrite floor_ofZ, !lt_ofZ, !eqb_ofZ.
    repeat split; first [apply Z.ltb_ge; lia | apply Z.eqb_neq; lia].
  - destruct (eqb (floor v) (ofZ size)) eqn:E2.
    + unfold gt. rewrite fround_ofZ by lia. rewrite floor_ofZ, !lt_ofZ, !eqb_ofZ.
      repeat split; first [apply Z.ltb_ge; lia | apply Z.eqb_neq; lia].
    + repeat split; assumption.
Qed.

Lemma clamp_inside w h p :
  1 <= w <= 2 ^ 24 + 1 -> 1 <= h <= 2 ^ 24 + 1 ->
  farOut w h p = false -> inside w h (clamp w h p) = true.
Proof.
  intros Hw Hh H. unfold farOut in H.
  repeat (apply orb_false_elim in H as [H ?]).
  destruct (clampTo_inside w (fst p) Hw) as (X1 & X2 & X3 & X4); [assumption .. |].
  destruct (clampTo_inside h (snd p) Hh) as (Y1 & Y2 & Y3 & Y4); [assumption .. |].
  unfold inside, farOut, oneOut, clamp. cbn [fst snd].
  now rewrite X1, X2, X3, X4, Y1, Y2, Y3, Y4.
Qed.

(** *** What one scan does *)

Lemma scanPoints_prefix w h A rest :
  Forall (fun p => needsNudge w h p = true) A ->
  scanPoints w h (A ++ rest)
  = do r <- scanPoints w h rest; Ok (map (clamp w h) A ++ r).
Proof.
  induction 1 as [|p A Hp _ IH]; simpl.
  - now destruct (scanPoints w h rest).
  - unfold needsNudge in Hp. apply andb_true_iff in Hp as [Hf Ho].
    apply negb_true_iff in Hf. rewrite Hf, Ho, IH.
    now destruct (scanPoints w h rest).
Qed.

Lemma scanPoints_inside w h q rest :
  inside w h q = true -> scanPoints w h (q :: rest) = Ok (q :: rest).
Proof.
  unfold inside. intros H. apply andb_true_iff in H as [Hf Ho].
  apply negb_true_iff in Hf. apply negb_true_iff in Ho. simpl. now rewrite Hf, Ho.
Qed.

Lemma scanPoints_farOut w h q rest :
  farOut w h q = true -> scanPoints w h (q :: rest) = Throw NotFoundException.
Proof. intros H. simpl. now rewrite H. Qed.

Lemma scanPoints_clamped w h A :
  1 <= w <= 2 ^ 24 + 1 -> 1 <= h <= 2 ^ 24 + 1 ->
  Forall (fun p => needsNudge w h p = true) A ->
  scanPoints w h (rev (map (clamp w h) A)) = Ok (rev (map (clamp w h) A)).
Proof.
  intros Hw Hh HA. destruct A as [|p A _] using rev_ind; [reflexivity |].
  rewrite List.map_app. cbn [map]. rewrite rev_unit.
  apply scanPoints_inside, clamp_inside; try assumption.
  apply Forall_app in HA as [_ HA]. inversion HA as [|? ? Hp _]; subst.
  unfold needsNudge in Hp. apply andb_true_iff in Hp as [Hf _].
  now apply negb_true_iff in Hf.
Qed.

Lemma Forall_needsNudge_rev w h B :
  Forall (fun p => needsNudge w h p = true) B ->
  Forall (fun p => needsNudge w h p = true) (rev B).
Proof. intros H. now apply Forall_rev. Qed.

Lemma rev_middle {A} (L : list A) q C : rev (L ++ q :: C) = rev C ++ q :: rev L.
Proof. rewrite rev_app_distr. cbn [rev]. now rewrite <- app_assoc. Qed.

Lemma scanPoints_forward_stop w h A q rest :
  Forall (fun p => needsNudge w h p = true) A -> inside w h q = true ->
  scanPoints w h (A ++ q :: rest) = Ok (map (clamp w h) A ++ q :: rest).
Proof.
  intros HA Hq. rewrite scanPoints_prefix by assumption.
  now rewrite scanPoints_inside.
Qed.

Lemma scanPoints_backward_stop w h L q B :
  Forall (fun p => needsNudge w h p = true) B -> inside w h q = true ->
  scanPoints w h (rev (L ++ q :: B)) = Ok (rev (L ++ q :: map (clamp w h) B)).
Proof.
  intros HB Hq. rewrite !rev_middle.
  rewrite scanPoints_prefix by now apply Forall_needsNudge_rev.
  rewrite scanPoints_inside by assumption. cbn [bind].
  now rewrite List.map_rev.
Qed.

Lemma scanPoints_backward_fail w h L q B :
  Forall (fun p => needsNudge w h p = true) B -> farOut w h q = true ->
  scanPoints w h (rev (L ++ q :: B)) = Throw NotFoundException.
Proof.
  intros HB Hq. rewrite rev_middle.
  rewrite scanPoints_prefix by now apply Forall_needsNudge_rev.
  now rewrite scanPoints_farOut.
Qed.

(** What the call does to a batch, by the runs of points at its two ends. *)
Lemma checkAndNudgePoints_runs image A B :
  let w := BitMatrix.width image in
  let h := BitMatrix.height image in
  1 <= w <= 2 ^ 24 + 1 -> 1 <= h <= 2 ^ 24 + 1 ->
  Forall (fun p => needsNudge w h p = true) A ->
  Forall (fun p => needsNudge w h p = true) B ->
  checkAndNudgePoints image (flatten A) = Ok (flatten (map (clamp w h) A)) /\
  (forall q, inside w h q = true ->
     checkAndNudgePoints image (flatten (A ++ q :: B))
     = Ok (flatten (map (clamp w h) A ++ q :: map (clamp w h) B))) /\
  (forall q mid q', inside w h q = true -> inside w h q' = true ->
     checkAndNudgePoints image (flatten (A ++ q :: mid ++ q' :: B))
     = Ok (flatten (map (clamp w h) A ++ q :: mid ++ q' :: map (clamp w h) B))) /\
  (forall q rest, farOut w h q = true ->
     checkAndNudgePoints image (flatten (A ++ q :: rest)) = Throw NotFoundException) /\
  (forall q mid q', inside w h q = true -> farOut w h q' = true ->
     checkAndNudgePoints image (flatten (A ++ q :: mid ++ q' :: B))
     = Throw NotFoundException).
Proof.
  intros w h Hw Hh HA HB. repeat split.
  - rewrite checkAndNudgePoints_scans. fold w h.
    rewrite <- (app_nil_r A) at 1. rewrite scanPoints_prefix by assumption.
    cbn [scanPoints bind]. rewrite app_nil_r.
    rewrite scanPoints_clamped by assumption. cbn [bind].
    now rewrite rev_involutive.
  - intros q Hq. rewrite checkAndNudgePoints_scans. fold w h.
    rewrite scanPoints_forward_stop by assumption. cbn [bind].
    rewrite scanPoints_backward_stop by assumption. cbn [bind].
    now rewrite rev_involutive.
  - intros q mid q' Hq Hq'. rewrite checkAndNudgePoints_scans. fold w h.
    rewrite scanPoints_forward_stop by assumption. cbn [bind].
    change (map (clamp w h) A ++ q :: mid ++ q' :: B)
      with (map (clamp w h) A ++ (q :: mid) ++ q' :: B).
    rewrite app_assoc.
    rewrite scanPoints_backward_stop by assumption. cbn [bind].
    rewrite rev_involutive, <- app_assoc. reflexivity.
  - intros q rest Hq. rewrite checkAndNudgePoints_scans. fold w h.
    rewrite scanPoints_prefix by assumption.
    now rewrite scanPoints_farOut.
  - intros q mid q' Hq Hq'. rewrite checkAndNudgePoints_scans. fold w h.
    rewrite scanPoints_forward_stop by assumption. cbn [bind].
    change (map (clamp w h) A ++ q :: mid ++ q' :: B)
      with (map (clamp w h) A ++ (q :: mid) ++ q' :: B).
    rewrite app_assoc.
    now rewrite scanPoints_backward_fail.
Qed.

(** A nudge stores [0] or the last index, and the array holds the last index
    exactly for a size of up to [2^24 + 1]. *)
Lemma clamp_edges w h p :
  1 <= w <= 2 ^ 24 + 1 -> 1 <= h <= 2 ^ 24 + 1 ->
  (fst (clamp w h p) = fst p \/ fst (clamp w h p) = Fin 0 \/
   fst (clamp w h p) = ofZ (w - 1)) /\
  (snd (clamp w h p) = snd p \/ snd (clamp w h p) = Fin 0 \/
   snd (clamp w h p) = ofZ (h - 1)).
Proof.
  intros Hw Hh. unfold clamp, clampTo. cbn [fst snd].
  rewrite !fround_ofZ by lia.
  split.
  - destruct (eqb (floor (fst p)) (ofZ (-1))); [auto |].
    destruct (eqb (floor (fst p)) (ofZ w)); auto.
  - destruct (eqb (floor (snd p)) (ofZ (-1))); [auto |].
    destruct (eqb (floor (snd p)) (ofZ h)); auto.
Qed.

(** On a 10x10 image a first point at [(-0.9, -0.9)] is nudged to [(0, 0)]
    and a first point at [(-1.1, -1.1)] makes the call fail; sampling
    through a transform that sends the first sample point to the one or to
    the other succeeds or fails accordingly. *)
Lemma checkAndNudgePoints_first_point_examples :
  checkAndNudgePoints image10 [single (-9 # 10); single (-9 # 10); Fin (9 # 2); Fin (9 # 2)]
  = Ok [Fin 0; Fin 0; Fin (9 # 2); Fin (9 # 2)] /\
  checkAndNudgePoints image10 [single (-11 # 10); single (-11 # 10); Fin (9 # 2); Fin (9 # 2)]
  = Throw NotFoundException /\
  DefaultGridSampler.sampleGridWithTransform image10 2 2 (translation (-14 # 10) (-14 # 10))
  = Ok {| BitMatrix.width := 2; BitMatrix.height := 2; BitMatrix.rowSize := 1;
          BitMatrix.bits := [0; 0] |} /\
  DefaultGridSampler.sampleGridWithTransform image10 2 2 (translation (-16 # 10) (-16 # 10))
  = Throw NotFoundException.
Proof. repeat split; vm_compute; reflexivity. Qed.

(** C3 (as the code has it). Let the image be at most [2^24 + 1] wide and
    high, and let [A] and [B] be runs of points that lie one unit outside of
    it and none further.  The scan from the start nudges the points of [A]
    and stops at the first point [q] after them; the scan from the end
    nudges the points of [B] and stops at the first point [q'] before them.
    When both stops need no nudge the call succeeds, with [A] and [B]
    clamped onto the edge (a coordinate becomes [0] or the last index) and
    every point between the two stops left as it was; when a stop is more
    than one unit outside the call throws [NotFoundException].  In
    particular, on a 10x10 image a first sample point at [(-0.9, -0.9)] is
    nudged to [(0, 0)] and sampling succeeds, and a first sample point at
    [(-1.1, -1.1)] fails with [NotFoundException]. *)
Theorem checkAndNudgePoints_scanned_points :
  (forall image A B,
     let w := BitMatrix.width image in
     let h := BitMatrix.height image in
     1 <= w <= 2 ^ 24 + 1 -> 1 <= h <= 2 ^ 24 + 1 ->
     Forall (fun p => needsNudge w h p = true) A ->
     Forall (fun p => needsNudge w h p = true) B ->
     (forall p,
        (fst (clamp w h p) = fst p \/ fst (clamp w h p) = Fin 0 \/
         fst (clamp w h p) = ofZ (w - 1)) /\
        (snd (clamp w h p) = snd p \/ snd (clamp w h p) = Fin 0 \/
         snd (clamp w h p) = ofZ (h - 1))) /\
     checkAndNudgePoints image (flatten A) = Ok (flatten (map (clamp w h) A)) /\
     (forall q, inside w h q = true ->
        checkAndNudgePoints image (flatten (A ++ q :: B))
        = Ok (flatten (map (clamp w h) A ++ q :: map (clamp w h) B))) /\
     (forall q mid q', inside w h q = true -> inside w h q' = true ->
        checkAndNudgePoints image (flatten (A ++ q :: mid ++ q' :: B))
        = Ok (flatten (map (clamp w h) A ++ q :: mid ++ q' :: map (clamp w h) B))) /\
     (forall q rest, farOut w h q = true ->
        checkAndNudgePoints image (flatten (A ++ q :: rest)) = Throw NotFoundException) /\
     (forall q mid q', inside w h q = true -> farOut w h q' = true ->
        checkAndNudgePoints image (flatten (A ++ q :: mid ++ q' :: B))
        = Throw NotFoundException)) /\
  (checkAndNudgePoints image10 [single (-9 # 10); single (-9 # 10); Fin (9 # 2); Fin (9 # 2)]
   = Ok [Fin 0; Fin 0; Fin (9 # 2); Fin (9 # 2)] /\
   checkAndNudgePoints image10 [single (-11 # 10); single (-11 # 10); Fin (9 # 2); Fin (9 # 2)]
   = Throw NotFoundException /\
   DefaultGridSampler.sampleGridWithTransform image10 2 2 (translation (-14 # 10) (-14 # 10))
   = Ok {| BitMatrix.width := 2; BitMatrix.height := 2; BitMatrix.rowSize := 1;
           BitMatrix.bits := [0; 0] |} /\
   DefaultGridSampler.sampleGridWithTransform image10 2 2 (translation (-16 # 10) (-16 # 10))
   = Throw NotFoundException).
Proof.
  split.
  - intros image A B w h Hw Hh HA HB. split.
    + intros p. now apply clamp_edges.
    + now apply checkAndNudgePoints_runs.
  - exact checkAndNudgePoints_first_point_examples.
Qed.

(** On a 10x10 image the run [(-0.9, -0.9)] at the start of a batch is
    clamped (to [(0, 0)], see the theorem) and the scan stops at [(4.5, 4.5)]. *)
Lemma checkAndNudgePoints_scanned_points_witness :
  checkAndNudgePoints image10
    (flatten ([(single (-9 # 10), single (-9 # 10))] ++ (Fin (9 # 2), Fin (9 # 2)) :: []))
  = Ok (flatten (map (clamp (BitMatrix.width image10) (BitMatrix.height image10))
                     [(single (-9 # 10), single (-9 # 10))]
                 ++ (Fin (9 # 2), Fin (9 # 2))
                 :: map (clamp (BitMatrix.width image10) (BitMatrix.height image10)) [])).
Proof.
  refine (proj1 (proj2 (proj2 (proj1 checkAndNudgePoints_scanned_points image10
                                 [(single (-9 # 10), single (-9 # 10))] [] _ _ _ _)))
                (Fin (9 # 2), Fin (9 # 2)) _).
  - cbn [BitMatrix.width image10]. lia.
  - cbn [BitMatrix.height image10]. lia.
  - repeat constructor.
  - constructor.
  - vm_compute. reflexivity.
Defined.

(** A point one unit outside that neither scan reaches is left where it is;
    and sampling with the image corner [(-1.1, -1.1)] does not fail: the
    first sample point is a module centre, [(-0.6, -0.6)] here, one unit
    outside, and is nudged. *)
Lemma checkAndNudgePoints_interior_not_clamped :
  (oneOut 10 10 (Fin (-1 # 2), Fin (9 # 2)) = true /\
   clamp 10 10 (Fin (-1 # 2), Fin (9 # 2)) = (Fin 0, Fin (9 # 2)) /\
   checkAndNudgePoints image10
     (flatten [(Fin (9 # 2), Fin (9 # 2)); (Fin (-1 # 2), Fin (9 # 2)); (Fin (9 # 2), Fin (9 # 2))])
   = Ok (flatten [(Fin (9 # 2), Fin (9 # 2)); (Fin (-1 # 2), Fin (9 # 2)); (Fin (9 # 2), Fin (9 # 2))])) /\
  DefaultGridSampler.sampleGrid image10 2 2
    (ofZ 0) (ofZ 0) (ofZ 2) (ofZ 0) (ofZ 2) (ofZ 2) (ofZ 0) (ofZ 2)
    (round64 (-11 # 10)) (round64 (-11 # 10)) (round64 (9 # 10)) (round64 (-11 # 10))
    (round64 (9 # 10)) (round64 (9 # 10)) (round64 (-11 # 10)) (round64 (9 # 10))
  = Ok {| BitMatrix.width := 2; BitMatrix.height := 2; BitMatrix.rowSize := 1;
          BitMatrix.bits := [0; 0] |}.
Proof. repeat split; vm_compute; reflexivity. Qed.

End Nudge.

(** ** 32-bit words *)

Section Words.
Import BitMatrix.

Lemma toInt32_int32 z : int32 (toInt32 z).
Proof.
  unfold int32, toInt32.
  pose proof (Z.mod_pos_bound (z + 2 ^ 31) (2 ^ 32) ltac:(lia)). lia.
Qed.

Lemma toInt32_small z : int32 z -> toInt32 z = z.
Proof.
  unfold int32, toInt32. intros H.
  rewrite Z.mod_small; lia.
Qed.

Lemma toInt32_mod z : toInt32 z mod 2 ^ 32 = z mod 2 ^ 32.
Proof.
  unfold toInt32.
  rewrite Zminus_mod, Z.mod_mod by lia.
  rewrite <- Zminus_mod. f_equal. lia.
Qed.

Lemma testbit_mod32 z k : 0 <= k < 32 -> Z.testbit (z mod 2 ^ 32) k = Z.testbit z k.
Proof. intros H. apply Z.mod_pow2_bits_low. lia. Qed.

Lemma testbit_toInt32 z k : 0 <= k < 32 -> Z.testbit (toInt32 z) k = Z.testbit z k.
Proof.
  intros H. rewrite <- (testbit_mod32 (toInt32 z)), toInt32_mod by assumption.
  now apply testbit_mod32.
Qed.

(** Two 32-bit words with the same 32 bits are equal. *)
Lemma int32_ext a b :
  int32 a -> int32 b ->
  (forall k, 0 <= k < 32 -> Z.testbit a k = Z.testbit b k) -> a = b.
Proof.
  intros Ha Hb H.
  assert (a mod 2 ^ 32 = b mod 2 ^ 32) as Hm.
  { apply Z.bits_inj'. intros k Hk. destruct (Z.lt_ge_cases k 32).
    - rewrite !testbit_mod32 by lia. apply H. lia.
    - rewrite !Z.mod_pow2_bits_high by lia. reflexivity. }
  unfold int32 in *.
  pose proof (Z.div_mod a (2 ^ 32) ltac:(lia)).
  pose proof (Z.div_mod b (2 ^ 32) ltac:(lia)).
  pose proof (Z.mod_pos_bound a (2 ^ 32) ltac:(lia)).
  assert (a / 2 ^ 32 = b / 2 ^ 32) by
    (assert (- 1 <= a / 2 ^ 32 <= 0 /\ - 1 <= b / 2 ^ 32 <= 0) by lia; lia).
  lia.
Qed.

Lemma js_and_31 x : js_and x 31 = x mod 32.
Proof.
  unfold js_and. change (toInt32 31) with (Z.ones 5).
  rewrite Z.land_ones by lia. change (2 ^ 5) with 32.
  assert (toInt32 x mod 32 = x mod 32) as ->.
  { unfold toInt32. change (2 ^ 31) with 2147483648. change (2 ^ 32) with 4294967296.
    Z.div_mod_to_equations. lia. }
  apply toInt32_small. unfold int32.
  pose proof (Z.mod_pos_bound x 32 ltac:(lia)). lia.
Qed.

Lemma land_31_small k : 0 <= k < 32 -> Z.land k 31 = k.
Proof.
  intros H. change 31 with (Z.ones 5). rewrite Z.land_ones by lia.
  apply Z.mod_small. change (2 ^ 5) with 32. lia.
Qed.

(** [(w >>> k) & 1] is bit [k] of [w]. *)
Lemma js_bit w k :
  0 <= k < 32 -> js_and (js_shr w k) 1 = Z.b2z (Z.testbit w k).
Proof.
  intros H. unfold js_and, js_shr. rewrite land_31_small by assumption.
  change (toInt32 1) with (Z.ones 1). rewrite Z.land_ones by lia.
  change (2 ^ 1) with 2. rewrite <- Z.bit0_mod.
  rewrite testbit_toInt32 by lia.
  rewrite Z.shiftr_spec by lia. rewrite Z.add_0_l.
  unfold toUint32. rewrite testbit_mod32 by assumption.
  apply toInt32_small. unfold int32. destruct (Z.testbit w k); simpl; lia.
Qed.

Lemma get_testbit m x y :
  get m x y = Z.testbit (orUndefined (typedGet (bits m) (y * rowSize m + x / 32))) (x mod 32).
Proof.
  unfold get. rewrite js_and_31.
  rewrite js_bit by (apply Z.mod_pos_bound; lia).
  now destruct (Z.testbit _ _).
Qed.

End Words.

(** ** BitMatrix: bounding box and corner queries *)

Section BoundingBox.
Import BitMatrix.

Lemma rowSize_bounds m :
  wellFormed m -> 1 <= rowSize m /\ width m <= 32 * rowSize m < width m + 32.
Proof.
  intros [Hw _ Hrs _ _]. rewrite Hrs. Z.div_mod_to_equations. lia.
Qed.

(** The word [c] of row [y] holds the bits [32c .. 32c+31] of that row. *)
Lemma word_lookup m y c :
  wellFormed m -> 0 <= y < height m -> 0 <= c < rowSize m ->
  exists w, typedGet (bits m) (y * rowSize m + c) = Some w /\ int32 w /\
            forall k, 0 <= k < 32 -> Z.testbit w k = get m (32 * c + k) y.
Proof.
  intros Hwf Hy Hc. pose proof (wf_length m Hwf) as Hlen.
  assert (0 <= y * rowSize m + c < rowSize m * height m) as Hidx by nia.
  destruct (lookup_lt_is_Some_2 (bits m) (Z.to_nat (y * rowSize m + c)) ltac:(lia))
    as [w Hw].
  exists w. unfold typedGet.
  destruct (Z.ltb_spec (y * rowSize m + c) 0); [lia |].
  split; [assumption |]. split.
  - eapply Forall_lookup_1; [apply (wf_words m Hwf) | eassumption].
  - intros k Hk. rewrite get_testbit.
    assert ((32 * c + k) / 32 = c) as -> by (Z.div_mod_to_equations; lia).
    assert ((32 * c + k) mod 32 = k) as -> by (Z.div_mod_to_equations; lia).
    unfold typedGet. destruct (Z.ltb_spec (y * rowSize m + c) 0); [lia |].
    now rewrite Hw.
Qed.

Lemma word_zero m y c :
  wellFormed m -> 0 <= y < height m -> 0 <= c < rowSize m ->
  (forall k, 0 <= k < 32 -> get m (32 * c + k) y = false) ->
  typedGet (bits m) (y * rowSize m + c) = Some 0.
Proof.
  intros Hwf Hy Hc H. destruct (word_lookup m y c Hwf Hy Hc) as (w & Hw & Hi & Hb).
  rewrite Hw. f_equal. apply int32_ext; [assumption | unfold int32; lia |].
  intros k Hk. rewrite Hb, H by assumption. now rewrite Z.bits_0.
Qed.

Lemma word_single m y c k0 :
  wellFormed m -> 0 <= y < height m -> 0 <= c < rowSize m -> 0 <= k0 < 32 ->
  (forall k, 0 <= k < 32 -> get m (32 * c + k) y = (k =? k0)) ->
  typedGet (bits m) (y * rowSize m + c) = Some (toInt32 (2 ^ k0)).
Proof.
  intros Hwf Hy Hc Hk0 H. destruct (word_lookup m y c Hwf Hy Hc) as (w & Hw & Hi & Hb).
  rewrite Hw. f_equal. apply int32_ext; [assumption | apply toInt32_int32 |].
  intros k Hk. rewrite Hb, H, testbit_toInt32 by assumption.
  rewrite Z.pow2_bits_eqb by lia. apply Z.eqb_sym.
Qed.

Lemma bit_loops k :
  0 <= k < 32 ->
  lowestBit (toInt32 (2 ^ k)) = Some k /\ highestBit (toInt32 (2 ^ k)) = Some k /\
  toInt32 (2 ^ k) <> 0.
Proof.
  intros H. rewrite <- (Z2Nat.id k) by lia.
  assert (Z.to_nat k < 32)%nat as Hn by lia. revert Hn. generalize (Z.to_nat k) as n.
  intros n Hn.
  do 32 (destruct n as [|n]; [vm_compute; repeat split; congruence |]). lia.
Qed.

(** *** Loops *)

Lemma elem_of_upto n i : In i (upto n) <-> 0 <= i < n.
Proof.
  unfold upto. rewrite in_map_iff. split.
  - intros (k & <- & Hk). apply in_seq in Hk. lia.
  - intros H. exists (Z.to_nat i). split; [lia |]. apply in_seq. lia.
Qed.

Lemma upto_split n c :
  0 <= c < n ->
  upto n = upto c ++ c :: map Z.of_nat (seq (S (Z.to_nat c)) (Z.to_nat (n - c - 1))).
Proof.
  intros H. unfold upto.
  replace (Z.to_nat n) with (Z.to_nat c + S (Z.to_nat (n - c - 1)))%nat by lia.
  rewrite seq_app, List.map_app. cbn [seq map Nat.add]. now rewrite Z2Nat.id by lia.
Qed.

Lemma forEach_app {A} (body : A -> Z -> option A) r1 r2 a :
  forEach body (r1 ++ r2) a = (a' ← forEach body r1 a; forEach body r2 a').
Proof.
  revert a. induction r1 as [|i r1 IH]; intros a; cbn [forEach app].
  - reflexivity.
  - destruct (body a i) as [a'|]; cbn; [apply IH | reflexivity].
Qed.

Lemma forEach_unchanged {A} (body : A -> Z -> option A) range a :
  (forall i, In i range -> body a i = Some a) -> forEach body range a = Some a.
Proof.
  induction range as [|i range IH]; intros H; cbn [forEach]; [reflexivity |].
  rewrite H by (now left). cbn. apply IH. intros j Hj. apply H. now right.
Qed.

(** A loop in which a single turn changes the state. *)
Lemma forEach_single {A} (body : A -> Z -> option A) n c a b :
  0 <= c < n ->
  (forall i, 0 <= i < n -> i <> c -> body a i = Some a /\ body b i = Some b) ->
  body a c = Some b ->
  forEach body (upto n) a = Some b.
Proof.
  intros Hc Hother Hat. rewrite (upto_split n c Hc), forEach_app.
  rewrite forEach_unchanged.
  - cbn [mbind option_bind forEach]. rewrite Hat. cbn.
    apply forEach_unchanged. intros i Hi. apply Hother.
    + apply in_map_iff in Hi as (k & <- & Hk). apply in_seq in Hk. lia.
    + apply in_map_iff in Hi as (k & <- & Hk). apply in_seq in Hk. lia.
  - intros i Hi. apply elem_of_upto in Hi. apply Hother; lia.
Qed.

Lemma skipZerosUp_stop zs w rest off :
  Forall (eq 0) zs -> w <> 0 ->
  skipZerosUp (zs ++ w :: rest) off = off + Z.of_nat (length zs).
Proof.
  intros Hz Hw. revert off. induction Hz as [|z zs <- _ IH]; intros off; cbn.
  - apply Z.eqb_neq in Hw. rewrite Hw. lia.
  - rewrite IH. lia.
Qed.

Lemma skipZerosUp_all zs off :
  Forall (eq 0) zs -> skipZerosUp zs off = off + Z.of_nat (length zs).
Proof.
  intros Hz. revert off. induction Hz as [|z zs <- _ IH]; intros off; cbn.
  - lia.
  - rewrite IH. lia.
Qed.

Lemma skipZerosDown_stop zs w rest off :
  Forall (eq 0) zs -> w <> 0 ->
  skipZerosDown (zs ++ w :: rest) off = off - Z.of_nat (length zs).
Proof.
  intros Hz Hw. revert off. induction Hz as [|z zs <- _ IH]; intros off; cbn.
  - apply Z.eqb_neq in Hw. rewrite Hw. lia.
  - rewrite IH. lia.
Qed.

Lemma skipZerosDown_all zs off :
  Forall (eq 0) zs -> skipZerosDown zs off = off - Z.of_nat (length zs).
Proof.
  intros Hz. revert off. induction Hz as [|z zs <- _ IH]; intros off; cbn.
  - lia.
  - rewrite IH. lia.
Qed.

(** *** The words of a matrix with no bit, or with one bit, set *)

Lemma words_by_index m (f : Z -> Z -> Z) :
  1 <= rowSize m -> Z.of_nat (length (bits m)) = rowSize m * height m ->
  (forall y c, 0 <= y < height m -> 0 <= c < rowSize m ->
               typedGet (bits m) (y * rowSize m + c) = Some (f y c)) ->
  forall i w, bits m !! i = Some w ->
              w = f (Z.of_nat i / rowSize m) (Z.of_nat i mod rowSize m).
Proof.
  intros Hrs Hlen H i w Hi.
  pose proof (lookup_lt_Some _ _ _ Hi) as Hlt.
  pose proof (Z.div_mod (Z.of_nat i) (rowSize m) ltac:(lia)) as Hdm.
  pose proof (Z.mod_pos_bound (Z.of_nat i) (rowSize m) ltac:(lia)) as Hmb.
  assert (0 <= Z.of_nat i / rowSize m < height m) as Hy.
  { split; [apply Z.div_pos; lia |]. apply Z.div_lt_upper_bound; lia. }
  specialize (H _ _ Hy Hmb). unfold typedGet in H.
  replace (Z.of_nat i / rowSize m * rowSize m + Z.of_nat i mod rowSize m)
    with (Z.of_nat i) in H by lia.
  destruct (Z.ltb_spec (Z.of_nat i) 0); [lia |].
  rewrite Nat2Z.id in H. congruence.
Qed.

Lemma noBitSet_words m :
  wellFormed m -> noBitSet m ->
  (forall y c, 0 <= y < height m -> 0 <= c < rowSize m ->
               typedGet (bits m) (y * rowSize m + c) = Some 0) /\
  Forall (eq 0) (bits m).
Proof.
  intros Hwf Hno.
  assert (forall y c, 0 <= y < height m -> 0 <= c < rowSize m ->
                      typedGet (bits m) (y * rowSize m + c) = Some 0) as Hw.
  { intros y c Hy Hc. apply word_zero; try assumption.
    intros k Hk. apply Hno; lia. }
  split; [exact Hw |]. apply Forall_lookup_2. intros i w Hi.
  now rewrite (words_by_index m (fun _ _ => 0)
                (proj1 (rowSize_bounds m Hwf)) (wf_length m Hwf) Hw i w Hi).
Qed.

Lemma onlyBitSet_words m x0 y0 :
  wellFormed m -> 0 <= x0 < width m -> 0 <= y0 < height m -> onlyBitSet m x0 y0 ->
  forall y c, 0 <= y < height m -> 0 <= c < rowSize m ->
              typedGet (bits m) (y * rowSize m + c) = Some (theWord x0 y0 y c).
Proof.
  intros Hwf Hx0 Hy0 Honly y c Hy Hc. unfold theWord.
  pose proof (Z.div_mod x0 32 ltac:(lia)) as Hdm.
  pose proof (Z.mod_pos_bound x0 32 ltac:(lia)) as Hmb.
  destruct (Z.eqb_spec y y0) as [->|Hne]; [destruct (Z.eqb_spec c (x0 / 32)) as [->|Hnc] |];
    cbn [andb].
  - apply word_single; try assumption.
    intros k Hk. rewrite Honly by lia. rewrite Z.eqb_refl, andb_true_r.
    destruct (Z.eqb_spec k (x0 mod 32)), (Z.eqb_spec (32 * (x0 / 32) + k) x0);
      try reflexivity; lia.
  - apply word_zero; try assumption.
    intros k Hk. rewrite Honly by lia.
    destruct (Z.eqb_spec (32 * c + k) x0); [| reflexivity]. lia.
  - apply word_zero; try assumption.
    intros k Hk. rewrite Honly by lia.
    destruct (Z.eqb_spec y y0); [contradiction |]. apply andb_false_r.
Qed.

Lemma onlyBitSet_split m x0 y0 :
  wellFormed m -> 0 <= x0 < width m -> 0 <= y0 < height m -> onlyBitSet m x0 y0 ->
  let idx := Z.to_nat (y0 * rowSize m + x0 / 32) in
  bits m = take idx (bits m) ++ toInt32 (2 ^ (x0 mod 32)) :: drop (S idx) (bits m) /\
  Forall (eq 0) (take idx (bits m)) /\ Forall (eq 0) (drop (S idx) (bits m)) /\
  (idx < length (bits m))%nat.
Proof.
  intros Hwf Hx0 Hy0 Honly idx.
  pose proof (rowSize_bounds m Hwf) as [Hrs Hrw].
  pose proof (wf_length m Hwf) as Hlen.
  pose proof (onlyBitSet_words m x0 y0 Hwf Hx0 Hy0 Honly) as Hw.
  pose proof (words_by_index m _ Hrs Hlen Hw) as Hi.
  pose proof (Z.div_mod x0 32 ltac:(lia)) as Hdm.
  pose proof (Z.mod_pos_bound x0 32 ltac:(lia)) as Hmb.
  assert (0 <= x0 / 32 < rowSize m) as Hc0 by lia.
  assert (0 <= y0 * rowSize m + x0 / 32 < rowSize m * height m) as Hidx by nia.
  assert (forall i w, bits m !! i = Some w -> i <> idx -> w = 0) as Hzero.
  { intros i w Hiw Hne. rewrite (Hi i w Hiw). unfold theWord.
    pose proof (Z.div_mod (Z.of_nat i) (rowSize m) ltac:(lia)).
    pose proof (Z.mod_pos_bound (Z.of_nat i) (rowSize m) ltac:(lia)).
    destruct (Z.eqb_spec (Z.of_nat i / rowSize m) y0);
      destruct (Z.eqb_spec (Z.of_nat i mod rowSize m) (x0 / 32));
      cbn [andb]; try reflexivity.
    exfalso. apply Hne. subst idx. nia. }
  assert (bits m !! idx = Some (toInt32 (2 ^ (x0 mod 32)))) as Hat.
  { specialize (Hw y0 (x0 / 32) Hy0 Hc0). unfold typedGet, theWord in Hw.
    destruct (Z.ltb_spec (y0 * rowSize m + x0 / 32) 0); [lia |].
    now rewrite !Z.eqb_refl in Hw. }
  repeat split.
  - symmetry. now apply take_drop_middle.
  - apply Forall_lookup_2. intros i w Hiw. apply lookup_take_Some in Hiw as [Hiw Hlt].
    symmetry. apply (Hzero i w Hiw). lia.
  - apply Forall_lookup_2. intros i w Hiw. rewrite lookup_drop in Hiw.
    symmetry. apply (Hzero _ w Hiw). lia.
  - eapply lookup_lt_Some. eassumption.
Qed.

(** *** The three queries *)

Lemma encloseWord_zero m y st c :
  typedGet (bits m) (y * rowSize m + c) = Some 0 -> encloseWord m y st c = Some st.
Proof.
  intros H. unfold encloseWord. destruct st as [[[l t0] r] b]. now rewrite H.
Qed.

Lemma encloseWord_hit m y0 c0 k0 :
  typedGet (bits m) (y0 * rowSize m + c0) = Some (toInt32 (2 ^ k0)) ->
  0 <= k0 < 32 -> 0 <= y0 < height m -> 0 <= c0 -> 32 * c0 + k0 < width m ->
  encloseWord m y0 (width m, height m, -1, -1) c0
  = Some (32 * c0 + k0, y0, 32 * c0 + k0, y0).
Proof.
  intros H Hk Hy Hc Hx. unfold encloseWord. rewrite H.
  destruct (bit_loops k0 Hk) as (Hlo & Hhi & Hnz).
  cbn [nonZeroWord orUndefined]. apply Z.eqb_neq in Hnz. rewrite Hnz. cbn [negb].
  rewrite Hlo, Hhi. cbn [mbind option_bind].
  destruct (Z.ltb_spec y0 (height m)); [| lia].
  destruct (Z.gtb_spec y0 (-1)); [| lia].
  destruct (Z.ltb_spec (c0 * 32) (width m)); [| lia].
  destruct (Z.ltb_spec (c0 * 32 + k0) (width m)); [| lia].
  destruct (Z.gtb_spec (c0 * 32 + 31) (-1)); [| lia].
  destruct (Z.gtb_spec (c0 * 32 + k0) (-1)); [| lia].
  cbn [mbind option_bind]. now rewrite (Z.mul_comm c0 32).
Qed.

Lemma quot_rem_index rs y0 c0 :
  0 <= y0 -> 0 <= c0 < rs ->
  Z.quot (y0 * rs + c0) rs = y0 /\ (y0 * rs + c0) / rs = y0 /\
  Z.rem (y0 * rs + c0) rs = c0.
Proof.
  intros Hy Hc.
  assert ((y0 * rs + c0) / rs = y0) as Hd
    by (symmetry; apply (Z.div_unique _ _ y0 c0); lia).
  assert ((y0 * rs + c0) mod rs = c0) as Hm
    by (symmetry; apply (Z.mod_unique _ _ y0 c0); lia).
  rewrite Z.quot_div_nonneg, Z.rem_mod_nonneg by nia. auto.
Qed.

(** C6 (as the code has it). For a well-formed matrix with no bit set in its
    packed rows, the unused bits of the last word of a row included, the
    three queries return [null]; for one whose only set bit of the packed
    rows is at [(x0, y0)] the enclosing rectangle is [(x0, y0, 1, 1)] and
    both corner queries return [(x0, y0)]. *)
Theorem bounding_box_queries m :
  wellFormed m ->
  (noBitSet m ->
     getEnclosingRectangle m = Some None /\
     getTopLeftOnBit m = Some None /\
     getBottomRightOnBit m = Some None) /\
  (forall x0 y0,
     0 <= x0 < width m -> 0 <= y0 < height m -> onlyBitSet m x0 y0 ->
     getEnclosingRectangle m = Some (Some [x0; y0; 1; 1]) /\
     getTopLeftOnBit m = Some (Some [x0; y0]) /\
     getBottomRightOnBit m = Some (Some [x0; y0])).
Proof.
  intros Hwf. pose proof (rowSize_bounds m Hwf) as [Hrs Hrw].
  pose proof (wf_length m Hwf) as Hlen.
  pose proof (wf_width m Hwf) as Hw. pose proof (wf_height m Hwf) as Hh.
  split.
  - intros Hno. destruct (noBitSet_words m Hwf Hno) as [Hwords Hall].
    repeat split.
    + unfold getEnclosingRectangle. rewrite forEach_unchanged.
      * cbn [mbind option_bind]. destruct (Z.ltb_spec (-1) (width m)); [reflexivity | lia].
      * intros y Hy. apply elem_of_upto in Hy. apply forEach_unchanged.
        intros c Hc. apply elem_of_upto in Hc. now apply encloseWord_zero, Hwords.
    + unfold getTopLeftOnBit. rewrite skipZerosUp_all by assumption.
      now rewrite Z.add_0_l, Z.eqb_refl.
    + unfold getBottomRightOnBit.
      rewrite skipZerosDown_all by (now apply Forall_rev).
      rewrite length_rev.
      destruct (Z.ltb_spec (Z.of_nat (length (bits m)) - 1 - Z.of_nat (length (bits m))) 0);
        [reflexivity | lia].
  - intros x0 y0 Hx0 Hy0 Honly.
    pose proof (onlyBitSet_words m x0 y0 Hwf Hx0 Hy0 Honly) as Hwords.
    destruct (onlyBitSet_split m x0 y0 Hwf Hx0 Hy0 Honly) as (Hsplit & Hpre & Hpost & Hidx).
    pose proof (Z.div_mod x0 32 ltac:(lia)) as Hdm.
    pose proof (Z.mod_pos_bound x0 32 ltac:(lia)) as Hmb.
    assert (0 <= x0 / 32 < rowSize m) as Hc0 by lia.
    destruct (bit_loops (x0 mod 32) Hmb) as (Hlo & Hhi & Hnz).
    destruct (quot_rem_index (rowSize m) y0 (x0 / 32) ltac:(lia) Hc0) as (Hq & Hd & Hr).
    assert (int32 x0 /\ int32 y0) as [Hix Hiy] by (unfold int32; lia).
    set (idx := Z.to_nat (y0 * rowSize m + x0 / 32)) in *.
    assert (Z.of_nat idx = y0 * rowSize m + x0 / 32) as Hidx_eq by (subst idx; nia).
    assert (typedGet (bits m) (y0 * rowSize m + x0 / 32)
            = Some (toInt32 (2 ^ (x0 mod 32)))) as Hat.
    { rewrite (Hwords y0 (x0 / 32) Hy0 Hc0). unfold theWord. now rewrite !Z.eqb_refl. }
    assert ((rowSize m =? 0) = false) as Hrs0 by (apply Z.eqb_neq; lia).
    repeat split.
    + unfold getEnclosingRectangle.
      rewrite (forEach_single _ (height m) y0 (width m, height m, -1, -1)
                 (x0, y0, x0, y0)); try assumption.
      * cbn [mbind option_bind].
        destruct (Z.ltb_spec x0 x0); [lia |]. destruct (Z.ltb_spec y0 y0); [lia |].
        cbn [orb int32ArrayFrom map]. rewrite !Z.sub_diag, Z.add_0_l.
        now rewrite !toInt32_small by (unfold int32; lia).
      * intros y Hy Hne. split; apply forEach_unchanged; intros c Hc;
          apply elem_of_upto in Hc; apply encloseWord_zero;
          rewrite (Hwords y c Hy Hc); unfold theWord;
          destruct (Z.eqb_spec y y0); try contradiction; reflexivity.
      * apply (forEach_single _ (rowSize m) (x0 / 32)); try assumption.
        -- intros c Hc Hne. split; apply encloseWord_zero;
             rewrite (Hwords y0 c Hy0 Hc); unfold theWord;
             destruct (Z.eqb_spec c (x0 / 32)); try contradiction;
             now rewrite andb_false_r.
        -- rewrite (encloseWord_hit m y0 (x0 / 32) (x0 mod 32)); try assumption; try lia.
           now replace (32 * (x0 / 32) + x0 mod 32) with x0 by lia.
    + assert (skipZerosUp (bits m) 0 = y0 * rowSize m + x0 / 32) as Hskip.
      { rewrite Hsplit. rewrite skipZerosUp_stop by assumption.
        rewrite length_take, Nat.min_l by lia. lia. }
      unfold getTopLeftOnBit. rewrite Hskip.
      destruct (Z.eqb_spec (y0 * rowSize m + x0 / 32) (Z.of_nat (length (bits m))));
        [lia |].
      rewrite Hat. cbn [orUndefined]. rewrite Hlo. cbn [mbind option_bind].
      unfold storedQuotient, jsRem. rewrite Hrs0, Hq, Hr. cbn [fmap option_fmap option_map storedOrNaN].
      rewrite !toInt32_small by (unfold int32; lia).
      do 3 f_equal. lia.
    + assert (skipZerosDown (rev (bits m)) (Z.of_nat (length (bits m)) - 1)
              = y0 * rowSize m + x0 / 32) as Hskip.
      { rewrite Hsplit at 1. rewrite rev_middle.
        rewrite skipZerosDown_stop by (try apply Forall_rev; assumption).
        rewrite length_rev, length_drop. lia. }
      unfold getBottomRightOnBit. rewrite Hskip.
      destruct (Z.ltb_spec (y0 * rowSize m + x0 / 32) 0); [nia |].
      rewrite Hat. cbn [orUndefined]. rewrite Hhi. cbn [mbind option_bind].
      unfold storedFloorQuotient, jsRem. rewrite Hrs0, Hd, Hr. cbn [fmap option_fmap option_map storedOrNaN].
      rewrite !toInt32_small by (unfold int32; lia).
      do 3 f_equal. lia.
Qed.

Lemma forallb_upto (P : Z -> bool) n :
  forallb P (upto n) = true -> forall x, 0 <= x < n -> P x = true.
Proof.
  intros H x Hx. rewrite forallb_forall in H. apply H. now apply elem_of_upto.
Qed.

(** [onlyBitSet] checked by running [get] over the packed rows. *)
Lemma onlyBitSet_checked m x0 y0 :
  forallb (fun x => forallb (fun y => Bool.eqb (get m x y) ((x =? x0) && (y =? y0)))
                            (upto (height m)))
          (upto (32 * rowSize m)) = true ->
  onlyBitSet m x0 y0.
Proof.
  intros H x y Hx Hy. apply eqb_prop.
  exact (forallb_upto _ _ (forallb_upto _ _ H x Hx) y Hy).
Qed.

Lemma noBitSet_checked m :
  forallb (fun x => forallb (fun y => negb (get m x y)) (upto (height m)))
          (upto (32 * rowSize m)) = true ->
  noBitSet m.
Proof.
  intros H x y Hx Hy. apply negb_true_iff.
  exact (forallb_upto _ _ (forallb_upto _ _ H x Hx) y Hy).
Qed.

Lemma bounding_box_queries_witness :
  (getEnclosingRectangle image10 = Some None /\
   getTopLeftOnBit image10 = Some None /\
   getBottomRightOnBit image10 = Some None) /\
  (getEnclosingRectangle oneBit40x3 = Some (Some [37; 1; 1; 1]) /\
   getTopLeftOnBit oneBit40x3 = Some (Some [37; 1]) /\
   getBottomRightOnBit oneBit40x3 = Some (Some [37; 1])).
Proof.
  split.
  - apply (bounding_box_queries image10).
    + constructor; cbn [width height rowSize bits image10]; try lia; try reflexivity.
      repeat constructor; unfold int32; lia.
    + apply noBitSet_checked. vm_compute. reflexivity.
  - apply (bounding_box_queries oneBit40x3).
    + constructor; cbn [width height rowSize bits oneBit40x3]; try lia; try reflexivity.
      repeat constructor; unfold int32; lia.
    + cbn [width oneBit40x3]; lia.
    + cbn [height oneBit40x3]; lia.
    + apply onlyBitSet_checked. vm_compute. reflexivity.
Defined.

(** The three queries read whole words: a matrix with no set bit at any of
    its coordinates, but with an unused bit set, is not reported empty. *)
Lemma bounding_box_counts_unused_bits :
  wellFormed unusedBit4x2 /\
  (forall x y, 0 <= x < width unusedBit4x2 -> 0 <= y < height unusedBit4x2 ->
     get unusedBit4x2 x y = false) /\
  set {| width := 4; height := 2; rowSize := 1; bits := [0; 0] |} 31 1 = unusedBit4x2 /\
  getEnclosingRectangle unusedBit4x2 = Some (Some [4; 1; 28; 1]) /\
  getTopLeftOnBit unusedBit4x2 = Some (Some [31; 1]) /\
  getBottomRightOnBit unusedBit4x2 = Some (Some [31; 1]).
Proof.
  split; [| split; [| repeat split; vm_compute; reflexivity]].
  - constructor; cbn [width height rowSize bits unusedBit4x2]; try lia; try reflexivity.
    repeat constructor; unfold int32; lia.
  - intros x y Hx Hy. cbn [width height unusedBit4x2] in Hx, Hy.
    assert (x = 0 \/ x = 1 \/ x = 2 \/ x = 3) as [->|[->|[->| ->]]] by lia;
      assert (y = 0 \/ y = 1) as [->| ->] by lia; reflexivity.
Qed.

End BoundingBox.

(** ** BitMatrix: rotation by 180 degrees *)

Section Rotation.
Import BitMatrix.

Lemma upto_succ n : upto (Z.of_nat (S n)) = upto (Z.of_nat n) ++ [Z.of_nat n].
Proof.
  unfold upto. rewrite !Nat2Z.id. rewrite seq_S, List.map_app. reflexivity.
Qed.

Lemma length_upto n : length (upto n) = Z.to_nat n.
Proof. unfold upto. now rewrite length_map, length_seq. Qed.

Lemma typedGet_map_upto (g : Z -> Z) n c :
  0 <= c < n -> typedGet (map g (upto n)) c = Some (g c).
Proof.
  intros Hc. unfold typedGet, upto. destruct (Z.ltb_spec c 0); [lia |].
  rewrite !list_lookup_fmap. rewrite lookup_seq_lt by lia. simpl.
  now rewrite Z2Nat.id by lia.
Qed.

Lemma typedGet_typedSet (a : list Z) i v j :
  typedGet (typedSet a i v) j
  = if (j =? i) && (j <? Z.of_nat (length a)) && (0 <=? j) then Some v else typedGet a j.
Proof.
  unfold typedGet, typedSet.
  destruct (Z.ltb_spec i 0) as [Hi|Hi].
  - destruct (Z.eqb_spec j i) as [->|Hne]; cbn [andb]; [| reflexivity].
    destruct (Z.leb_spec 0 i); [lia |]. now rewrite andb_false_r.
  - destruct (Z.ltb_spec j 0) as [Hj|Hj].
    + destruct (Z.leb_spec 0 j); [lia |]. now rewrite andb_false_r.
    + destruct (Z.leb_spec 0 j); [| lia]. rewrite andb_true_r.
      destruct (Z.eqb_spec j i) as [->|Hne]; cbn [andb].
      * destruct (Z.ltb_spec i (Z.of_nat (length a))).
        -- apply list_lookup_insert_eq. lia.
        -- now rewrite list_insert_ge by lia.
      * apply list_lookup_insert_ne. lia.
Qed.

Lemma length_typedSet (a : list Z) i v : length (typedSet a i v) = length a.
Proof. unfold typedSet. destruct (i <? 0); [reflexivity | apply length_insert]. Qed.

(** A run of [n] stores from [base] on. *)
Lemma fold_typedSet (f : Z -> Z) base (n : nat) l0 :
  0 <= base ->
  let l := fold_left (fun l k => typedSet l (base + k) (f k)) (upto (Z.of_nat n)) l0 in
  length l = length l0 /\
  forall j, typedGet l j
            = if (base <=? j) && (j <? base + Z.of_nat n) && (j <? Z.of_nat (length l0))
              then Some (f (j - base)) else typedGet l0 j.
Proof.
  intros Hb. induction n as [|n [IHlen IH]].
  - split; [reflexivity |]. intros j. change (Z.of_nat 0) with 0.
    rewrite Z.add_0_r. cbn [upto Z.to_nat seq map fold_left].
    destruct (Z.leb_spec base j), (Z.ltb_spec j base); cbn [andb];
      try reflexivity; lia.
  - cbv zeta. rewrite upto_succ, fold_left_app. cbn [fold_left].
    split; [now rewrite length_typedSet |].
    intros j. rewrite typedGet_typedSet, IH, IHlen.
    destruct (Z.eqb_spec j (base + Z.of_nat n)), (Z.leb_spec base j),
      (Z.ltb_spec j (base + Z.of_nat n)), (Z.ltb_spec j (base + Z.of_nat (S n))),
      (Z.ltb_spec j (Z.of_nat (length l0))), (Z.leb_spec 0 j);
      cbn [andb]; try reflexivity; try lia.
    subst j. do 2 f_equal. lia.
Qed.

Lemma testbit_packBits n f from k :
  0 <= k ->
  Z.testbit (BitArray.packBits n f from) k
  = if k <? Z.of_nat n then f (from + k) else false.
Proof.
  revert from k. induction n as [|n IH]; intros from k Hk.
  - cbn [BitArray.packBits]. rewrite Z.bits_0.
    destruct (Z.ltb_spec k (Z.of_nat 0)); [lia | reflexivity].
  - cbn [BitArray.packBits]. destruct (Z.eq_dec k 0) as [->|Hne].
    + rewrite Z.testbit_0_r, Z.add_0_r. reflexivity.
    + replace k with (Z.succ (k - 1)) at 1 by lia.
      rewrite Z.testbit_succ_r by lia. rewrite IH by lia.
      destruct (Z.ltb_spec (k - 1) (Z.of_nat n)), (Z.ltb_spec k (Z.of_nat (S n)));
        try lia; try reflexivity. f_equal. lia.
Qed.

Lemma testbit_packWord f from k :
  0 <= k < 32 -> Z.testbit (BitArray.packWord f from) k = f (from + k).
Proof.
  intros H. unfold BitArray.packWord. rewrite testbit_toInt32 by assumption.
  rewrite testbit_packBits by lia. destruct (Z.ltb_spec k (Z.of_nat 32)); [reflexivity | lia].
Qed.

Lemma packWord_ext f g from :
  (forall k, 0 <= k < 32 -> f (from + k) = g (from + k)) ->
  BitArray.packWord f from = BitArray.packWord g from.
Proof.
  intros H. apply int32_ext; try apply toInt32_int32.
  intros k Hk. rewrite !testbit_packWord by assumption. now apply H.
Qed.

(** *** Row buffers *)

Lemma fold_setBulk (g : Z -> Z) range row :
  fold_left (fun row x => BitArray.setBulk row (x * 32) (g x)) range row
  = {| BitArray.size := BitArray.size row;
       BitArray.bits := fold_left (fun l x => typedSet l (0 + x) (g x)) range
                                  (BitArray.bits row) |}.
Proof.
  revert row. induction range as [|x range IH]; intros row; cbn [fold_left].
  - now destruct row.
  - rewrite IH. unfold BitArray.setBulk. cbn [BitArray.size BitArray.bits].
    now rewrite Z.div_mul, Z.add_0_l by lia.
Qed.

Lemma getRow_spec m y row :
  0 <= rowSize m -> bufferFor m row ->
  bufferFor m (getRow m y (Some row)) /\
  forall c, 0 <= c < rowSize m ->
    typedGet (BitArray.bits (getRow m y (Some row))) c = Some (wordAt m y c).
Proof.
  intros Hrs [Hsize Hlen]. unfold getRow, BitArray.getSize. rewrite Hsize, Z.ltb_irrefl.
  rewrite fold_setBulk. cbn [BitArray.clear BitArray.size BitArray.bits].
  replace (upto (rowSize m)) with (upto (Z.of_nat (Z.to_nat (rowSize m))))
    by (now rewrite Z2Nat.id).
  destruct (fold_typedSet (fun x => orUndefined (typedGet (bits m) (y * rowSize m + x)))
              0 (Z.to_nat (rowSize m)) (map (fun _ => 0) (BitArray.bits row)) ltac:(lia))
    as [Hl Hg].
  repeat split; cbn [BitArray.size BitArray.bits].
  - assumption.
  - rewrite Hl, length_map. lia.
  - intros c Hc. rewrite Hg, length_map.
    destruct (Z.leb_spec 0 c), (Z.ltb_spec c (0 + Z.of_nat (Z.to_nat (rowSize m)))),
      (Z.ltb_spec c (Z.of_nat (length (BitArray.bits row)))); try lia.
    cbn [andb]. unfold wordAt. now rewrite Z.sub_0_r.
Qed.

Lemma reverse_spec m row :
  bufferFor m row ->
  bufferFor m (BitArray.reverse row) /\
  forall c, 0 <= c < rowSize m ->
    typedGet (BitArray.bits (BitArray.reverse row)) c
    = Some (BitArray.packWord
              (fun i => (i <? width m) && BitArray.get row (width m - 1 - i)) (32 * c)).
Proof.
  intros [Hsize Hlen]. unfold BitArray.reverse.
  repeat split; cbn [BitArray.size BitArray.bits].
  - assumption.
  - rewrite length_map, length_upto. lia.
  - intros c Hc. rewrite typedGet_map_upto by lia. now rewrite Hsize.
Qed.

Lemma setRow_spec m y row :
  0 <= y -> 0 <= rowSize m ->
  sameShape m (setRow m y row) /\
  forall j, typedGet (bits (setRow m y row)) j
            = if (y * rowSize m <=? j) && (j <? y * rowSize m + rowSize m) &&
                 (j <? Z.of_nat (length (bits m)))
              then Some (orUndefined (typedGet (BitArray.bits row) (j - y * rowSize m)))
              else typedGet (bits m) j.
Proof.
  intros Hy Hrs. unfold setRow, withBits, System.arraycopy, BitArray.getBitArray, sameShape.
  cbn [width height rowSize bits].
  replace (upto (rowSize m)) with (upto (Z.of_nat (Z.to_nat (rowSize m))))
    by (now rewrite Z2Nat.id).
  destruct (fold_typedSet (fun k => orUndefined (typedGet (BitArray.bits row) (0 + k)))
              (y * rowSize m) (Z.to_nat (rowSize m)) (bits m) ltac:(nia)) as [Hl Hg].
  repeat split; try assumption.
  intros j. rewrite Hg. rewrite Z2Nat.id by assumption.
  now rewrite Z.add_0_l.
Qed.

(** *** One turn of the loop *)

Lemma row_index rs y y' c :
  0 <= c < rs ->
  (y' * rs <=? y * rs + c) && (y * rs + c <? y' * rs + rs) = (y =? y').
Proof.
  intros Hc.
  destruct (Z.leb_spec (y' * rs) (y * rs + c)), (Z.ltb_spec (y * rs + c) (y' * rs + rs)),
    (Z.eqb_spec y y'); cbn [andb]; try reflexivity; exfalso; nia.
Qed.

Lemma buffer_get m row y :
  1 <= rowSize m ->
  (forall c, 0 <= c < rowSize m -> typedGet (BitArray.bits row) c = Some (wordAt m y c)) ->
  forall x, 0 <= x < 32 * rowSize m -> BitArray.get row x = get m x y.
Proof.
  intros Hrs H x Hx. unfold BitArray.get. rewrite get_testbit.
  rewrite H by (Z.div_mod_to_equations; lia). reflexivity.
Qed.

Lemma reversed_buffer m row y :
  wellFormed m -> bufferFor m row ->
  (forall c, 0 <= c < rowSize m -> typedGet (BitArray.bits row) c = Some (wordAt m y c)) ->
  forall c, 0 <= c < rowSize m ->
    typedGet (BitArray.bits (BitArray.reverse row)) c = Some (reversedWord m y c).
Proof.
  intros Hwf Hbuf Hrow c Hc. pose proof (rowSize_bounds m Hwf) as [Hrs Hrw].
  destruct (reverse_spec m row Hbuf) as [_ Hrev]. rewrite Hrev by assumption.
  f_equal. unfold reversedWord. apply packWord_ext. intros k Hk. cbv beta.
  destruct (Z.ltb_spec (32 * c + k) (width m)); cbn [andb]; [| reflexivity].
  apply (buffer_get m row y Hrs Hrow). lia.
Qed.

Lemma rotateRows_step m0 k m top bot :
  wellFormed m0 -> 0 <= k -> 2 * k <= height m0 - 1 ->
  rotatedUpTo m0 k m -> bufferFor m0 top -> bufferFor m0 bot ->
  rotatedUpTo m0 (k + 1) (fst (fst (rotateRows (height m0) (m, top, bot) k))) /\
  bufferFor m0 (snd (fst (rotateRows (height m0) (m, top, bot) k))) /\
  bufferFor m0 (snd (rotateRows (height m0) (m, top, bot) k)).
Proof.
  intros Hwf Hk Hmid [(Hw & Hh & Hr & Hl) Hinv] Htop Hbot.
  pose proof (rowSize_bounds m0 Hwf) as [Hrs Hrw].
  pose proof (wf_length m0 Hwf) as Hlen. pose proof (wf_height m0 Hwf) as Hht.
  assert (bufferFor m top) as Htop' by (unfold bufferFor in *; rewrite Hw, Hr; exact Htop).
  assert (bufferFor m bot) as Hbot' by (unfold bufferFor in *; rewrite Hw, Hr; exact Hbot).
  assert (forall y, k <= y <= height m0 - 1 - k -> forall c, 0 <= c < rowSize m0 ->
                    wordAt m y c = wordAt m0 y c) as Hmidrow.
  { intros y Hy c Hc. unfold wordAt at 1. rewrite Hr, Hinv by lia.
    destruct (Z.ltb_spec y k), (Z.ltb_spec (height m0 - 1 - k) y); try lia. reflexivity. }
  cbn [rotateRows fst snd].
  set (top1 := getRow m k (Some top)).
  set (bot1 := getRow m (height m0 - 1 - k) (Some bot)).
  destruct (getRow_spec m k top ltac:(lia) Htop') as [Hbt1 Hwt1]. fold top1 in Hbt1, Hwt1.
  destruct (getRow_spec m (height m0 - 1 - k) bot ltac:(lia) Hbot') as [Hbb1 Hwb1].
  fold bot1 in Hbb1, Hwb1.
  assert (bufferFor m0 top1) as Hbt1' by (unfold bufferFor in *; rewrite <- Hw, <- Hr; exact Hbt1).
  assert (bufferFor m0 bot1) as Hbb1' by (unfold bufferFor in *; rewrite <- Hw, <- Hr; exact Hbb1).
  assert (forall c, 0 <= c < rowSize m0 ->
            typedGet (BitArray.bits top1) c = Some (wordAt m0 k c)) as Hwt1'.
  { intros c Hc. rewrite Hwt1 by lia. f_equal. apply Hmidrow; lia. }
  assert (forall c, 0 <= c < rowSize m0 ->
            typedGet (BitArray.bits bot1) c = Some (wordAt m0 (height m0 - 1 - k) c)) as Hwb1'.
  { intros c Hc. rewrite Hwb1 by lia. f_equal. apply Hmidrow; lia. }
  pose proof (reversed_buffer m0 top1 k Hwf Hbt1' Hwt1') as Hrt.
  pose proof (reversed_buffer m0 bot1 (height m0 - 1 - k) Hwf Hbb1' Hwb1') as Hrb.
  destruct (reverse_spec m0 top1 Hbt1') as [[Hst2 Hlt2] _].
  destruct (reverse_spec m0 bot1 Hbb1') as [[Hsb2 Hlb2] _].
  set (top2 := BitArray.reverse top1) in *. set (bot2 := BitArray.reverse bot1) in *.
  destruct (setRow_spec m k bot2 Hk ltac:(lia)) as [(Hw1 & Hh1 & Hr1 & Hl1) Hg1].
  set (m1 := setRow m k bot2) in *.
  destruct (setRow_spec m1 (height m0 - 1 - k) top2 ltac:(lia) ltac:(lia))
    as [(Hw2 & Hh2 & Hr2 & Hl2) Hg2].
  set (m2 := setRow m1 (height m0 - 1 - k) top2) in *.
  repeat split; try assumption; try congruence.
  intros y c Hy Hc. rewrite Hg2, Hr1, Hr, Hl1, Hl.
  assert (y * rowSize m0 + c < Z.of_nat (length (bits m0))) as Hin by nia.
  destruct (Z.ltb_spec (y * rowSize m0 + c) (Z.of_nat (length (bits m0)))); [| lia].
  rewrite andb_true_r, row_index by assumption.
  destruct (Z.eqb_spec y (height m0 - 1 - k)) as [->|Hne2].
  - replace ((height m0 - 1 - k) * rowSize m0 + c - (height m0 - 1 - k) * rowSize m0)
      with c by lia.
    rewrite Hrt by assumption. cbn [orUndefined].
    destruct (Z.ltb_spec (height m0 - 1 - (k + 1)) (height m0 - 1 - k)); [| lia].
    rewrite orb_true_r. do 2 f_equal. lia.
  - rewrite Hg1, Hr, Hl.
    destruct (Z.ltb_spec (y * rowSize m0 + c) (Z.of_nat (length (bits m0)))); [| lia].
    rewrite andb_true_r, row_index by assumption.
    destruct (Z.eqb_spec y k) as [->|Hne1].
    + replace (k * rowSize m0 + c - k * rowSize m0) with c by lia.
      rewrite Hrb by assumption. cbn [orUndefined].
      destruct (Z.ltb_spec k (k + 1)); [| lia]. cbn [orb]. reflexivity.
    + rewrite Hinv by assumption. f_equal.
      destruct (Z.ltb_spec y k), (Z.ltb_spec (height m0 - 1 - k) y),
        (Z.ltb_spec y (k + 1)), (Z.ltb_spec (height m0 - 1 - (k + 1)) y);
        cbn [orb]; try reflexivity; lia.
Qed.

(** *** The whole loop *)

Lemma rotatedUpTo_start m : wellFormed m -> rotatedUpTo m 0 m.
Proof.
  intros Hwf. split; [repeat split |]. intros y c Hy Hc.
  destruct (word_lookup m y c Hwf Hy Hc) as (w & Hw & _).
  destruct (Z.ltb_spec y 0), (Z.ltb_spec (height m - 1 - 0) y); try lia.
  cbn [orb]. unfold wordAt. now rewrite Hw.
Qed.

Lemma bufferFor_new m : wellFormed m -> bufferFor m (BitArray.new (width m)).
Proof.
  intros Hwf. pose proof (rowSize_bounds m Hwf) as [Hrs _].
  unfold bufferFor, BitArray.new. cbn [BitArray.size BitArray.bits].
  split; [reflexivity |]. rewrite repeat_length, <- (wf_rowSize m Hwf). lia.
Qed.

Lemma rotate_loop m0 (n : nat) top bot :
  wellFormed m0 -> 2 * Z.of_nat n <= height m0 + 1 ->
  bufferFor m0 top -> bufferFor m0 bot ->
  rotatedUpTo m0 (Z.of_nat n)
    (fst (fst (fold_left (rotateRows (height m0)) (upto (Z.of_nat n)) (m0, top, bot)))) /\
  bufferFor m0
    (snd (fst (fold_left (rotateRows (height m0)) (upto (Z.of_nat n)) (m0, top, bot)))) /\
  bufferFor m0
    (snd (fold_left (rotateRows (height m0)) (upto (Z.of_nat n)) (m0, top, bot))).
Proof.
  intros Hwf Hn Htop Hbot. induction n as [|n IH].
  - cbn [upto Z.to_nat Z.of_nat seq map fold_left fst snd].
    repeat split; try apply Htop; try apply Hbot; now apply rotatedUpTo_start.
  - rewrite upto_succ, fold_left_app. cbn [fold_left].
    destruct IH as (Hinv & Ht & Hb); [lia |].
    destruct (fold_left (rotateRows (height m0)) (upto (Z.of_nat n)) (m0, top, bot))
      as [[m t0] b0]. cbn [fst snd] in Hinv, Ht, Hb.
    replace (Z.of_nat (S n)) with (Z.of_nat n + 1) by lia.
    apply rotateRows_step; try assumption; lia.
Qed.

Lemma rotate180_words m :
  wellFormed m ->
  sameShape m (rotate180 m) /\
  forall y c, 0 <= y < height m -> 0 <= c < rowSize m ->
    typedGet (bits (rotate180 m)) (y * rowSize m + c)
    = Some (reversedWord m (height m - 1 - y) c).
Proof.
  intros Hwf. pose proof (wf_height m Hwf) as Hh.
  unfold rotate180, getWidth, getHeight.
  assert (0 <= (height m + 1) / 2 /\ 2 * ((height m + 1) / 2) <= height m + 1 /\
          height m <= 2 * ((height m + 1) / 2)) as (HK0 & HK1 & HK2)
    by (Z.div_mod_to_equations; lia).
  rewrite <- (Z2Nat.id ((height m + 1) / 2)) by assumption.
  destruct (rotate_loop m (Z.to_nat ((height m + 1) / 2))
              (BitArray.new (width m)) (BitArray.new (width m)) Hwf ltac:(lia)
              (bufferFor_new m Hwf) (bufferFor_new m Hwf)) as ([Hshape Hinv] & _ & _).
  split; [exact Hshape |]. intros y c Hy Hc. rewrite Hinv by assumption.
  rewrite Z2Nat.id by assumption.
  destruct (Z.ltb_spec y ((height m + 1) / 2)),
    (Z.ltb_spec (height m - 1 - (height m + 1) / 2) y); cbn [orb]; try reflexivity; lia.
Qed.

(** A bit of the rotated matrix, unused bits included. *)
Lemma get_rotate180 m x y :
  wellFormed m -> 0 <= x < 32 * rowSize m -> 0 <= y < height m ->
  get (rotate180 m) x y
  = (x <? width m) && get m (width m - 1 - x) (height m - 1 - y).
Proof.
  intros Hwf Hx Hy. destruct (rotate180_words m Hwf) as [(Hw & Hh & Hr & Hl) Hwords].
  rewrite get_testbit, Hr.
  rewrite Hwords by (try assumption; Z.div_mod_to_equations; lia).
  cbn [orUndefined]. unfold reversedWord.
  rewrite testbit_packWord by (apply Z.mod_pos_bound; lia).
  now replace (32 * (x / 32) + x mod 32) with x by (Z.div_mod_to_equations; lia).
Qed.

Lemma wellFormed_rotate180 m : wellFormed m -> wellFormed (rotate180 m).
Proof.
  intros Hwf. destruct (rotate180_words m Hwf) as [(Hw & Hh & Hr & Hl) Hwords].
  pose proof (rowSize_bounds m Hwf) as [Hrs _].
  constructor.
  - rewrite Hw. apply (wf_width m Hwf).
  - rewrite Hh. apply (wf_height m Hwf).
  - rewrite Hr, Hw. apply (wf_rowSize m Hwf).
  - rewrite Hl, Hr, Hh. apply (wf_length m Hwf).
  - apply Forall_lookup_2. intros i w Hi.
    rewrite (words_by_index (rotate180 m)
               (fun y c => reversedWord m (height m - 1 - y) c)
               ltac:(lia) ltac:(rewrite Hl, Hr, Hh; apply (wf_length m Hwf))
               ltac:(rewrite Hr, Hh; exact Hwords) i w Hi).
    apply toInt32_int32.
Qed.

(** Two matrices of one shape with the same words are equal. *)
Lemma matrix_ext a b :
  wellFormed a -> sameShape a b ->
  (forall y c, 0 <= y < height a -> 0 <= c < rowSize a ->
     typedGet (bits b) (y * rowSize a + c) = typedGet (bits a) (y * rowSize a + c)) ->
  b = a.
Proof.
  intros Hwf (Hw & Hh & Hr & Hl) H.
  pose proof (rowSize_bounds a Hwf) as [Hrs _]. pose proof (wf_length a Hwf) as Hlen.
  assert (bits b = bits a) as Hbits.
  { apply list_eq. intros i. destruct (Nat.lt_ge_cases i (length (bits a))) as [Hi|Hi].
    - pose proof (Z.div_mod (Z.of_nat i) (rowSize a) ltac:(lia)) as Hdm.
      pose proof (Z.mod_pos_bound (Z.of_nat i) (rowSize a) ltac:(lia)) as Hmb.
      assert (0 <= Z.of_nat i / rowSize a < height a) as Hy.
      { split; [apply Z.div_pos; lia |]. apply Z.div_lt_upper_bound; lia. }
      specialize (H _ _ Hy Hmb). unfold typedGet in H.
      replace (Z.of_nat i / rowSize a * rowSize a + Z.of_nat i mod rowSize a)
        with (Z.of_nat i) in H by lia.
      destruct (Z.ltb_spec (Z.of_nat i) 0); [lia |].
      now rewrite Nat2Z.id in H.
    - rewrite !lookup_ge_None_2 by lia. reflexivity. }
  destruct a, b. cbn in *. congruence.
Qed.

(** C8. On a well-formed matrix, [rotate180] puts at [(x, y)] the bit that
    was at [(width-1-x, height-1-y)]: row [y] becomes row [height-1-y] with
    its bits in reverse order (the middle row of an odd height is reversed
    in place), and two calls restore every bit.  When the unused bits of the
    rows are clear, two calls restore the matrix itself. *)
Theorem rotate180_involution m :
  wellFormed m ->
  (forall x y, 0 <= x < width m -> 0 <= y < height m ->
     get (rotate180 m) x y = get m (width m - 1 - x) (height m - 1 - y)) /\
  (forall x y, 0 <= x < width m -> height m = 2 * y + 1 ->
     get (rotate180 m) x y = get m (width m - 1 - x) y) /\
  (forall x y, 0 <= x < width m -> 0 <= y < height m ->
     get (rotate180 (rotate180 m)) x y = get m x y) /\
  sameShape m (rotate180 (rotate180 m)) /\
  (cleanPadding m -> rotate180 (rotate180 m) = m).
Proof.
  intros Hwf. pose proof (rowSize_bounds m Hwf) as [Hrs Hrw].
  pose proof (wf_height m Hwf) as Hht.
  pose proof (wellFormed_rotate180 m Hwf) as Hwf1.
  destruct (rotate180_words m Hwf) as [(Hw & Hh & Hr & Hl) _].
  destruct (rotate180_words _ Hwf1) as [(Hw2 & Hh2 & Hr2 & Hl2) Hwords2].
  assert (forall x y, 0 <= x < width m -> 0 <= y < height m ->
            get (rotate180 m) x y = get m (width m - 1 - x) (height m - 1 - y)) as H1.
  { intros x y Hx Hy. rewrite get_rotate180 by (try assumption; lia).
    destruct (Z.ltb_spec x (width m)); [reflexivity | lia]. }
  assert (forall x y, 0 <= x < 32 * rowSize m -> 0 <= y < height m ->
            get (rotate180 (rotate180 m)) x y = (x <? width m) && get m x y) as H2.
  { intros x y Hx Hy. rewrite get_rotate180 by (try assumption; lia).
    rewrite Hw, Hh. destruct (Z.ltb_spec x (width m)); [| reflexivity].
    cbn [andb]. rewrite H1 by lia. f_equal; lia. }
  repeat split; try congruence.
  - exact H1.
  - intros x y Hx Hy. rewrite H1 by lia. f_equal. lia.
  - intros x y Hx Hy. rewrite H2 by lia.
    destruct (Z.ltb_spec x (width m)); [reflexivity | lia].
  - intros Hclean. apply matrix_ext; [assumption | repeat split; congruence |].
    intros y c Hy Hc.
    destruct (word_lookup m y c Hwf Hy Hc) as (w & Hwm & Hiw & Hbw).
    destruct (word_lookup _ y c (wellFormed_rotate180 _ Hwf1) ltac:(lia) ltac:(lia))
      as (w' & Hwm' & Hiw' & Hbw').
    rewrite Hr2, Hr in Hwm'. rewrite Hwm, Hwm'. f_equal.
    apply int32_ext; try assumption. intros k Hk.
    rewrite Hbw, Hbw', H2 by lia.
    destruct (Z.ltb_spec (32 * c + k) (width m)); [reflexivity |].
    symmetry. apply Hclean; lia.
Qed.

Lemma rotate180_involution_witness :
  get (rotate180 matrix35x3) 0 0
  = get matrix35x3 (width matrix35x3 - 1 - 0) (height matrix35x3 - 1 - 0) /\
  get (rotate180 (rotate180 matrix35x3)) 34 2 = get matrix35x3 34 2.
Proof.
  assert (wellFormed matrix35x3) as Hwf.
  { constructor; cbn [width height rowSize bits matrix35x3]; try lia; try reflexivity.
    repeat constructor; unfold int32; lia. }
  destruct (rotate180_involution matrix35x3 Hwf) as (H1 & _ & H3 & _).
  split.
  - apply H1; cbn [width height matrix35x3]; lia.
  - apply H3; cbn [width height matrix35x3]; lia.
Defined.

End Rotation.

(** ** BitMatrix: the text form *)

Section Text.
Import BitMatrix.
Local Open Scope string_scope.

Lemma prefix_empty r : String.prefix "" r = true.
Proof. now destruct r. Qed.

Lemma prefix_append s r : String.prefix s (s ++ r) = true.
Proof.
  induction s as [|a s IH]; cbn; [apply prefix_empty |].
  destruct (ascii_dec a a); [exact IH | contradiction].
Qed.

Lemma dropChars_append s r : dropChars (String.length s) (s ++ r) = r.
Proof. induction s as [|a s IH]; cbn; [now destruct r | exact IH]. Qed.

Lemma length_append s r :
  String.length (s ++ r) = (String.length s + String.length r)%nat.
Proof. induction s as [|a s IH]; cbn; [reflexivity | now rewrite IH]. Qed.

Lemma append_assoc s1 s2 s3 : (s1 ++ s2) ++ s3 = s1 ++ (s2 ++ s3).
Proof. induction s1 as [|a s1 IH]; cbn; [reflexivity | now rewrite IH]. Qed.

Lemma append_empty_r s : s ++ "" = s.
Proof. induction s as [|a s IH]; cbn; [reflexivity | now rewrite IH]. Qed.

(** Of two tokens neither of which is a prefix of the other, the one is not a
    prefix of a text that starts with the other. *)
Lemma prefix_free s u r :
  String.prefix s u = false -> String.prefix u s = false ->
  String.prefix s (u ++ r) = false.
Proof.
  revert u. induction s as [|a s IH]; intros u Hsu Hus;
    [now rewrite prefix_empty in Hsu |].
  destruct u as [|b u]; [discriminate |]. cbn in *.
  destruct (ascii_dec a b) as [->|Hne]; [| reflexivity].
  destruct (ascii_dec b b); [| contradiction]. now apply IH.
Qed.

Lemma headOk_nonempty s : headOk s = true -> exists ch s', s = String ch s' /\ isNewline ch = false.
Proof.
  destruct s as [|ch s']; [discriminate |]. cbn. intros H.
  exists ch, s'. split; [reflexivity |]. now apply negb_true_iff.
Qed.

Section Tokens.
Variables setString unsetString : string.
Hypothesis Htok : tokensOk setString unsetString.

Lemma runs_end st : runs setString unsetString "" st (Ok st).
Proof. intros [|fuel] Hf; [cbn in Hf; lia | reflexivity]. Qed.

Lemma runs_bit b rest st r :
  runs setString unsetString rest (pushBit b st) r ->
  runs setString unsetString (token setString unsetString b ++ rest) st r.
Proof.
  destruct Htok as (Hs & Hu & Hsu & Hus). intros H fuel Hf.
  rewrite length_append in Hf.
  destruct b; cbn [token] in *.
  - destruct (headOk_nonempty _ Hs) as (ch & s' & Es & Hch).
    destruct fuel as [|fuel]; [lia |].
    assert (setString ++ rest = String ch (s' ++ rest)) as Etext by now rewrite Es.
    rewrite Etext. cbn [parseLoop]. rewrite Hch, <- Etext.
    rewrite prefix_append, dropChars_append. apply H.
    rewrite Es in Hf. cbn in Hf. lia.
  - destruct (headOk_nonempty _ Hu) as (ch & u' & Eu & Hch).
    destruct fuel as [|fuel]; [lia |].
    assert (unsetString ++ rest = String ch (u' ++ rest)) as Etext by now rewrite Eu.
    rewrite Etext. cbn [parseLoop]. rewrite Hch, <- Etext.
    rewrite prefix_free by assumption.
    rewrite prefix_append, dropChars_append. apply H.
    rewrite Eu in Hf. cbn in Hf. lia.
Qed.

Lemma runs_newline ch rest st st' r :
  isNewline ch = true -> endOfRow st = Ok st' ->
  runs setString unsetString rest st' r ->
  runs setString unsetString (String ch rest) st r.
Proof.
  intros Hch He H fuel Hf. destruct fuel as [|fuel]; [lia |].
  cbn [parseLoop]. rewrite Hch, He. apply H. cbn in Hf. lia.
Qed.

Lemma runs_newline_fail ch rest st e :
  isNewline ch = true -> endOfRow st = Throw e ->
  runs setString unsetString (String ch rest) st (Throw e).
Proof.
  intros Hch He fuel Hf. destruct fuel as [|fuel]; [lia |].
  cbn [parseLoop]. now rewrite Hch, He.
Qed.

Lemma runs_unrecognized ch rest st :
  isNewline ch = false ->
  String.prefix setString (String ch rest) = false ->
  String.prefix unsetString (String ch rest) = false ->
  runs setString unsetString (String ch rest) st (Throw IllegalArgumentException).
Proof.
  intros Hch Hs Hu fuel Hf. destruct fuel as [|fuel]; [lia |].
  cbn [parseLoop]. now rewrite Hch, Hs, Hu.
Qed.

Lemma pushBits_cons b bs st : pushBits bs (pushBit b st) = pushBits (b :: bs) st.
Proof. unfold pushBits, pushBit. cbn. now rewrite <- List.app_assoc. Qed.

Lemma runs_row bs : forall rest st r,
  runs setString unsetString rest (pushBits bs st) r ->
  runs setString unsetString (renderRow setString unsetString bs ++ rest) st r.
Proof.
  induction bs as [|b bs IH]; intros rest st r H.
  - cbn. unfold pushBits in H. rewrite app_nil_r in H. now destruct st.
  - cbn [renderRow]. rewrite append_assoc. apply runs_bit, IH.
    now rewrite pushBits_cons.
Qed.

Lemma endOfRow_row w done row :
  1 <= w -> Z.of_nat (length row) = w ->
  endOfRow (pushBits row (stateAfter w done)) = Ok (stateAfter w (done ++ [row])%list).
Proof.
  intros Hw Hrow. unfold endOfRow, bitsPos, pushBits, stateAfter.
  cbn [parsedBits rowStartPos rowLength nRows].
  rewrite length_app.
  destruct (Z.gtb_spec (Z.of_nat (length (concat done) + length row))
              (Z.of_nat (length (concat done)))); [| lia].
  assert (concat (done ++ [row])%list = (concat done ++ row)%list) as Hc
    by (rewrite concat_app; cbn; now rewrite app_nil_r).
  assert (Z.of_nat (length (done ++ [row])%list) = Z.of_nat (length done) + 1) as Hn
    by (rewrite length_app; cbn; lia).
  assert (match (done ++ [row])%list with [] => -1 | _ => w end = w) as Hl
    by (destruct done; reflexivity).
  rewrite Hc, Hn, Hl, length_app.
  destruct done as [|d done'].
  - cbn [Z.eqb]. f_equal. f_equal. cbn [concat length]. lia.
  - destruct (Z.eqb_spec w (-1)); [lia |].
    destruct (Z.eqb_spec (Z.of_nat (length (concat (d :: done')) + length row)
                          - Z.of_nat (length (concat (d :: done')))) w); [| lia].
    reflexivity.
Qed.

Lemma runs_rows w rows :
  1 <= w -> Forall (fun row => Z.of_nat (length row) = w) rows ->
  forall done rest r,
    runs setString unsetString rest (stateAfter w (done ++ rows)%list) r ->
    runs setString unsetString (renderRows setString unsetString rows ++ rest)
         (stateAfter w done) r.
Proof.
  intros Hw Hrows. induction Hrows as [|row rows Hrow _ IH]; intros done rest r H.
  - cbn. now rewrite app_nil_r in H.
  - cbn [renderRows]. rewrite !append_assoc. apply runs_row.
    change (lineFeed ++ renderRows setString unsetString rows ++ rest)
      with (String "010" (renderRows setString unsetString rows ++ rest)).
    apply (runs_newline _ _ _ (stateAfter w (done ++ [row])%list)).
    + reflexivity.
    + now apply endOfRow_row.
    + apply IH. now rewrite <- app_assoc.
Qed.

End Tokens.

(** *** What [toString] writes *)

Lemma fold_tokens setString unsetString (f : Z -> bool) xs acc :
  fold_left (fun result x =>
               StringBuilder.append result (if f x then setString else unsetString)) xs acc
  = acc ++ renderRow setString unsetString (map f xs).
Proof.
  unfold StringBuilder.append.
  revert acc. induction xs as [|x xs IH]; intros acc; cbn [fold_left map renderRow].
  - now rewrite append_empty_r.
  - rewrite IH, append_assoc. reflexivity.
Qed.

Lemma fold_rows m setString unsetString ys acc :
  fold_left
    (fun result y =>
       StringBuilder.append
         (fold_left
            (fun result x =>
               StringBuilder.append result (if get m x y then setString else unsetString))
            (upto (width m)) result)
         lineFeed)
    ys acc
  = acc ++ renderRows setString unsetString
             (map (fun y => map (fun x => get m x y) (upto (width m))) ys).
Proof.
  revert acc. induction ys as [|y ys IH]; intros acc; cbn [fold_left map renderRows].
  - now rewrite append_empty_r.
  - rewrite IH, fold_tokens. unfold StringBuilder.append.
    rewrite !append_assoc. reflexivity.
Qed.

Lemma toString_rows m setString unsetString :
  toString m setString unsetString lineFeed
  = lineFeed ++ renderRows setString unsetString (rowsOf m).
Proof.
  unfold toString, buildToString, StringBuilder.toString.
  rewrite fold_rows. reflexivity.
Qed.

End Text.

(** ** BitMatrix: setting bits *)

Section SetBits.
Import BitMatrix.

Lemma testbit_set_word w0 k0 k :
  0 <= k0 < 32 -> 0 <= k < 32 ->
  Z.testbit (js_or w0 (js_and (js_shl 1 k0) 4294967295)) k
  = Z.testbit w0 k || (k =? k0).
Proof.
  intros Hk0 Hk. unfold js_or, js_and, js_shl.
  rewrite land_31_small by assumption.
  change (toInt32 1) with 1. change (toInt32 4294967295) with (-1).
  rewrite Z.land_m1_r, Z.shiftl_1_l.
  rewrite testbit_toInt32, Z.lor_spec, !testbit_toInt32 by assumption.
  rewrite Z.pow2_bits_eqb by lia. now rewrite (Z.eqb_sym k0 k).
Qed.

Lemma sameShape_refl m : sameShape m m.
Proof. repeat split. Qed.

Lemma sameShape_trans a b c : sameShape a b -> sameShape b c -> sameShape a c.
Proof. unfold sameShape. intuition congruence. Qed.

(** [set] inside of the packed rows. *)
Lemma set_spec m x0 y0 :
  wellFormed m -> 0 <= x0 < 32 * rowSize m -> 0 <= y0 < height m ->
  wellFormed (set m x0 y0) /\ sameShape m (set m x0 y0) /\
  forall x y, 0 <= x < 32 * rowSize m -> 0 <= y < height m ->
    get (set m x0 y0) x y = get m x y || ((x =? x0) && (y =? y0)).
Proof.
  intros Hwf Hx0 Hy0. pose proof (rowSize_bounds m Hwf) as [Hrs _].
  pose proof (wf_length m Hwf) as Hlen.
  assert (0 <= x0 / 32 < rowSize m /\ 0 <= x0 mod 32 < 32) as [Hc0 Hk0]
    by (Z.div_mod_to_equations; lia).
  split; [| split].
  - destruct Hwf as [Hw Hh Hr Hl Hws]. unfold set, withBits.
    constructor; cbn [width height rowSize bits]; try assumption.
    + now rewrite length_typedSet.
    + unfold typedSet. destruct (y0 * rowSize m + x0 / 32 <? 0); [assumption |].
      apply Forall_insert; [assumption | apply toInt32_int32].
  - unfold set, withBits, sameShape. cbn [width height rowSize bits].
    repeat split. apply length_typedSet.
  - intros x y Hx Hy.
    assert (0 <= x / 32 < rowSize m /\ 0 <= x mod 32 < 32) as [Hc Hk]
      by (Z.div_mod_to_equations; lia).
    rewrite !get_testbit. unfold set, withBits. cbn [width height rowSize bits].
    rewrite typedGet_typedSet, js_and_31.
    assert (y * rowSize m + x / 32 < Z.of_nat (length (bits m))) as Hin by nia.
    destruct (Z.ltb_spec (y * rowSize m + x / 32) (Z.of_nat (length (bits m)))); [| lia].
    destruct (Z.leb_spec 0 (y * rowSize m + x / 32)); [| nia].
    rewrite !andb_true_r.
    destruct (Z.eqb_spec (y * rowSize m + x / 32) (y0 * rowSize m + x0 / 32)) as [He|Hne].
    + assert (y = y0) as ->.
      { pose proof (row_index (rowSize m) y y0 (x / 32) Hc) as Hri.
        destruct (Z.leb_spec (y0 * rowSize m) (y * rowSize m + x / 32)); [| lia].
        destruct (Z.ltb_spec (y * rowSize m + x / 32) (y0 * rowSize m + rowSize m)); [| lia].
        cbn [andb] in Hri. symmetry in Hri. now apply Z.eqb_eq in Hri. }
      assert (x / 32 = x0 / 32) as Hcc by lia.
      cbn [orUndefined]. rewrite testbit_set_word by assumption.
      rewrite Hcc, Z.eqb_refl, andb_true_r. f_equal.
      destruct (Z.eqb_spec (x mod 32) (x0 mod 32)), (Z.eqb_spec x x0);
        try reflexivity; exfalso; Z.div_mod_to_equations; lia.
    + destruct (Z.eqb_spec x x0) as [->|Hx']; [| now rewrite orb_false_r].
      destruct (Z.eqb_spec y y0) as [->|Hy']; [contradiction |].
      now rewrite orb_false_r.
Qed.

(** A run of [set] calls at the positions [i] of [ixs] where [b i] holds;
    position [i] stands for column [i % w] of row [i / w]. *)
Lemma fill_spec (b : Z -> bool) (w : Z) (ixs : list Z) : forall m,
  wellFormed m -> width m = w ->
  (forall i, In i ixs -> 0 <= i < w * height m) ->
  let m' := fold_left (fun mt i => if b i then set mt (Z.rem i w) (i / w) else mt) ixs m in
  wellFormed m' /\ sameShape m m' /\
  forall x y, 0 <= x < 32 * rowSize m -> 0 <= y < height m ->
    get m' x y
    = get m x y || existsb (fun i => b i && (i mod w =? x) && (i / w =? y)) ixs.
Proof.
  induction ixs as [|i ixs IH]; intros m Hwf Hwidth Hin; cbv zeta.
  - cbn [fold_left existsb]. split; [assumption |]. split; [apply sameShape_refl |].
    intros x y _ _. now rewrite orb_false_r.
  - pose proof (wf_width m Hwf) as Hw. pose proof (rowSize_bounds m Hwf) as [Hrs Hrw].
    rewrite Hwidth in Hw, Hrw.
    assert (0 <= i < w * height m) as Hi by (apply Hin; now left).
    assert (0 <= i mod w < w) as Hmod by (apply Z.mod_pos_bound; lia).
    assert (0 <= i / w < height m) as Hdiv.
    { split; [apply Z.div_pos; lia |]. apply Z.div_lt_upper_bound; lia. }
    assert (Z.rem i w = i mod w) as Hrem by (apply Z.rem_mod_nonneg; lia).
    cbn [fold_left existsb].
    destruct (b i) eqn:Hb.
    + destruct (set_spec m (Z.rem i w) (i / w) Hwf ltac:(lia) Hdiv)
        as (Hwf1 & (Hw1 & Hh1 & Hr1 & Hl1) & Hg1).
      set (m1 := set m (Z.rem i w) (i / w)) in *.
      specialize (IH m1 Hwf1 ltac:(congruence)). cbv zeta in IH. rewrite Hh1, Hr1 in IH.
      destruct IH as (Hwf' & Hs' & Hg').
      { intros j Hj. apply Hin. now right. }
      split; [assumption |]. split.
      { eapply sameShape_trans; [| exact Hs']. repeat split; assumption. }
      intros x y Hx Hy. rewrite Hg', Hg1 by assumption.
      rewrite Hrem. cbn [andb].
      rewrite (Z.eqb_sym x), (Z.eqb_sym y). now rewrite orb_assoc.
    + specialize (IH m Hwf Hwidth). cbv zeta in IH.
      destruct IH as (Hwf' & Hs' & Hg').
      { intros j Hj. apply Hin. now right. }
      split; [assumption |]. split; [assumption |].
      intros x y Hx Hy. rewrite Hg' by assumption. reflexivity.
Qed.

(** The bit found at position [y * n + j] of rows that are [n] long. *)
Lemma lookup_concat_uniform {A} (n : nat) (ls : list (list A)) : forall i j,
  Forall (fun l => length l = n) ls -> (j < n)%nat ->
  concat ls !! (i * n + j)%nat = ls !! i ≫= (fun l => l !! j).
Proof.
  induction ls as [|l ls IH]; intros i j Hall Hj; [reflexivity |].
  apply Forall_cons in Hall as [Hl Hls]. cbn [concat]. destruct i as [|i].
  - cbn. apply lookup_app_l. lia.
  - rewrite lookup_app_r by lia.
    replace (S i * n + j - length l)%nat with (i * n + j)%nat by lia.
    cbn. now apply IH.
Qed.

End SetBits.

(** ** BitMatrix: from text and back *)

Section RoundTrip.
Import BitMatrix.

Lemma length_concat_uniform {A} (n : nat) (ls : list (list A)) :
  Forall (fun l => length l = n) ls -> length (concat ls) = (length ls * n)%nat.
Proof.
  induction 1 as [|l ls Hl _ IH]; cbn; [reflexivity |].
  rewrite length_app, IH, Hl. reflexivity.
Qed.

Lemma lookup_upto n (i : nat) : (Z.of_nat i < n) -> upto n !! i = Some (Z.of_nat i).
Proof.
  intros H. unfold upto. rewrite list_lookup_fmap, lookup_seq_lt by lia. reflexivity.
Qed.

Lemma rowsOf_shape m :
  0 <= width m -> 0 <= height m ->
  length (rowsOf m) = Z.to_nat (height m) /\
  Forall (fun row => length row = Z.to_nat (width m)) (rowsOf m) /\
  Z.of_nat (length (concat (rowsOf m))) = width m * height m.
Proof.
  intros Hw Hh. unfold rowsOf.
  assert (Forall (fun row : list bool => length row = Z.to_nat (width m))
            (map (fun y => map (fun x => get m x y) (upto (width m))) (upto (height m))))
    as Hall.
  { apply List.Forall_forall. intros row Hrow. apply in_map_iff in Hrow as (y & <- & _).
    now rewrite length_map, length_upto. }
  repeat split.
  - now rewrite length_map, length_upto.
  - exact Hall.
  - rewrite (length_concat_uniform _ _ Hall), length_map, length_upto. nia.
Qed.

Lemma rowsOf_lookup m x y :
  0 <= x < width m -> 0 <= y < height m ->
  concat (rowsOf m) !! Z.to_nat (y * width m + x) = Some (get m x y).
Proof.
  intros Hx Hy. destruct (rowsOf_shape m ltac:(lia) ltac:(lia)) as (_ & Hall & _).
  replace (Z.to_nat (y * width m + x))
    with (Z.to_nat y * Z.to_nat (width m) + Z.to_nat x)%nat by nia.
  rewrite (lookup_concat_uniform _ _ _ _ Hall) by lia.
  unfold rowsOf. rewrite list_lookup_fmap, lookup_upto by lia. cbn.
  rewrite list_lookup_fmap, lookup_upto by lia. cbn.
  now rewrite !Z2Nat.id by lia.
Qed.

Lemma get_zeros w h rs n x y :
  get {| width := w; height := h; rowSize := rs; bits := repeat 0 n |} x y = false.
Proof.
  rewrite get_testbit. cbn [bits rowSize]. unfold typedGet.
  destruct (_ <? 0); [apply Z.bits_0 |].
  destruct (repeat 0 n !! _) as [v|] eqn:E; [| apply Z.bits_0].
  apply list_elem_of_lookup_2, list_elem_of_In, repeat_spec in E. subst v.
  apply Z.bits_0.
Qed.

Lemma new_wellFormed m :
  wellFormed m ->
  exists z, new (width m) (height m) = Ok z /\ wellFormed z /\ sameShape m z /\
            forall x y, get z x y = false.
Proof.
  intros Hwf. pose proof (wf_width m Hwf) as Hw. pose proof (wf_height m Hwf) as Hh.
  pose proof (rowSize_bounds m Hwf) as [Hrs _]. pose proof (wf_rowSize m Hwf) as Hr.
  pose proof (wf_length m Hwf) as Hl.
  eexists. unfold new.
  destruct (Z.ltb_spec (width m) 1); [lia |]. destruct (Z.ltb_spec (height m) 1); [lia |].
  cbn [orb]. split; [reflexivity |]. rewrite <- Hr. split; [| split].
  - constructor; cbn [width height rowSize bits]; try assumption.
    + rewrite repeat_length. nia.
    + apply List.Forall_forall. intros v Hv. apply repeat_spec in Hv. subst v.
      unfold int32. lia.
  - unfold sameShape. cbn [width height rowSize bits]. repeat split.
    rewrite repeat_length. lia.
  - intros x y. apply get_zeros.
Qed.

(** Filling a fresh matrix from the bits of the rows of [m] gives [m] back. *)
Lemma fill_round_trip m z :
  wellFormed m -> cleanPadding m ->
  new (width m) (height m) = Ok z ->
  fillFrom (stateAfter (width m) (rowsOf m)) z = m.
Proof.
  intros Hwf Hclean Hnew.
  destruct (new_wellFormed m Hwf) as (z' & Hnew' & Hwfz & (Hw & Hh & Hr & Hl) & Hzero).
  assert (z' = z) as -> by congruence.
  pose proof (wf_width m Hwf) as Hwm. pose proof (wf_height m Hwf) as Hhm.
  pose proof (rowSize_bounds m Hwf) as [Hrs Hrw].
  destruct (rowsOf_shape m ltac:(lia) ltac:(lia)) as (Hlen & Hall & Hcl).
  unfold fillFrom, bitsPos.
  assert (rowLength (stateAfter (width m) (rowsOf m)) = width m) as ->.
  { unfold stateAfter. cbn [rowLength]. destruct (rowsOf m); [cbn in Hlen; lia | reflexivity]. }
  cbn [stateAfter parsedBits]. rewrite Hcl.
  pose proof (fill_spec (fun i => default false (concat (rowsOf m) !! Z.to_nat i))
                (width m) (upto (width m * height m)) z Hwfz Hw) as Hfill.
  cbv beta zeta in Hfill. rewrite Hh, Hr in Hfill.
  destruct Hfill as (Hwf' & (Hw' & Hh' & Hr' & Hl') & Hget).
  { intros i Hi. now apply elem_of_upto in Hi. }
  apply matrix_ext; [assumption | repeat split; congruence |].
  intros y c Hy Hc.
  destruct (word_lookup m y c Hwf Hy Hc) as (wm & Hwm' & Him & Hbm).
  destruct (word_lookup _ y c Hwf' ltac:(lia) ltac:(lia)) as (wf & Hwf'' & Hif & Hbf).
  rewrite Hr', Hr in Hwf''. rewrite Hwm', Hwf''. f_equal.
  apply int32_ext; try assumption. intros k Hk.
  rewrite Hbm, Hbf, Hget, Hzero by lia. cbn [orb].
  destruct (Z.ltb_spec (32 * c + k) (width m)) as [Hin|Hout].
  - (* a bit of the matrix: position y * width + x holds it *)
    assert (default false (concat (rowsOf m) !! Z.to_nat (y * width m + (32 * c + k)))
            = get m (32 * c + k) y) as Hb.
    { now rewrite rowsOf_lookup by lia. }
    destruct (get m (32 * c + k) y) eqn:Eg.
    + apply existsb_exists. exists (y * width m + (32 * c + k)). split.
      * apply elem_of_upto. nia.
      * rewrite Hb. cbn [andb].
        apply andb_true_iff. split; apply Z.eqb_eq.
        -- symmetry. apply (Z.mod_unique _ _ y); lia.
        -- symmetry. apply (Z.div_unique _ _ _ (32 * c + k)); lia.
    + apply not_true_is_false. intros Hex. apply existsb_exists in Hex as (i & Hi & Hex).
      apply elem_of_upto in Hi.
      apply andb_true_iff in Hex as [Hex Hy'].
      apply andb_true_iff in Hex as [Hbi Hx'].
      apply Z.eqb_eq in Hx'. apply Z.eqb_eq in Hy'.
      pose proof (Z.div_mod i (width m) ltac:(lia)) as Hdm.
      assert (i = y * width m + (32 * c + k)) as -> by nia.
      congruence.
  - (* an unused bit: nothing is written there *)
    rewrite Hclean by lia.
    apply not_true_is_false. intros Hex. apply existsb_exists in Hex as (i & Hi & Hex).
    apply andb_true_iff in Hex as [Hex _]. apply andb_true_iff in Hex as [_ Hx'].
    apply Z.eqb_eq in Hx'.
    pose proof (Z.mod_pos_bound i (width m) ltac:(lia)). lia.
Qed.

Lemma parseFromString_runs setString unsetString text r :
  runs setString unsetString text parseStart r ->
  parseFromString text setString unsetString
  = match r with
    | Throw e => Some (Throw e)
    | Ok st => Some (do st <- endOfInput st;
                     do matrix <- new (rowLength st) (nRows st);
                     Ok (fillFrom st matrix))
    end.
Proof.
  intros H. unfold parseFromString. rewrite (H (S (String.length text))) by lia.
  reflexivity.
Qed.

Lemma endOfInput_rows w rows :
  endOfInput (stateAfter w rows) = Ok (stateAfter w rows).
Proof.
  unfold endOfInput, bitsPos, stateAfter. cbn [parsedBits rowStartPos].
  destruct (Z.gtb_spec (Z.of_nat (length (concat rows))) (Z.of_nat (length (concat rows))));
    [lia | reflexivity].
Qed.

(** A row of another length after rows that are [w] long. *)
Lemma row_mismatch w rows row :
  1 <= w -> rows <> [] -> row <> [] -> Z.of_nat (length row) <> w ->
  endOfRow (pushBits row (stateAfter w rows)) = Throw IllegalArgumentException /\
  endOfInput (pushBits row (stateAfter w rows)) = Throw IllegalArgumentException.
Proof.
  intros Hw1 Hrows Hrow Hlen.
  assert (0 < length row)%nat by (destruct row; [contradiction | cbn; lia]).
  unfold endOfRow, endOfInput, bitsPos, pushBits, stateAfter.
  cbn [parsedBits rowStartPos rowLength nRows]. rewrite length_app.
  destruct (Z.gtb_spec (Z.of_nat (length (concat rows) + length row))
              (Z.of_nat (length (concat rows)))); [| lia].
  destruct rows as [|r0 rows']; [contradiction |].
  destruct (Z.eqb_spec w (-1)) as [->|Hw].
  - lia.
  - destruct (Z.eqb_spec (Z.of_nat (length (concat (r0 :: rows')) + length row)
                          - Z.of_nat (length (concat (r0 :: rows')))) w); [lia |].
    split; reflexivity.
Qed.

Lemma cleanPadding_checked m :
  0 <= width m ->
  forallb (fun x => forallb (fun y => (x <? width m) || negb (get m x y)) (upto (height m)))
          (upto (32 * rowSize m)) = true ->
  cleanPadding m.
Proof.
  intros Hw H x y Hx Hy.
  pose proof (forallb_upto _ _ (forallb_upto _ _ H x ltac:(lia)) y Hy) as Hxy.
  cbv beta in Hxy. destruct (Z.ltb_spec x (width m)); [lia |].
  now apply negb_true_iff in Hxy.
Qed.

Section Claims.
Local Open Scope string_scope.

(** C7 (as the code has it). Let the two tokens be such that neither starts
    with a line feed or carriage return and neither is a prefix of the other.
    Then parsing what [toString] wrote for a well-formed matrix whose unused
    bits are clear gives that matrix back; a row whose length differs from
    the rows before it, and text that is neither a line end nor starts with a
    token, make [parseFromString] throw [IllegalArgumentException]. *)
Theorem text_round_trip setString unsetString :
  tokensOk setString unsetString ->
  (forall m, wellFormed m -> cleanPadding m ->
     parseFromString (toString m setString unsetString lineFeed) setString unsetString
     = Some (Ok m)) /\
  (forall w rows row rest,
     1 <= w -> rows <> [] -> Forall (fun r => Z.of_nat (length r) = w) rows ->
     row <> [] -> Z.of_nat (length row) <> w ->
     parseFromString (renderRows setString unsetString rows
                      ++ renderRow setString unsetString row ++ lineFeed ++ rest)
                     setString unsetString
     = Some (Throw IllegalArgumentException) /\
     parseFromString (renderRows setString unsetString rows
                      ++ renderRow setString unsetString row)
                     setString unsetString
     = Some (Throw IllegalArgumentException)) /\
  (forall w rows row ch rest,
     1 <= w -> Forall (fun r => Z.of_nat (length r) = w) rows ->
     isNewline ch = false ->
     String.prefix setString (String ch rest) = false ->
     String.prefix unsetString (String ch rest) = false ->
     parseFromString (renderRows setString unsetString rows
                      ++ renderRow setString unsetString row ++ String ch rest)
                     setString unsetString
     = Some (Throw IllegalArgumentException)).
Proof.
  intros Htok. split; [| split].
  - intros m Hwf Hclean.
    pose proof (wf_width m Hwf) as Hw. pose proof (wf_height m Hwf) as Hh.
    destruct (rowsOf_shape m ltac:(lia) ltac:(lia)) as (Hlen & Hall & Hcl).
    destruct (new_wellFormed m Hwf) as (z & Hnew & _).
    rewrite toString_rows.
    rewrite (parseFromString_runs _ _ _ (Ok (stateAfter (width m) (rowsOf m)))).
    + rewrite endOfInput_rows. cbn [bind].
      assert (rowLength (stateAfter (width m) (rowsOf m)) = width m) as ->.
      { unfold stateAfter. cbn [rowLength].
        destruct (rowsOf m); [cbn in Hlen; lia | reflexivity]. }
      assert (nRows (stateAfter (width m) (rowsOf m)) = height m) as ->.
      { unfold stateAfter. cbn [nRows]. lia. }
      rewrite Hnew. cbn [bind]. do 2 f_equal. now apply fill_round_trip.
    + change (lineFeed ++ renderRows setString unsetString (rowsOf m))
        with (String "010" (renderRows setString unsetString (rowsOf m))).
      apply (runs_newline _ _ _ _ _ (stateAfter (width m) [])); [reflexivity .. |].
      rewrite <- (append_empty_r (renderRows _ _ _)).
      apply (runs_rows _ _ Htok (width m)); [lia | |].
      * eapply Forall_impl; [exact Hall |]. cbv beta. intros row Hrow. lia.
      * cbn [app]. apply runs_end.
  - intros w rows row rest Hw Hrows Hall Hrow Hlen.
    destruct (row_mismatch w rows row Hw Hrows Hrow Hlen) as [Hr Hi].
    split.
    + rewrite (parseFromString_runs _ _ _ (Throw IllegalArgumentException)); [reflexivity |].
      apply (runs_rows _ _ Htok w rows Hw Hall []). cbn [app].
      apply (runs_row _ _ Htok).
      change (lineFeed ++ rest) with (String "010" rest).
      now apply runs_newline_fail.
    + rewrite (parseFromString_runs _ _ _ (Ok (pushBits row (stateAfter w rows)))).
      * now rewrite Hi.
      * apply (runs_rows _ _ Htok w rows Hw Hall []). cbn [app].
        rewrite <- (append_empty_r (renderRow _ _ _)).
        apply (runs_row _ _ Htok). apply runs_end.
  - intros w rows row ch rest Hw Hall Hch Hs Hu.
    rewrite (parseFromString_runs _ _ _ (Throw IllegalArgumentException)); [reflexivity |].
    apply (runs_rows _ _ Htok w rows Hw Hall []). cbn [app].
    apply (runs_row _ _ Htok). now apply runs_unrecognized.
Qed.

Lemma text_round_trip_witness :
  parseFromString (toString matrix35x3 "x" " " lineFeed) "x" " " = Some (Ok matrix35x3).
Proof.
  refine (proj1 (text_round_trip "x" " " _) matrix35x3 _ _).
  - repeat split.
  - constructor; cbn [width height rowSize bits matrix35x3]; try lia; try reflexivity.
    repeat constructor; unfold int32; lia.
  - apply cleanPadding_checked; [cbn; lia | vm_compute; reflexivity].
Defined.

(** With a line feed as the "set" token the text written for a 1x1 matrix
    with its bit set is three line feeds, which parse to no row at all; and
    a bit set in the unused part of a word is not written, so that what is
    parsed back differs from the matrix in its packed words. *)
Lemma text_round_trip_fails_for_newline_token :
  (lineFeed <> "x" /\
   String.prefix lineFeed "x" = false /\ String.prefix "x" lineFeed = false /\
   wellFormed dark1 /\ cleanPadding dark1 /\
   parseFromString (toString dark1 lineFeed "x" lineFeed) lineFeed "x"
   = Some (Throw IllegalArgumentException)) /\
  (wellFormed dark1Padded /\
   parseFromString (toString dark1Padded "x" " " lineFeed) "x" " " = Some (Ok dark1) /\
   dark1 <> dark1Padded).
Proof.
  split.
  - split; [discriminate |]. split; [reflexivity |]. split; [reflexivity |].
    split; [| split].
    + constructor; cbn [width height rowSize bits dark1]; try lia; try reflexivity.
      repeat constructor; unfold int32; lia.
    + apply cleanPadding_checked; [cbn; lia | vm_compute; reflexivity].
    + vm_compute. reflexivity.
  - split; [| split].
    + constructor; cbn [width height rowSize bits dark1Padded]; try lia; try reflexivity.
      repeat constructor; unfold int32; lia.
    + vm_compute. reflexivity.
    + discriminate.
Qed.

End Claims.

End RoundTrip.

(** ** The 32-bit operators, bit by bit *)

Section Operators.

Lemma testbit_js_or a b k :
  0 <= k < 32 -> Z.testbit (js_or a b) k = Z.testbit a k || Z.testbit b k.
Proof.
  intros H. unfold js_or. now rewrite testbit_toInt32, Z.lor_spec, !testbit_toInt32.
Qed.

Lemma testbit_js_and a b k :
  0 <= k < 32 -> Z.testbit (js_and a b) k = Z.testbit a k && Z.testbit b k.
Proof.
  intros H. unfold js_and. now rewrite testbit_toInt32, Z.land_spec, !testbit_toInt32.
Qed.

Lemma testbit_js_xor a b k :
  0 <= k < 32 -> Z.testbit (js_xor a b) k = xorb (Z.testbit a k) (Z.testbit b k).
Proof.
  intros H. unfold js_xor. now rewrite testbit_toInt32, Z.lxor_spec, !testbit_toInt32.
Qed.

Lemma testbit_js_not a k :
  0 <= k < 32 -> Z.testbit (js_not a) k = negb (Z.testbit a k).
Proof.
  intros H. unfold js_not.
  rewrite testbit_toInt32 by assumption. rewrite Z.lnot_spec by lia.
  now rewrite testbit_toInt32.
Qed.

Lemma testbit_js_shl a n k :
  0 <= n < 32 -> 0 <= k < 32 ->
  Z.testbit (js_shl a n) k = (n <=? k) && Z.testbit a (k - n).
Proof.
  intros Hn Hk. unfold js_shl.
  rewrite land_31_small, testbit_toInt32, Z.shiftl_spec by lia.
  destruct (Z.leb_spec n k).
  - now rewrite testbit_toInt32 by lia.
  - apply Z.testbit_neg_r. lia.
Qed.

(** [(1 << k0) & 0xFFFFFFFF] has bit [k0] and no other. *)
Lemma testbit_bitmask k0 k :
  0 <= k0 < 32 -> 0 <= k < 32 ->
  Z.testbit (js_and (js_shl 1 k0) 4294967295) k = (k =? k0).
Proof.
  intros Hk0 Hk. rewrite testbit_js_and, testbit_js_shl by assumption.
  change (Z.testbit 4294967295 k) with (Z.testbit (Z.ones 32) k).
  rewrite Z.ones_spec_low, andb_true_r by lia.
  destruct (Z.leb_spec k0 k), (Z.eqb_spec k k0); subst; cbn [andb];
    try reflexivity; try lia.
  - now rewrite Z.sub_diag.
  - change 1 with (2 ^ 0). apply Z.pow2_bits_false. lia.
Qed.

Lemma js_and_int32 a b : BitMatrix.int32 (js_and a b).
Proof. apply toInt32_int32. Qed.

Lemma js_xor_int32 a b : BitMatrix.int32 (js_xor a b).
Proof. apply toInt32_int32. Qed.

Lemma js_or_int32 a b : BitMatrix.int32 (js_or a b).
Proof. apply toInt32_int32. Qed.

End Operators.

(** ** BitMatrix: single-bit updates *)

Section SingleBits.
Import BitMatrix.

(** A word of the packed rows replaced by [op] of itself, where [op] changes
    bit [x0 mod 32] by [g] and keeps the other 31. *)
Lemma update_spec (op : Z -> Z) (g : bool -> bool) m x0 y0 :
  wellFormed m -> 0 <= x0 < 32 * rowSize m -> 0 <= y0 < height m ->
  (forall w, int32 (op w)) ->
  (forall w k, 0 <= k < 32 ->
     Z.testbit (op w) k = if k =? x0 mod 32 then g (Z.testbit w k) else Z.testbit w k) ->
  let offset := y0 * rowSize m + x0 / 32 in
  let m' := withBits m (typedSet (bits m) offset (op (orUndefined (typedGet (bits m) offset)))) in
  wellFormed m' /\ sameShape m m' /\
  forall x y, 0 <= x < 32 * rowSize m -> 0 <= y < height m ->
    get m' x y = if (x =? x0) && (y =? y0) then g (get m x y) else get m x y.
Proof.
  intros Hwf Hx0 Hy0 Hint Hop offset m'. subst offset m'.
  pose proof (rowSize_bounds m Hwf) as [Hrs _].
  pose proof (wf_length m Hwf) as Hlen.
  assert (0 <= x0 / 32 < rowSize m /\ 0 <= x0 mod 32 < 32) as [Hc0 Hk0]
    by (Z.div_mod_to_equations; lia).
  split; [| split].
  - destruct Hwf as [Hw Hh Hr Hl Hws]. unfold withBits.
    constructor; cbn [width height rowSize bits]; try assumption.
    + now rewrite length_typedSet.
    + unfold typedSet. destruct (y0 * rowSize m + x0 / 32 <? 0); [assumption |].
      apply Forall_insert; [assumption | apply Hint].
  - unfold withBits, sameShape. cbn [width height rowSize bits].
    repeat split. apply length_typedSet.
  - intros x y Hx Hy.
    assert (0 <= x / 32 < rowSize m /\ 0 <= x mod 32 < 32) as [Hc Hk]
      by (Z.div_mod_to_equations; lia).
    rewrite !get_testbit. unfold withBits. cbn [width height rowSize bits].
    rewrite typedGet_typedSet.
    assert (y * rowSize m + x / 32 < Z.of_nat (length (bits m))) as Hin by nia.
    destruct (Z.ltb_spec (y * rowSize m + x / 32) (Z.of_nat (length (bits m)))); [| lia].
    destruct (Z.leb_spec 0 (y * rowSize m + x / 32)); [| nia].
    rewrite !andb_true_r.
    destruct (Z.eqb_spec (y * rowSize m + x / 32) (y0 * rowSize m + x0 / 32)) as [He|Hne].
    + assert (y = y0) as ->.
      { pose proof (row_index (rowSize m) y y0 (x / 32) Hc) as Hri.
        destruct (Z.leb_spec (y0 * rowSize m) (y * rowSize m + x / 32)); [| lia].
        destruct (Z.ltb_spec (y * rowSize m + x / 32) (y0 * rowSize m + rowSize m)); [| lia].
        cbn [andb] in Hri. symmetry in Hri. now apply Z.eqb_eq in Hri. }
      assert (x / 32 = x0 / 32) as Hcc by lia.
      cbn [orUndefined]. rewrite Hop by assumption.
      rewrite Hcc, Z.eqb_refl, andb_true_r.
      destruct (Z.eqb_spec (x mod 32) (x0 mod 32)), (Z.eqb_spec x x0);
        try reflexivity; exfalso; Z.div_mod_to_equations; lia.
    + destruct (Z.eqb_spec x x0) as [->|Hx']; [| reflexivity].
      destruct (Z.eqb_spec y y0) as [->|Hy']; [contradiction | reflexivity].
Qed.

Lemma unset_spec m x0 y0 :
  wellFormed m -> 0 <= x0 < 32 * rowSize m -> 0 <= y0 < height m ->
  wellFormed (unset m x0 y0) /\ sameShape m (unset m x0 y0) /\
  forall x y, 0 <= x < 32 * rowSize m -> 0 <= y < height m ->
    get (unset m x0 y0) x y = get m x y && negb ((x =? x0) && (y =? y0)).
Proof.
  intros Hwf Hx0 Hy0.
  assert (0 <= x0 mod 32 < 32) as Hk0 by (apply Z.mod_pos_bound; lia).
  destruct (update_spec
              (fun w => js_and w (js_not (js_and (js_shl 1 (js_and x0 31)) 4294967295)))
              (fun _ => false) m x0 y0 Hwf Hx0 Hy0) as (H1 & H2 & H3).
  - intros w. apply js_and_int32.
  - intros w k Hk. rewrite js_and_31, testbit_js_and, testbit_js_not, testbit_bitmask
      by assumption.
    destruct (k =? x0 mod 32); [apply andb_false_r | apply andb_true_r].
  - split; [exact H1 |]. split; [exact H2 |].
    intros x y Hx Hy. unfold unset. rewrite H3 by assumption.
    destruct ((x =? x0) && (y =? y0)); [now rewrite andb_false_r | now rewrite andb_true_r].
Qed.

Lemma flip_spec m x0 y0 :
  wellFormed m -> 0 <= x0 < 32 * rowSize m -> 0 <= y0 < height m ->
  wellFormed (flip m x0 y0) /\ sameShape m (flip m x0 y0) /\
  forall x y, 0 <= x < 32 * rowSize m -> 0 <= y < height m ->
    get (flip m x0 y0) x y = xorb (get m x y) ((x =? x0) && (y =? y0)).
Proof.
  intros Hwf Hx0 Hy0.
  assert (0 <= x0 mod 32 < 32) as Hk0 by (apply Z.mod_pos_bound; lia).
  destruct (update_spec
              (fun w => js_xor w (js_and (js_shl 1 (js_and x0 31)) 4294967295))
              negb m x0 y0 Hwf Hx0 Hy0) as (H1 & H2 & H3).
  - intros w. apply js_xor_int32.
  - intros w k Hk. rewrite js_and_31, testbit_js_xor, testbit_bitmask by assumption.
    destruct (k =? x0 mod 32); [apply xorb_true_r | apply xorb_false_r].
  - split; [exact H1 |]. split; [exact H2 |].
    intros x y Hx Hy. unfold flip. rewrite H3 by assumption.
    destruct ((x =? x0) && (y =? y0)); [now rewrite xorb_true_r | now rewrite xorb_false_r].
Qed.

(** Two well-formed matrices of one shape with the same packed bits are the
    same matrix. *)
Lemma matrix_ext_get a b :
  wellFormed a -> wellFormed b -> sameShape a b ->
  (forall x y, 0 <= x < 32 * rowSize a -> 0 <= y < height a -> get b x y = get a x y) ->
  b = a.
Proof.
  intros Ha Hb Hs Hg. apply matrix_ext; [assumption | assumption |].
  intros y c Hy Hc.
  destruct Hs as (Hw & Hh & Hr & Hl).
  destruct (word_lookup a y c Ha Hy Hc) as (wa & Ea & Ia & Ba).
  destruct (word_lookup b y c Hb ltac:(lia) ltac:(lia)) as (wb & Eb & Ib & Bb).
  rewrite Hr in Eb. rewrite Ea, Eb. f_equal.
  apply int32_ext; [assumption | assumption |].
  intros k Hk. rewrite Ba, Bb by assumption. apply Hg; lia.
Qed.

End SingleBits.

(** ** BitMatrix: what [set], [unset], [flip] and [clear] do to the bits *)

Ltac fixture_wellFormed :=
  constructor;
  cbn [BitMatrix.width BitMatrix.height BitMatrix.rowSize BitMatrix.bits
       matrix35x3 oneBit40x3 image10 dark1 darkImage4 image1];
  try lia; try reflexivity;
  repeat constructor; unfold BitMatrix.int32; lia.

Section BitUpdates.
Import BitMatrix.

(** X1. [set(x0, y0)] inside a well-formed matrix makes that bit read true
    and changes no other bit of the packed rows; the matrix stays well
    formed, and setting the bit a second time changes nothing. *)
Theorem set_changes_one_bit m x0 y0 :
  wellFormed m -> 0 <= x0 < width m -> 0 <= y0 < height m ->
  get (set m x0 y0) x0 y0 = true /\
  (forall x y, 0 <= x < 32 * rowSize m -> 0 <= y < height m ->
     x <> x0 \/ y <> y0 -> get (set m x0 y0) x y = get m x y) /\
  wellFormed (set m x0 y0) /\
  set (set m x0 y0) x0 y0 = set m x0 y0.
Proof.
  intros Hwf Hx0 Hy0. pose proof (rowSize_bounds m Hwf) as [_ Hrw].
  destruct (set_spec m x0 y0 Hwf ltac:(lia) Hy0) as (Hwf1 & Hs1 & Hg1).
  split; [| split; [| split]].
  - rewrite Hg1 by lia. rewrite !Z.eqb_refl. apply orb_true_r.
  - intros x y Hx Hy Hne. rewrite Hg1 by assumption.
    destruct (Z.eqb_spec x x0), (Z.eqb_spec y y0); cbn [andb];
      try apply orb_false_r; lia.
  - exact Hwf1.
  - pose proof Hs1 as (Hw1 & Hh1 & Hr1 & Hl1).
    destruct (set_spec (set m x0 y0) x0 y0 Hwf1) as (Hwf2 & Hs2 & Hg2);
      [rewrite Hr1; lia | rewrite Hh1; lia |].
    apply matrix_ext_get; [assumption | assumption | assumption |].
    intros x y Hx Hy. rewrite Hg2 by assumption.
    rewrite Hr1 in Hx. rewrite Hh1 in Hy. rewrite Hg1 by assumption.
    now destruct (get m x y), ((x =? x0) && (y =? y0)).
Qed.

Lemma set_changes_one_bit_witness :
  get (set matrix35x3 34 1) 34 1 = true /\
  set (set matrix35x3 34 1) 34 1 = set matrix35x3 34 1.
Proof.
  destruct (set_changes_one_bit matrix35x3 34 1) as (H1 & _ & _ & H4).
  - fixture_wellFormed.
  - cbn [width matrix35x3]; lia.
  - cbn [height matrix35x3]; lia.
  - split; [exact H1 | exact H4].
Defined.

(** X2. [unset(x0, y0)] inside a well-formed matrix makes that bit read
    false and changes no other bit of the packed rows; it undoes a [set] of
    a bit that was not set before. *)
Theorem unset_changes_one_bit m x0 y0 :
  wellFormed m -> 0 <= x0 < width m -> 0 <= y0 < height m ->
  get (unset m x0 y0) x0 y0 = false /\
  (forall x y, 0 <= x < 32 * rowSize m -> 0 <= y < height m ->
     x <> x0 \/ y <> y0 -> get (unset m x0 y0) x y = get m x y) /\
  wellFormed (unset m x0 y0) /\
  (get m x0 y0 = false -> unset (set m x0 y0) x0 y0 = m).
Proof.
  intros Hwf Hx0 Hy0. pose proof (rowSize_bounds m Hwf) as [_ Hrw].
  destruct (unset_spec m x0 y0 Hwf ltac:(lia) Hy0) as (Hwf1 & Hs1 & Hg1).
  split; [| split; [| split]].
  - rewrite Hg1 by lia. rewrite !Z.eqb_refl. apply andb_false_r.
  - intros x y Hx Hy Hne. rewrite Hg1 by assumption.
    destruct (Z.eqb_spec x x0), (Z.eqb_spec y y0); cbn [andb negb];
      try apply andb_true_r; lia.
  - exact Hwf1.
  - intros Hoff.
    destruct (set_spec m x0 y0 Hwf ltac:(lia) Hy0) as (Hwf2 & Hs2 & Hg2).
    pose proof Hs2 as (Hw2 & Hh2 & Hr2 & Hl2).
    destruct (unset_spec (set m x0 y0) x0 y0 Hwf2) as (Hwf3 & Hs3 & Hg3);
      [rewrite Hr2; lia | rewrite Hh2; lia |].
    apply matrix_ext_get; [assumption | assumption | |].
    + eapply sameShape_trans; eassumption.
    + intros x y Hx Hy. rewrite Hg3 by (rewrite ?Hr2, ?Hh2; assumption).
      rewrite Hg2 by assumption.
      destruct (Z.eqb_spec x x0) as [->|]; [| cbn [andb negb]; now rewrite orb_false_r, andb_true_r].
      destruct (Z.eqb_spec y y0) as [->|]; [| cbn [andb negb]; now rewrite orb_false_r, andb_true_r].
      rewrite Hoff. reflexivity.
Qed.

Lemma unset_changes_one_bit_witness :
  get (unset matrix35x3 0 0) 0 0 = false /\
  unset (set matrix35x3 34 1) 34 1 = matrix35x3.
Proof.
  split.
  - refine (proj1 (unset_changes_one_bit matrix35x3 0 0 _ _ _)).
    + fixture_wellFormed.
    + cbn [width matrix35x3]; lia.
    + cbn [height matrix35x3]; lia.
  - refine (proj2 (proj2 (proj2 (unset_changes_one_bit matrix35x3 34 1 _ _ _))) _).
    + fixture_wellFormed.
    + cbn [width matrix35x3]; lia.
    + cbn [height matrix35x3]; lia.
    + vm_compute; reflexivity.
Defined.

(** X3. [flip(x0, y0)] inside a well-formed matrix negates that bit and
    changes no other bit of the packed rows; flipping the same bit twice
    gives the matrix back. *)
Theorem flip_changes_one_bit m x0 y0 :
  wellFormed m -> 0 <= x0 < width m -> 0 <= y0 < height m ->
  get (flip m x0 y0) x0 y0 = negb (get m x0 y0) /\
  (forall x y, 0 <= x < 32 * rowSize m -> 0 <= y < height m ->
     x <> x0 \/ y <> y0 -> get (flip m x0 y0) x y = get m x y) /\
  wellFormed (flip m x0 y0) /\
  flip (flip m x0 y0) x0 y0 = m.
Proof.
  intros Hwf Hx0 Hy0. pose proof (rowSize_bounds m Hwf) as [_ Hrw].
  destruct (flip_spec m x0 y0 Hwf ltac:(lia) Hy0) as (Hwf1 & Hs1 & Hg1).
  split; [| split; [| split]].
  - rewrite Hg1 by lia. rewrite !Z.eqb_refl. apply xorb_true_r.
  - intros x y Hx Hy Hne. rewrite Hg1 by assumption.
    destruct (Z.eqb_spec x x0), (Z.eqb_spec y y0); cbn [andb];
      try apply xorb_false_r; lia.
  - exact Hwf1.
  - pose proof Hs1 as (Hw1 & Hh1 & Hr1 & Hl1).
    destruct (flip_spec (flip m x0 y0) x0 y0 Hwf1) as (Hwf2 & Hs2 & Hg2);
      [rewrite Hr1; lia | rewrite Hh1; lia |].
    apply matrix_ext_get; [assumption | assumption | |].
    + eapply sameShape_trans; eassumption.
    + intros x y Hx Hy. rewrite Hg2 by (rewrite ?Hr1, ?Hh1; assumption).
      rewrite Hg1 by assumption.
      now destruct (get m x y), ((x =? x0) && (y =? y0)).
Qed.

Lemma flip_changes_one_bit_witness :
  get (flip matrix35x3 34 1) 34 1 = negb (get matrix35x3 34 1) /\
  flip (flip matrix35x3 34 1) 34 1 = matrix35x3.
Proof.
  destruct (flip_changes_one_bit matrix35x3 34 1) as (H1 & _ & _ & H4).
  - fixture_wellFormed.
  - cbn [width matrix35x3]; lia.
  - cbn [height matrix35x3]; lia.
  - split; [exact H1 | exact H4].
Defined.

Lemma lookup_repeat {A} (x : A) n (i : nat) : (i < n)%nat -> repeat x n !! i = Some x.
Proof.
  revert i. induction n as [|n IH]; intros i Hi; [lia |].
  destruct i as [|i]; [reflexivity |]. cbn. apply IH. lia.
Qed.

Lemma clear_bits m : bits (clear m) = repeat 0 (length (bits m)).
Proof.
  unfold clear, withBits. cbn [bits].
  pose proof (fold_typedSet (fun _ => 0) 0 (length (bits m)) (bits m) ltac:(lia)) as H.
  cbv zeta in H. cbn [Z.add] in H. destruct H as [Hlen Hget].
  set (l := fold_left _ _ _) in *.
  apply list_eq. intros i. specialize (Hget (Z.of_nat i)).
  unfold typedGet in Hget.
  destruct (Z.ltb_spec (Z.of_nat i) 0); [lia |]. rewrite Nat2Z.id in Hget.
  rewrite Hget, Z.add_0_l. destruct (Z.leb_spec 0 (Z.of_nat i)); [| lia].
  destruct (Z.ltb_spec (Z.of_nat i) (Z.of_nat (length (bits m)))); cbn [andb].
  - symmetry. apply lookup_repeat. lia.
  - rewrite !lookup_ge_None_2; [reflexivity | rewrite repeat_length; lia | lia].
Qed.

(** X4. After [clear()] every [get] returns false, whatever the
    coordinates; the matrix keeps its shape, and a well-formed matrix is
    again what the constructor makes for its dimensions. *)
Theorem clear_unsets_every_bit m :
  (forall x y, get (clear m) x y = false) /\
  sameShape m (clear m) /\
  (wellFormed m -> new (width m) (height m) = Ok (clear m)).
Proof.
  split; [| split].
  - intros x y. unfold get. rewrite clear_bits.
    exact (get_zeros (width m) (height m) (rowSize (clear m)) (length (bits m)) x y).
  - unfold sameShape. rewrite clear_bits, repeat_length.
    unfold clear, withBits. now cbn [width height rowSize].
  - intros [Hw Hh Hr Hl Hws]. unfold new.
    destruct (Z.ltb_spec (width m) 1); [lia |].
    destruct (Z.ltb_spec (height m) 1); [lia |]. cbn [orb].
    f_equal. pose proof (clear_bits m) as Hb.
    unfold clear, withBits in *. cbn [bits] in Hb. rewrite Hb.
    rewrite <- Hr, <- Hl, Nat2Z.id. reflexivity.
Qed.

Lemma clear_unsets_every_bit_witness :
  new (width matrix35x3) (height matrix35x3) = Ok (clear matrix35x3).
Proof.
  refine (proj2 (proj2 (clear_unsets_every_bit matrix35x3)) _).
  fixture_wellFormed.
Defined.

End BitUpdates.

(** ** BitMatrix: loops of [set] calls *)

Section Regions.
Import BitMatrix.

Lemma In_range a b i : In i (range a b) <-> a <= i < b.
Proof.
  unfold range. rewrite in_map_iff. split.
  - intros (k & <- & Hk). apply elem_of_upto in Hk. lia.
  - intros H. exists (i - a). split; [lia |]. apply elem_of_upto. lia.
Qed.

(** Two nested loops are one loop over the pairs (outer value, inner value). *)
Lemma fold_nested {A} (f : A -> Z -> Z -> A) (l1 l2 : list Z) : forall a,
  fold_left (fun a y => fold_left (fun a x => f a y x) l2 a) l1 a
  = fold_left (fun a c => f a (fst c) (snd c)) (list_prod l1 l2) a.
Proof.
  induction l1 as [|y l1 IH]; intros a; [reflexivity |].
  cbn [fold_left list_prod]. rewrite fold_left_app, IH. f_equal.
  generalize a. clear. induction l2 as [|x l2 IH]; intros a; [reflexivity |].
  cbn [fold_left map fst snd]. apply IH.
Qed.

(** A loop with a guarded body is the loop of the body over the values that
    pass the guard. *)
Lemma fold_guarded {A B} (p : B -> bool) (g : A -> B -> A) (l : list B) : forall a,
  fold_left (fun a x => if p x then g a x else a) l a = fold_left g (List.filter p l) a.
Proof.
  induction l as [|x l IH]; intros a; [reflexivity |].
  cbn [fold_left List.filter]. rewrite IH. now destruct (p x).
Qed.

(** A run of [set] calls at the (row, column) pairs [cs]. *)
Lemma setMany_spec (cs : list (Z * Z)) : forall m,
  wellFormed m ->
  (forall c, In c cs -> 0 <= snd c < 32 * rowSize m /\ 0 <= fst c < height m) ->
  let m' := fold_left (fun mt c => set mt (snd c) (fst c)) cs m in
  wellFormed m' /\ sameShape m m' /\
  forall x y, 0 <= x < 32 * rowSize m -> 0 <= y < height m ->
    get m' x y = get m x y || existsb (fun c => (snd c =? x) && (fst c =? y)) cs.
Proof.
  induction cs as [|c cs IH]; intros m Hwf Hin; cbv zeta.
  - cbn [fold_left existsb]. split; [assumption |]. split; [apply sameShape_refl |].
    intros x y _ _. now rewrite orb_false_r.
  - destruct (Hin c ltac:(now left)) as [Hx0 Hy0]. cbn [fold_left existsb].
    destruct (set_spec m (snd c) (fst c) Hwf Hx0 Hy0) as (Hwf1 & (Hw1 & Hh1 & Hr1 & Hl1) & Hg1).
    set (m1 := set m (snd c) (fst c)) in *.
    specialize (IH m1 Hwf1). cbv zeta in IH. rewrite Hh1, Hr1 in IH.
    destruct IH as (Hwf' & Hs' & Hg').
    { intros j Hj. apply Hin. now right. }
    split; [assumption |]. split.
    { eapply sameShape_trans; [| exact Hs']. repeat split; assumption. }
    intros x y Hx Hy. rewrite Hg', Hg1 by assumption.
    rewrite (Z.eqb_sym x), (Z.eqb_sym y). now rewrite orb_assoc.
Qed.

(** The same run written on the array of words, as [setRegion] has it. *)
Lemma setMany_bits (cs : list (Z * Z)) : forall m,
  fold_left (fun mt c => set mt (snd c) (fst c)) cs m
  = withBits m
      (fold_left
         (fun bits c =>
            typedSet bits (fst c * rowSize m + snd c / 32)
              (js_or (orUndefined (typedGet bits (fst c * rowSize m + snd c / 32)))
                     (js_and (js_shl 1 (js_and (snd c) 31)) 4294967295)))
         cs (bits m)).
Proof.
  induction cs as [|c cs IH]; intros m.
  - now destruct m.
  - cbn [fold_left]. rewrite IH. unfold set at 2 3 4, withBits.
    cbn [width height rowSize bits]. reflexivity.
Qed.

Lemma existsb_false {A} (p : A -> bool) l :
  (forall c, In c l -> p c = false) -> existsb p l = false.
Proof.
  intros H. destruct (existsb p l) eqn:E; [| reflexivity].
  apply existsb_exists in E as (c & Hc & Hp). rewrite (H c Hc) in Hp. discriminate.
Qed.

End Regions.

(** ** BitMatrix: [setRegion] and [parseFromBooleanArray] *)

Section Filling.
Import BitMatrix.

Lemma setRegion_sets m left_ top regionWidth regionHeight :
  0 <= top -> 0 <= left_ -> 1 <= regionHeight -> 1 <= regionWidth ->
  top + regionHeight <= height m -> left_ + regionWidth <= width m ->
  setRegion m left_ top regionWidth regionHeight
  = Ok (fold_left (fun mt c => set mt (snd c) (fst c))
          (list_prod (range top (top + regionHeight)) (range left_ (left_ + regionWidth))) m).
Proof.
  intros Ht Hl Hh Hw Hb Hr. unfold setRegion.
  destruct (Z.ltb_spec top 0); [lia |]. destruct (Z.ltb_spec left_ 0); [lia |].
  destruct (Z.ltb_spec regionHeight 1); [lia |].
  destruct (Z.ltb_spec regionWidth 1); [lia |].
  destruct (Z.gtb_spec (top + regionHeight) (height m)); [lia |].
  destruct (Z.gtb_spec (left_ + regionWidth) (width m)); [lia |].
  cbn [orb]. f_equal. rewrite setMany_bits. f_equal.
  exact (fold_nested
           (fun bits y x =>
              typedSet bits (y * rowSize m + x / 32)
                (js_or (orUndefined (typedGet bits (y * rowSize m + x / 32)))
                       (js_and (js_shl 1 (js_and x 31)) 4294967295)))
           _ _ (bits m)).
Qed.

Lemma existsb_region top bottom left_ right_ x y :
  existsb (fun c : Z * Z => (snd c =? x) && (fst c =? y))
          (list_prod (range top bottom) (range left_ right_))
  = (left_ <=? x) && (x <? right_) && (top <=? y) && (y <? bottom).
Proof.
  destruct ((left_ <=? x) && (x <? right_) && (top <=? y) && (y <? bottom)) eqn:E.
  - apply existsb_exists. exists (y, x). cbn [fst snd]. rewrite !Z.eqb_refl.
    split; [| reflexivity]. apply in_prod; apply In_range; lia.
  - apply existsb_false. intros [cy cx] Hc. cbn [fst snd].
    apply in_prod_iff in Hc as [Hy Hx]. apply In_range in Hy, Hx.
    destruct (Z.eqb_spec cx x), (Z.eqb_spec cy y); try reflexivity. lia.
Qed.

(** X5. [setRegion(left, top, width, height)] throws
    [IllegalArgumentException] when [left] or [top] is negative, a side is
    below 1, or the region does not fit in the matrix.  Otherwise it sets the
    bits of the rectangle and changes no other bit of the packed rows. *)
Theorem setRegion_fills_rectangle m left_ top regionWidth regionHeight :
  wellFormed m ->
  (top < 0 \/ left_ < 0 \/ regionHeight < 1 \/ regionWidth < 1 \/
   height m < top + regionHeight \/ width m < left_ + regionWidth ->
   setRegion m left_ top regionWidth regionHeight = Throw IllegalArgumentException) /\
  (0 <= top -> 0 <= left_ -> 1 <= regionHeight -> 1 <= regionWidth ->
   top + regionHeight <= height m -> left_ + regionWidth <= width m ->
   exists m',
     setRegion m left_ top regionWidth regionHeight = Ok m' /\
     wellFormed m' /\ sameShape m m' /\
     forall x y, 0 <= x < 32 * rowSize m -> 0 <= y < height m ->
       get m' x y
       = get m x y ||
         ((left_ <=? x) && (x <? left_ + regionWidth) &&
          (top <=? y) && (y <? top + regionHeight))).
Proof.
  intros Hwf. split.
  - intros Hbad. unfold setRegion.
    destruct (Z.ltb_spec top 0); [reflexivity |].
    destruct (Z.ltb_spec left_ 0); [reflexivity |]. cbn [orb].
    destruct (Z.ltb_spec regionHeight 1); [reflexivity |].
    destruct (Z.ltb_spec regionWidth 1); [reflexivity |]. cbn [orb].
    destruct (Z.gtb_spec (top + regionHeight) (height m)); [reflexivity |].
    destruct (Z.gtb_spec (left_ + regionWidth) (width m)); [reflexivity |]. lia.
  - intros Ht Hl Hh Hw Hb Hr. pose proof (rowSize_bounds m Hwf) as [_ Hrw].
    eexists. split; [now apply setRegion_sets |].
    destruct (setMany_spec
                (list_prod (range top (top + regionHeight))
                           (range left_ (left_ + regionWidth))) m Hwf)
      as (Hwf' & Hs' & Hg').
    { intros [cy cx] Hc. cbn [fst snd].
      apply in_prod_iff in Hc as [Hy Hx]. apply In_range in Hy, Hx. lia. }
    split; [exact Hwf' |]. split; [exact Hs' |].
    intros x y Hx Hy. rewrite Hg' by assumption. now rewrite existsb_region.
Qed.

Lemma setRegion_fills_rectangle_witness :
  setRegion matrix35x3 30 1 6 2 = Throw IllegalArgumentException /\
  exists m',
    setRegion matrix35x3 30 1 5 2 = Ok m' /\
    forall x y, 0 <= x < 32 * rowSize matrix35x3 -> 0 <= y < height matrix35x3 ->
      get m' x y
      = get matrix35x3 x y ||
        ((30 <=? x) && (x <? 30 + 5) && (1 <=? y) && (y <? 1 + 2)).
Proof.
  split.
  - refine (proj1 (setRegion_fills_rectangle matrix35x3 30 1 6 2 _) _).
    + fixture_wellFormed.
    + cbn [width height matrix35x3]; lia.
  - destruct (proj2 (setRegion_fills_rectangle matrix35x3 30 1 5 2 ltac:(fixture_wellFormed)))
      as (m' & H1 & _ & _ & H4); try (cbn [width height matrix35x3]; lia).
    exists m'. split; [exact H1 | exact H4].
Defined.

End Filling.

Section FromBooleans.
Import BitMatrix.

(** What the constructor makes. *)
Lemma new_fresh w h :
  1 <= w < 2 ^ 31 -> 1 <= h < 2 ^ 31 ->
  exists z, new w h = Ok z /\ wellFormed z /\ width z = w /\ height z = h /\
            forall x y, get z x y = false.
Proof.
  intros Hw Hh. unfold new.
  destruct (Z.ltb_spec w 1); [lia |]. destruct (Z.ltb_spec h 1); [lia |]. cbn [orb].
  eexists. split; [reflexivity |].
  assert (0 <= (w + 31) / 32) by (apply Z.div_pos; lia).
  split; [| split; [reflexivity | split; [reflexivity | intros; apply get_zeros]]].
  constructor; cbn [width height rowSize bits]; try assumption; try reflexivity.
  - rewrite repeat_length. apply Z2Nat.id. nia.
  - apply List.Forall_forall. intros v Hv. apply repeat_spec in Hv. subst v.
    unfold int32. lia.
Qed.

(** The element [image[y][x]] as the test [if (imageI[j])] sees it. *)
Lemma existsb_filter_prod (p : Z * Z -> bool) w h x y :
  existsb (fun c : Z * Z => (snd c =? x) && (fst c =? y))
          (List.filter p (list_prod (upto h) (upto w)))
  = (0 <=? x) && (x <? w) && (0 <=? y) && (y <? h) && p (y, x).
Proof.
  destruct ((0 <=? x) && (x <? w) && (0 <=? y) && (y <? h) && p (y, x)) eqn:E.
  - apply andb_prop in E as [E Hp].
    apply existsb_exists. exists (y, x). cbn [fst snd]. rewrite !Z.eqb_refl.
    split; [| reflexivity]. apply filter_In. split; [| exact Hp].
    apply in_prod; apply elem_of_upto; lia.
  - apply existsb_false. intros [cy cx] Hc. cbn [fst snd].
    apply filter_In in Hc as [Hc Hp].
    apply in_prod_iff in Hc as [Hy Hx]. apply elem_of_upto in Hy, Hx.
    destruct (Z.eqb_spec cx x), (Z.eqb_spec cy y); try reflexivity. subst.
    rewrite Hp in E.
    destruct (Z.leb_spec 0 x), (Z.ltb_spec x w), (Z.leb_spec 0 y), (Z.ltb_spec y h);
      cbn [andb] in E; try discriminate; lia.
Qed.

Lemma rows_by_index (image : list (list bool)) (n : nat) :
  Forall (fun row => length row = n) image ->
  map (fun y => map (fun x => default false (default [] (image !! Z.to_nat y) !! Z.to_nat x))
                    (upto (Z.of_nat n)))
      (upto (Z.of_nat (length image)))
  = image.
Proof.
  intros Hall. apply list_eq. intros i. rewrite list_lookup_fmap.
  destruct (image !! i) as [row|] eqn:Erow.
  - assert (i < length image)%nat as Hi by (eapply lookup_lt_Some; eassumption).
    rewrite lookup_upto by lia. cbn [fmap option_fmap option_map].
    rewrite Nat2Z.id, Erow. cbn [default]. f_equal.
    assert (length row = n) as Hn.
    { exact (Forall_lookup_1 _ _ _ _ Hall Erow). }
    apply list_eq. intros j. rewrite list_lookup_fmap.
    destruct (row !! j) as [b|] eqn:Eb.
    + assert (j < length row)%nat as Hj by (eapply lookup_lt_Some; eassumption).
      rewrite lookup_upto by lia. cbn [fmap option_fmap option_map].
      unfold id. now rewrite Nat2Z.id, Eb.
    + apply lookup_ge_None in Eb.
      rewrite lookup_ge_None_2; [reflexivity |]. rewrite length_upto. lia.
  - apply lookup_ge_None in Erow.
    rewrite lookup_ge_None_2; [reflexivity |]. rewrite length_upto. lia.
Qed.

(** X6. [parseFromBooleanArray(image)] fails with a [TypeError] on an array
    without rows and throws [IllegalArgumentException] when the first row is
    empty.  Otherwise the matrix is as wide as the first row and as high as
    the array, bit [(x, y)] is [image[y][x]] (false where a row is too
    short), the unused bits of the last word of each row are clear, and the
    rows of the matrix are the rows of a rectangular [image]. *)
Theorem parseFromBooleanArray_bits :
  parseFromBooleanArray [] = None /\
  (forall rest, parseFromBooleanArray ([] :: rest) = Some (Throw IllegalArgumentException)) /\
  (forall row0 rest,
     1 <= Z.of_nat (length row0) < 2 ^ 31 -> Z.of_nat (length (row0 :: rest)) < 2 ^ 31 ->
     exists m,
       parseFromBooleanArray (row0 :: rest) = Some (Ok m) /\
       wellFormed m /\ cleanPadding m /\
       width m = Z.of_nat (length row0) /\ height m = Z.of_nat (length (row0 :: rest)) /\
       (forall x y, 0 <= x < width m -> 0 <= y < height m ->
          get m x y
          = default false (default [] ((row0 :: rest) !! Z.to_nat y) !! Z.to_nat x)) /\
       (Forall (fun row => length row = length row0) rest -> rowsOf m = row0 :: rest)).
Proof.
  split; [reflexivity |]. split; [reflexivity |].
  intros row0 rest Hw Hh. set (image := row0 :: rest) in *.
  set (w := Z.of_nat (length row0)) in *. set (h := Z.of_nat (length image)) in *.
  assert (1 <= h) as Hh1 by (subst h image; cbn [length]; lia).
  destruct (new_fresh w h ltac:(lia) ltac:(lia)) as (z & Ez & Hwfz & Hwz & Hhz & Hgz).
  set (p := fun c : Z * Z =>
              default false (default [] (image !! Z.to_nat (fst c)) !! Z.to_nat (snd c))).
  pose proof (rowSize_bounds z Hwfz) as [_ Hrw].
  destruct (setMany_spec (List.filter p (list_prod (upto h) (upto w))) z Hwfz)
    as (Hwf' & Hs' & Hg').
  { intros [cy cx] Hc. cbn [fst snd]. apply filter_In in Hc as [Hc _].
    apply in_prod_iff in Hc as [Hy Hx]. apply elem_of_upto in Hy, Hx. lia. }
  set (m := fold_left _ _ z) in *.
  assert (parseFromBooleanArray image = Some (Ok m)) as Eparse.
  { unfold parseFromBooleanArray. subst image. cbv beta iota zeta. fold w.
    change (Z.of_nat (length (row0 :: rest))) with h. rewrite Ez. cbn [bind].
    do 2 f_equal. subst m.
    rewrite <- (fold_guarded p (fun mt c => set mt (snd c) (fst c))).
    exact (fold_nested
             (fun bits i j =>
                if default false (default [] ((row0 :: rest) !! Z.to_nat i) !! Z.to_nat j)
                then set bits j i else bits) _ _ z). }
  destruct Hs' as (Hw' & Hh' & Hr' & Hl').
  assert (forall x y, 0 <= x < 32 * rowSize z -> 0 <= y < h ->
            get m x y = (x <? w) && p (y, x)) as Hget.
  { intros x y Hx Hy. rewrite Hg' by lia. rewrite Hgz, existsb_filter_prod.
    cbn [orb]. destruct (Z.leb_spec 0 x), (Z.leb_spec 0 y), (Z.ltb_spec y h); try lia.
    cbn [andb]. now rewrite !andb_true_r. }
  exists m. split; [exact Eparse |]. split; [exact Hwf' |].
  split; [| split; [congruence | split; [congruence | split]]].
  - intros x y Hx Hy. rewrite Hw', Hr', Hh' in *. rewrite Hget by lia.
    destruct (Z.ltb_spec x w); [lia | reflexivity].
  - intros x y Hx Hy. rewrite Hw', Hh' in *. rewrite Hget by lia.
    destruct (Z.ltb_spec x w); [reflexivity | lia].
  - intros Hrect. unfold rowsOf. rewrite Hw', Hh', Hwz, Hhz.
    etransitivity;
      [| apply (rows_by_index image (length row0)); constructor;
         [reflexivity | exact Hrect]].
    apply map_ext_in. intros y Hy. apply map_ext_in. intros x Hx.
    apply elem_of_upto in Hy, Hx. rewrite Hget by (fold w in Hx; lia).
    destruct (Z.ltb_spec x w); [reflexivity | fold w in Hx; lia].
Qed.

Lemma parseFromBooleanArray_bits_witness :
  exists m,
    parseFromBooleanArray [[true; false]; [false; true]] = Some (Ok m) /\
    rowsOf m = [[true; false]; [false; true]].
Proof.
  destruct (proj2 (proj2 parseFromBooleanArray_bits) [true; false] [[false; true]])
    as (m & H1 & _ & _ & _ & _ & _ & H7).
  - cbn [length]; lia.
  - cbn [length]; lia.
  - exists m. split; [exact H1 |]. apply H7. repeat constructor.
Defined.

End FromBooleans.

(** ** BitMatrix: [xor] *)

Section Xor.
Import BitMatrix.

(** A run of [n] updates in place from [base] on. *)
Lemma fold_typedUpdate (g : Z -> Z -> Z) base (n : nat) l0 :
  0 <= base ->
  let l := fold_left
             (fun l k => typedSet l (base + k) (g k (orUndefined (typedGet l (base + k)))))
             (upto (Z.of_nat n)) l0 in
  length l = length l0 /\
  forall j, typedGet l j
            = if (base <=? j) && (j <? base + Z.of_nat n) && (j <? Z.of_nat (length l0))
              then Some (g (j - base) (orUndefined (typedGet l0 j))) else typedGet l0 j.
Proof.
  intros Hb. induction n as [|n [IHlen IH]].
  - split; [reflexivity |]. intros j. change (Z.of_nat 0) with 0.
    rewrite Z.add_0_r. cbn [upto Z.to_nat seq map fold_left].
    destruct (Z.leb_spec base j), (Z.ltb_spec j base); cbn [andb];
      try reflexivity; lia.
  - cbv zeta. rewrite upto_succ, fold_left_app. cbn [fold_left].
    split; [now rewrite length_typedSet |].
    intros j. rewrite typedGet_typedSet, !IH, IHlen.
    destruct (Z.eqb_spec j (base + Z.of_nat n)), (Z.leb_spec base j),
      (Z.ltb_spec j (base + Z.of_nat n)), (Z.ltb_spec j (base + Z.of_nat (S n))),
      (Z.ltb_spec j (Z.of_nat (length l0))), (Z.leb_spec 0 j);
      cbn [andb]; try reflexivity; try lia.
    subst j.
    destruct (Z.leb_spec base (base + Z.of_nat n)); [| lia].
    destruct (Z.ltb_spec (base + Z.of_nat n) (base + Z.of_nat n)); [lia |].
    cbn [andb]. do 2 f_equal. lia.
Qed.

(** The words [xor] reads from its row buffer. *)
Lemma getRow_rowArray mask y c :
  wellFormed mask -> 0 <= c < rowSize mask ->
  typedGet (BitArray.getBitArray
              (getRow mask y (Some (BitArray.new (width mask / 32 + 1))))) c
  = Some (wordAt mask y c).
Proof.
  intros Hwf Hc. pose proof (rowSize_bounds mask Hwf) as [Hrs Hrw].
  pose proof (wf_width mask Hwf) as Hw. pose proof (wf_rowSize mask Hwf) as Hr.
  unfold getRow, BitArray.getBitArray, BitArray.getSize.
  set (row := if BitArray.size (BitArray.new (width mask / 32 + 1)) <? width mask
              then BitArray.new (width mask)
              else BitArray.clear (BitArray.new (width mask / 32 + 1))).
  assert (Z.of_nat (length (BitArray.bits row)) = rowSize mask) as Hlen.
  { subst row. cbn [BitArray.size BitArray.new].
    destruct (Z.ltb_spec (width mask / 32 + 1) (width mask)) as [Hlt|Hge].
    - unfold BitArray.new. cbn [BitArray.bits].
      rewrite repeat_length, Hr. apply Z2Nat.id. lia.
    - assert (width mask = 1) as Hone by (Z.div_mod_to_equations; lia).
      rewrite Hr, Hone. reflexivity. }
  rewrite fold_setBulk. cbn [BitArray.bits].
  replace (upto (rowSize mask)) with (upto (Z.of_nat (Z.to_nat (rowSize mask))))
    by (now rewrite Z2Nat.id by lia).
  destruct (fold_typedSet (fun x => orUndefined (typedGet (bits mask) (y * rowSize mask + x)))
              0 (Z.to_nat (rowSize mask)) (BitArray.bits row) ltac:(lia)) as [_ Hg].
  rewrite Hg.
  destruct (Z.leb_spec 0 c), (Z.ltb_spec c (0 + Z.of_nat (Z.to_nat (rowSize mask)))),
    (Z.ltb_spec c (Z.of_nat (length (BitArray.bits row)))); try lia.
  cbn [andb]. unfold wordAt. now rewrite Z.sub_0_r.
Qed.

(** The array of words after the first [k] turns of the outer loop. *)
Lemma xor_rows m mask (k : nat) :
  wellFormed m -> wellFormed mask ->
  width mask = width m -> height mask = height m -> Z.of_nat k <= height m ->
  let l :=
    fold_left
      (fun bits y =>
         let offset := y * rowSize m in
         let row := BitArray.getBitArray
                      (getRow mask y (Some (BitArray.new (width m / 32 + 1)))) in
         fold_left
           (fun bits x =>
              typedSet bits (offset + x)
                (js_xor (orUndefined (typedGet bits (offset + x)))
                        (orUndefined (typedGet row x))))
           (upto (rowSize m)) bits)
      (upto (Z.of_nat k)) (bits m) in
  length l = length (bits m) /\
  forall y c, 0 <= y < height m -> 0 <= c < rowSize m ->
    typedGet l (y * rowSize m + c)
    = Some (if y <? Z.of_nat k then js_xor (wordAt m y c) (wordAt mask y c)
            else wordAt m y c).
Proof.
  intros Hwf Hwfm Hw Hh Hk. pose proof (rowSize_bounds m Hwf) as [Hrs _].
  pose proof (wf_length m Hwf) as Hlen.
  assert (rowSize mask = rowSize m) as Hr
    by (rewrite (wf_rowSize m Hwf), (wf_rowSize mask Hwfm); congruence).
  induction k as [|k IH]; cbv zeta.
  - split; [reflexivity |]. intros y c Hy Hc. cbn [upto Z.to_nat seq map fold_left].
    destruct (word_lookup m y c Hwf Hy Hc) as (w & Ew & _ & _).
    destruct (Z.ltb_spec y (Z.of_nat 0)); [lia |]. unfold wordAt. now rewrite Ew.
  - rewrite upto_succ, fold_left_app. cbn [fold_left].
    destruct IH as [IHlen IH]; [lia |]. set (l := fold_left _ (upto (Z.of_nat k)) (bits m)) in *.
    replace (upto (rowSize m)) with (upto (Z.of_nat (Z.to_nat (rowSize m))))
      by (now rewrite Z2Nat.id by lia).
    destruct (fold_typedUpdate
                (fun x old =>
                   js_xor old
                     (orUndefined
                        (typedGet (BitArray.getBitArray
                                     (getRow mask (Z.of_nat k)
                                        (Some (BitArray.new (width m / 32 + 1))))) x)))
                (Z.of_nat k * rowSize m) (Z.to_nat (rowSize m)) l ltac:(nia))
      as [Hl' Hg'].
    split; [congruence |].
    intros y c Hy Hc. rewrite Hg'. rewrite Z2Nat.id by lia.
    rewrite (row_index (rowSize m) y (Z.of_nat k) c Hc).
    assert (y * rowSize m + c < Z.of_nat (length l)) as Hin by (rewrite IHlen; nia).
    destruct (Z.ltb_spec (y * rowSize m + c) (Z.of_nat (length l))); [| lia].
    rewrite andb_true_r, IH by assumption.
    destruct (Z.eqb_spec y (Z.of_nat k)) as [->|Hne].
    + destruct (Z.ltb_spec (Z.of_nat k) (Z.of_nat k)); [lia |].
      destruct (Z.ltb_spec (Z.of_nat k) (Z.of_nat (S k))); [| lia].
      cbn [orUndefined]. do 2 f_equal.
      replace (Z.of_nat k * rowSize m + c - Z.of_nat k * rowSize m) with c by lia.
      rewrite <- Hw, getRow_rowArray by (rewrite ?Hr; assumption). reflexivity.
    + destruct (Z.ltb_spec y (Z.of_nat k)), (Z.ltb_spec y (Z.of_nat (S k)));
        try reflexivity; lia.
Qed.

Lemma xor_spec m mask :
  wellFormed m -> wellFormed mask ->
  width m = width mask -> height m = height mask ->
  exists m',
    xor m mask = Ok m' /\ wellFormed m' /\ sameShape m m' /\
    forall x y, 0 <= x < 32 * rowSize m -> 0 <= y < height m ->
      get m' x y = xorb (get m x y) (get mask x y).
Proof.
  intros Hwf Hwfm Hw Hh. pose proof (rowSize_bounds m Hwf) as [Hrs _].
  assert (rowSize mask = rowSize m) as Hr
    by (rewrite (wf_rowSize m Hwf), (wf_rowSize mask Hwfm); congruence).
  unfold xor, getWidth, getHeight, getRowSize. rewrite <- Hw, <- Hh, Hr, !Z.eqb_refl.
  cbn [negb orb]. eexists. split; [reflexivity |].
  replace (upto (height m)) with (upto (Z.of_nat (Z.to_nat (height m))))
    by (rewrite Z2Nat.id; [reflexivity | pose proof (wf_height m Hwf); lia]).
  destruct (xor_rows m mask (Z.to_nat (height m)) Hwf Hwfm ltac:(congruence)
              ltac:(congruence) ltac:(pose proof (wf_height m Hwf); lia)) as [Hl Hg].
  cbv zeta in Hl, Hg. set (l := fold_left _ _ (bits m)) in *.
  rewrite Z2Nat.id in Hg by (pose proof (wf_height m Hwf); lia).
  assert (forall y c, 0 <= y < height m -> 0 <= c < rowSize m ->
            typedGet l (y * rowSize m + c)
            = Some (js_xor (wordAt m y c) (wordAt mask y c))) as Hwords.
  { intros y c Hy Hc. rewrite Hg by assumption.
    destruct (Z.ltb_spec y (height m)); [reflexivity | lia]. }
  split; [| split].
  - destruct Hwf as [Hw1 Hh1 Hr1 Hl1 Hws1].
    constructor; unfold withBits; cbn [width height rowSize bits]; try assumption.
    + now rewrite Hl.
    + apply Forall_lookup_2. intros i w Hi.
      rewrite (words_by_index (withBits m l)
                 (fun y c => js_xor (wordAt m y c) (wordAt mask y c))
                 ltac:(cbn [rowSize withBits]; lia)
                 ltac:(cbn [rowSize height bits withBits]; now rewrite Hl)
                 Hwords i w Hi).
      apply js_xor_int32.
  - unfold sameShape, withBits. cbn [width height rowSize bits]. repeat split. exact Hl.
  - intros x y Hx Hy.
    assert (0 <= x / 32 < rowSize m) as Hc by (Z.div_mod_to_equations; lia).
    assert (0 <= x mod 32 < 32) as Hk by (apply Z.mod_pos_bound; lia).
    rewrite !get_testbit. unfold withBits. cbn [rowSize bits].
    rewrite Hwords by assumption. cbn [orUndefined].
    rewrite testbit_js_xor by assumption. unfold wordAt. now rewrite Hr.
Qed.

(** X7. [xor(mask)] throws [IllegalArgumentException] when the mask differs
    in width, height or row size.  On two well-formed matrices of the same
    dimensions it replaces every bit of the packed rows by its exclusive or
    with the bit of the mask, and a second [xor] with the same mask gives
    the matrix back. *)
Theorem xor_with_mask m mask :
  wellFormed m -> wellFormed mask ->
  (width m <> width mask \/ height m <> height mask \/ rowSize m <> rowSize mask ->
   xor m mask = Throw IllegalArgumentException) /\
  (width m = width mask -> height m = height mask ->
   exists m',
     xor m mask = Ok m' /\ wellFormed m' /\
     (forall x y, 0 <= x < 32 * rowSize m -> 0 <= y < height m ->
        get m' x y = xorb (get m x y) (get mask x y)) /\
     xor m' mask = Ok m).
Proof.
  intros Hwf Hwfm. split.
  - intros Hbad. unfold xor, getWidth, getHeight, getRowSize.
    destruct (Z.eqb_spec (width m) (width mask)); [| reflexivity].
    destruct (Z.eqb_spec (height m) (height mask)); [| reflexivity].
    destruct (Z.eqb_spec (rowSize m) (rowSize mask)); [| reflexivity]. tauto.
  - intros Hw Hh.
    destruct (xor_spec m mask Hwf Hwfm Hw Hh) as (m' & E1 & Hwf1 & Hs1 & Hg1).
    pose proof Hs1 as (Hw1 & Hh1 & Hr1 & Hl1).
    destruct (xor_spec m' mask Hwf1 Hwfm ltac:(congruence) ltac:(congruence))
      as (m2 & E2 & Hwf2 & Hs2 & Hg2).
    exists m'. split; [exact E1 |]. split; [exact Hwf1 |]. split; [exact Hg1 |].
    rewrite E2. f_equal.
    apply matrix_ext_get; [assumption | assumption | |].
    + eapply sameShape_trans; eassumption.
    + intros x y Hx Hy. rewrite Hg2 by (rewrite ?Hr1, ?Hh1; assumption).
      rewrite Hg1 by assumption.
      now destruct (get m x y), (get mask x y).
Qed.

Lemma xor_with_mask_witness :
  xor matrix35x3 oneBit40x3 = Throw IllegalArgumentException /\
  exists m',
    xor matrix35x3 matrix35x3 = Ok m' /\
    (forall x y, 0 <= x < 32 * rowSize matrix35x3 -> 0 <= y < height matrix35x3 ->
       get m' x y = xorb (get matrix35x3 x y) (get matrix35x3 x y)) /\
    xor m' matrix35x3 = Ok matrix35x3.
Proof.
  split.
  - refine (proj1 (xor_with_mask matrix35x3 oneBit40x3 _ _) _).
    + fixture_wellFormed.
    + fixture_wellFormed.
    + left. cbn [width matrix35x3 oneBit40x3]. lia.
  - destruct (proj2 (xor_with_mask matrix35x3 matrix35x3
                       ltac:(fixture_wellFormed) ltac:(fixture_wellFormed))
                    eq_refl eq_refl) as (m' & H1 & _ & H3 & H4).
    exists m'. split; [exact H1 |]. split; [exact H3 | exact H4].
Defined.

End Xor.

(** ** BitMatrix: [getRow] and [setRow] *)

Section Rows.
Import BitMatrix.

Lemma getRow_fresh m y c :
  wellFormed m -> 0 <= c < rowSize m ->
  typedGet (BitArray.bits (getRow m y None)) c = Some (wordAt m y c).
Proof.
  intros Hwf Hc. pose proof (rowSize_bounds m Hwf) as [Hrs Hrw].
  pose proof (wf_width m Hwf) as Hw. pose proof (wf_rowSize m Hwf) as Hr.
  unfold getRow. rewrite fold_setBulk. cbn [BitArray.bits].
  replace (upto (rowSize m)) with (upto (Z.of_nat (Z.to_nat (rowSize m))))
    by (now rewrite Z2Nat.id by lia).
  destruct (fold_typedSet (fun x => orUndefined (typedGet (bits m) (y * rowSize m + x)))
              0 (Z.to_nat (rowSize m)) (BitArray.bits (BitArray.new (width m))) ltac:(lia))
    as [_ Hg].
  rewrite Hg. unfold BitArray.new at 1. cbn [BitArray.bits]. rewrite repeat_length.
  destruct (Z.leb_spec 0 c), (Z.ltb_spec c (0 + Z.of_nat (Z.to_nat (rowSize m)))),
    (Z.ltb_spec c (Z.of_nat (Z.to_nat ((width m + 31) / 32)))); try lia.
  cbn [andb]. unfold wordAt. now rewrite Z.sub_0_r.
Qed.

(** X8. On a well-formed matrix, the buffer [getRow(y)] returns holds the
    bits of row [y]; [setRow(y, row)] replaces the bits of row [y] by those
    of the buffer and changes no other row; and writing back the row just
    read leaves the matrix as it was. *)
Theorem getRow_setRow m y :
  wellFormed m -> 0 <= y < height m ->
  (forall x, 0 <= x < 32 * rowSize m -> BitArray.get (getRow m y None) x = get m x y) /\
  (forall row x y', bufferFor m row -> 0 <= x < 32 * rowSize m -> 0 <= y' < height m ->
     get (setRow m y row) x y' = if y' =? y then BitArray.get row x else get m x y') /\
  setRow m y (getRow m y None) = m.
Proof.
  intros Hwf Hy. pose proof (rowSize_bounds m Hwf) as [Hrs Hrw].
  pose proof (wf_length m Hwf) as Hlen.
  split; [| split].
  - apply buffer_get; [assumption |]. intros c Hc. now apply getRow_fresh.
  - intros row x y' [Hsize Hbuf] Hx Hy'.
    assert (0 <= x / 32 < rowSize m) as Hc by (Z.div_mod_to_equations; lia).
    destruct (setRow_spec m y row ltac:(lia) ltac:(lia)) as [_ Hg].
    rewrite !get_testbit. unfold BitArray.get.
    assert (rowSize (setRow m y row) = rowSize m) as -> by reflexivity.
    rewrite Hg. rewrite (row_index (rowSize m) y' y (x / 32) Hc).
    assert (y' * rowSize m + x / 32 < Z.of_nat (length (bits m))) as Hin by nia.
    destruct (Z.ltb_spec (y' * rowSize m + x / 32) (Z.of_nat (length (bits m)))); [| lia].
    rewrite andb_true_r.
    destruct (Z.eqb_spec y' y) as [->|Hne]; [| reflexivity].
    cbn [orUndefined].
    now replace (y * rowSize m + x / 32 - y * rowSize m) with (x / 32) by lia.
  - apply matrix_ext; [assumption | |].
    + apply setRow_spec; lia.
    + intros y' c Hy' Hc.
      destruct (setRow_spec m y (getRow m y None) ltac:(lia) ltac:(lia)) as [_ Hg].
      rewrite Hg. rewrite (row_index (rowSize m) y' y c Hc).
      assert (y' * rowSize m + c < Z.of_nat (length (bits m))) as Hin by nia.
      destruct (Z.ltb_spec (y' * rowSize m + c) (Z.of_nat (length (bits m)))); [| lia].
      rewrite andb_true_r.
      destruct (Z.eqb_spec y' y) as [->|Hne]; [| reflexivity].
      replace (y * rowSize m + c - y * rowSize m) with c by lia.
      rewrite getRow_fresh by assumption. cbn [orUndefined]. unfold wordAt.
      destruct (word_lookup m y c Hwf Hy Hc) as (w & Ew & _ & _). now rewrite Ew.
Qed.

Lemma getRow_setRow_witness :
  BitArray.get (getRow matrix35x3 1 None) 33 = get matrix35x3 33 1 /\
  setRow matrix35x3 1 (getRow matrix35x3 1 None) = matrix35x3.
Proof.
  destruct (getRow_setRow matrix35x3 1) as (H1 & _ & H3).
  - fixture_wellFormed.
  - cbn [height matrix35x3]; lia.
  - split; [| exact H3]. apply H1. cbn [rowSize matrix35x3]; lia.
Defined.

End Rows.

(** ** BitSource: the value read *)

Section ReadValue.
Import BitSource.

Lemma testbit_small a n i : 0 <= a < 2 ^ n -> 0 <= n <= i -> Z.testbit a i = false.
Proof.
  intros Ha Hi. rewrite <- (Z.mod_small a (2 ^ n)) by lia.
  apply Z.mod_pow2_bits_high. lia.
Qed.

Lemma testbit_js_and_small a M i :
  0 <= M < 2 ^ 31 -> 0 <= i ->
  Z.testbit (js_and a M) i = Z.testbit a i && Z.testbit M i.
Proof.
  intros HM Hi. destruct (Z.lt_ge_cases i 32).
  - apply testbit_js_and. lia.
  - rewrite (testbit_small M 31 i), andb_false_r by lia.
    apply (testbit_small _ 31); [| lia].
    unfold js_and. rewrite (toInt32_small M) by (unfold BitMatrix.int32; lia).
    assert (Z.land (toInt32 a) M = Z.land (toInt32 a) M mod 2 ^ 31) as HL.
    { rewrite <- Z.land_ones, <- Z.land_assoc, (Z.land_ones M) by lia.
      now rewrite (Z.mod_small M) by lia. }
    pose proof (Z.mod_pos_bound (Z.land (toInt32 a) M) (2 ^ 31) ltac:(lia)).
    rewrite toInt32_small by (unfold BitMatrix.int32; lia). lia.
Qed.

Lemma shiftr_int32 a k : BitMatrix.int32 a -> 0 <= k -> BitMatrix.int32 (Z.shiftr a k).
Proof.
  unfold BitMatrix.int32. intros Ha Hk. rewrite Z.shiftr_div_pow2 by assumption.
  assert (1 <= 2 ^ k) by (pose proof (Z.pow_pos_nonneg 2 k); lia).
  destruct (Z.lt_ge_cases a 0).
  - assert (a <= a / 2 ^ k) by (apply Z.div_le_lower_bound; nia).
    assert (a / 2 ^ k < 0) by (apply Z.div_lt_upper_bound; lia). lia.
  - assert (0 <= a / 2 ^ k) by (apply Z.div_pos; lia).
    assert (a / 2 ^ k <= a) by (apply Z.div_le_upper_bound; nia). lia.
Qed.

(** The masks [(0xFF >> s) << lo] of [readBits]. *)
Lemma partial_mask s lo :
  0 <= s <= 8 -> 0 <= lo <= 8 ->
  js_shl (js_sar 255 s) lo = Z.shiftl (Z.ones (8 - s)) lo /\
  0 <= js_shl (js_sar 255 s) lo < 2 ^ 31.
Proof.
  intros Hs Hlo.
  assert (s = 0 \/ s = 1 \/ s = 2 \/ s = 3 \/ s = 4 \/ s = 5 \/ s = 6 \/ s = 7 \/ s = 8)
    as Es by lia.
  assert (lo = 0 \/ lo = 1 \/ lo = 2 \/ lo = 3 \/ lo = 4 \/ lo = 5 \/ lo = 6 \/ lo = 7 \/ lo = 8)
    as Elo by lia.
  clear Hs Hlo.
  repeat (destruct Es as [Es|Es]); repeat (destruct Elo as [Elo|Elo]); subst;
    (split; [vm_compute; reflexivity | vm_compute; split; [discriminate | reflexivity]]).
Qed.

(** [(byte & mask) >> lo]: the [8 - s] bits of the byte from bit [lo] on. *)
Lemma partial_bits byte s lo j :
  0 <= s <= 8 -> 0 <= lo -> lo + (8 - s) <= 8 -> 0 <= j ->
  Z.testbit (js_sar (js_and byte (js_shl (js_sar 255 s) lo)) lo) j
  = (j <? 8 - s) && Z.testbit byte (j + lo).
Proof.
  intros Hs Hlo Hfit Hj. destruct (partial_mask s lo Hs ltac:(lia)) as [EM HM].
  unfold js_sar at 1. rewrite land_31_small by lia.
  rewrite (toInt32_small (js_and _ _)) by apply js_and_int32.
  rewrite Z.shiftr_spec by assumption.
  rewrite testbit_js_and_small by (assumption || lia).
  rewrite EM, Z.shiftl_spec by lia.
  replace (j + lo - lo) with j by lia.
  rewrite Z.testbit_ones_nonneg by lia. apply andb_comm.
Qed.

Lemma partial_int32 byte s lo :
  0 <= lo < 32 ->
  - 2 ^ 31 <= js_sar (js_and byte (js_shl (js_sar 255 s) lo)) lo < 2 ^ 31.
Proof.
  intros Hlo.
  generalize (js_and byte (js_shl (js_sar 255 s) lo)). intros a.
  unfold js_sar. rewrite land_31_small by lia.
  apply shiftr_int32; [apply toInt32_int32 | lia].
Qed.

Lemma bitAt_index bs b r :
  0 <= r < 8 -> bitAt bs (8 * b + r) = Z.testbit (orUndefined (typedGet bs b)) (7 - r).
Proof.
  intros Hr. unfold bitAt.
  replace ((8 * b + r) / 8) with b by (Z.div_mod_to_equations; lia).
  replace ((8 * b + r) mod 8) with r by (Z.div_mod_to_equations; lia).
  reflexivity.
Qed.

(** The first step of [readBits]: the rest of the current byte. *)
Lemma readSoFar_head bs byo bio toRead p :
  0 < bio < 8 -> 1 <= toRead <= 8 - bio -> p = 8 * byo + bio + toRead ->
  readSoFar bs
    (js_sar (js_and (orUndefined (typedGet bs byo))
                    (js_shl (js_sar 255 (8 - toRead)) (8 - bio - toRead)))
            (8 - bio - toRead))
    toRead p.
Proof.
  intros Hbio Hto ->. split; [apply partial_int32; lia |].
  intros j Hj. rewrite partial_bits by lia.
  replace (8 - (8 - toRead)) with toRead by lia.
  destruct (Z.ltb_spec j toRead); [| reflexivity]. cbn [andb].
  replace (8 * byo + bio + toRead - 1 - j) with (8 * byo + (bio + toRead - 1 - j)) by lia.
  rewrite bitAt_index by lia. f_equal. lia.
Qed.

(** One turn of the loop over whole bytes. *)
Lemma readSoFar_byte bs r m b :
  0 <= m <= 24 -> readSoFar bs r m (8 * b) ->
  readSoFar bs (js_or (js_shl r 8) (js_and (orUndefined (typedGet bs b)) 255))
            (m + 8) (8 * (b + 1)).
Proof.
  intros Hm [_ Hr]. split; [apply js_or_int32 |].
  intros j Hj. rewrite testbit_js_or, testbit_js_shl, testbit_js_and by lia.
  change 255 with (Z.ones 8). rewrite Z.testbit_ones_nonneg by lia.
  destruct (Z.leb_spec 8 j) as [H8|H8]; cbn [andb orb].
  - destruct (Z.ltb_spec j 8); [lia |]. rewrite andb_false_r, orb_false_r.
    rewrite Hr by lia.
    replace (8 * b - 1 - (j - 8)) with (8 * (b + 1) - 1 - j) by lia.
    f_equal. destruct (Z.ltb_spec (j - 8) m), (Z.ltb_spec j (m + 8)); try reflexivity; lia.
  - destruct (Z.ltb_spec j 8); [| lia]. rewrite andb_true_r.
    destruct (Z.ltb_spec j (m + 8)); [| lia]. cbn [andb].
    replace (8 * (b + 1) - 1 - j) with (8 * b + (7 - j)) by lia.
    rewrite bitAt_index by lia. f_equal. lia.
Qed.

(** The last step of [readBits]: the first bits of the next byte. *)
Lemma readSoFar_tail bs r m b numBits :
  0 <= m -> 0 < numBits < 8 -> m + numBits <= 32 -> readSoFar bs r m (8 * b) ->
  readSoFar bs
    (js_or (js_shl r numBits)
           (js_sar (js_and (orUndefined (typedGet bs b))
                           (js_shl (js_sar 255 (8 - numBits)) (8 - numBits)))
                   (8 - numBits)))
    (m + numBits) (8 * b + numBits).
Proof.
  intros Hm Hn Hfit [_ Hr]. split; [apply js_or_int32 |].
  intros j Hj. rewrite testbit_js_or, testbit_js_shl, partial_bits by lia.
  replace (8 - (8 - numBits)) with numBits by lia.
  destruct (Z.leb_spec numBits j) as [Hge|Hlt]; cbn [andb orb].
  - destruct (Z.ltb_spec j numBits); [lia |]. cbn [andb]. rewrite orb_false_r.
    rewrite Hr by lia.
    replace (8 * b - 1 - (j - numBits)) with (8 * b + numBits - 1 - j) by lia.
    f_equal.
    destruct (Z.ltb_spec (j - numBits) m), (Z.ltb_spec j (m + numBits)); try reflexivity; lia.
  - destruct (Z.ltb_spec j numBits); [| lia]. cbn [andb].
    destruct (Z.ltb_spec j (m + numBits)); [| lia]. cbn [andb].
    replace (8 * b + numBits - 1 - j) with (8 * b + (numBits - 1 - j)) by lia.
    rewrite bitAt_index by lia. f_equal. lia.
Qed.

Lemma wholeBytes_value fuel bs : forall r n b m,
  0 <= n -> (Z.to_nat n <= fuel)%nat -> 0 <= m -> m + n <= 32 ->
  readSoFar bs r m (8 * b) ->
  exists r', wholeBytes fuel bs r n b = (r', n mod 8, b + n / 8) /\
             readSoFar bs r' (m + 8 * (n / 8)) (8 * (b + n / 8)).
Proof.
  induction fuel as [|fuel IH]; intros r n b m Hn Hf Hm Hfit Hr.
  - assert (n = 0) by lia. subst n. exists r. cbn [wholeBytes].
    change (0 mod 8) with 0. change (0 / 8) with 0. change (8 * 0) with 0.
    rewrite !Z.add_0_r. split; [reflexivity | assumption].
  - cbn [wholeBytes]. destruct (Z.geb_spec n 8) as [E|E].
    + destruct (IH (js_or (js_shl r 8) (js_and (orUndefined (typedGet bs b)) 255))
                   (n - 8) (b + 1) (m + 8)) as (r' & Hr' & Hs');
        [lia | lia | lia | lia | apply readSoFar_byte; [lia | assumption] |].
      exists r'. rewrite Hr'.
      assert ((n - 8) mod 8 = n mod 8) as Em by (Z.div_mod_to_equations; lia).
      assert ((n - 8) / 8 = n / 8 - 1) as Ed by (Z.div_mod_to_equations; lia).
      rewrite Em, Ed in *. split; [f_equal; lia |].
      replace (m + 8 * (n / 8)) with (m + 8 + 8 * (n / 8 - 1)) by lia.
      now replace (b + n / 8) with (b + 1 + (n / 8 - 1)) by lia.
    + exists r.
      assert (n mod 8 = n) as -> by (Z.div_mod_to_equations; lia).
      assert (n / 8 = 0) as -> by (Z.div_mod_to_equations; lia).
      change (8 * 0) with 0. rewrite !Z.add_0_r. split; [reflexivity | assumption].
Qed.

Lemma readSoFar_zero bs p : readSoFar bs 0 0 p.
Proof.
  split; [lia |]. intros j Hj. rewrite Z.testbit_0_l.
  destruct (Z.ltb_spec j 0); [lia | reflexivity].
Qed.

Lemma readSoFar_eq bs r m p m' p' :
  readSoFar bs r m p -> m' = m -> p' = p -> readSoFar bs r m' p'.
Proof. now intros H -> ->. Qed.

(** What [readBits] returns, bit by bit. *)
Lemma readBits_bits n s v s' :
  cursor_ok s -> readBits n s = Ok (v, s') ->
  readSoFar (bytes s) v n (position s + n).
Proof.
  intros (Hbit & Hbyte & Hav) H. unfold readBits in H.
  destruct ((n <? 1) || (n >? 32) || (n >? available s)) eqn:G; [discriminate |].
  apply orb_false_elim in G as [G G3]. apply orb_false_elim in G as [G1 G2].
  apply Z.ltb_ge in G1.
  assert (n <= 32) as Hn32 by (destruct (Z.gtb_spec n 32); [discriminate | lia]).
  clear G2 G3. unfold position, available in *.
  destruct s as [bs byo bio]; cbn [bytes byteOffset bitOffset] in *.
  destruct (Z.gtb_spec bio 0) as [E1|E1].
  - destruct (Z.ltb_spec n (8 - bio)) as [E2|E2].
    + (* the request fits in the current byte *)
      destruct (Z.eqb_spec (bio + n) 8) as [E3|E3]; [lia |].
      destruct (Z.gtb_spec (n - n) 0) as [E4|E4]; [lia |].
      injection H as <- _. apply readSoFar_head; lia.
    + destruct (Z.eqb_spec (bio + (8 - bio)) 8) as [E3|E3]; [| lia].
      pose proof (readSoFar_head bs byo bio (8 - bio) (8 * (byo + 1))
                    ltac:(lia) ltac:(lia) ltac:(lia)) as Hhead.
      destruct (Z.gtb_spec (n - (8 - bio)) 0) as [E4|E4].
      * match type of H with context [wholeBytes ?f ?b ?r ?m ?o] =>
          destruct (wholeBytes_value f b r m o (8 - bio)) as (r' & Hr' & Hs');
            [lia | lia | lia | lia | exact Hhead |];
          rewrite Hr' in H
        end.
        pose proof (Z.div_mod (n - (8 - bio)) 8 ltac:(lia)) as Hdm.
        pose proof (Z.mod_pos_bound (n - (8 - bio)) 8 ltac:(lia)) as Hmb.
        destruct (Z.gtb_spec ((n - (8 - bio)) mod 8) 0) as [E5|E5]; injection H as <- _.
        -- eapply readSoFar_eq;
             [eapply readSoFar_tail; [| | | exact Hs'] | |]; lia.
        -- eapply readSoFar_eq; [exact Hs' | |]; lia.
      * injection H as <- _. eapply readSoFar_eq; [exact Hhead | |]; lia.
  - assert (bio = 0) as -> by lia.
    destruct (Z.gtb_spec n 0) as [E4|E4]; [| lia].
    match type of H with context [wholeBytes ?f ?b ?r ?m ?o] =>
      destruct (wholeBytes_value f b r m o 0) as (r' & Hr' & Hs');
        [lia | lia | lia | lia | apply readSoFar_zero |];
      rewrite Hr' in H
    end.
    pose proof (Z.div_mod n 8 ltac:(lia)) as Hdm.
    pose proof (Z.mod_pos_bound n 8 ltac:(lia)) as Hmb.
    destruct (Z.gtb_spec (n mod 8) 0) as [E5|E5]; injection H as <- _.
    + eapply readSoFar_eq;
        [eapply readSoFar_tail; [| | | exact Hs'] | |]; lia.
    + eapply readSoFar_eq; [exact Hs' | |]; lia.
Qed.

Lemma testbit_bitsValue bs (n : nat) : forall pos acc j,
  0 <= j ->
  Z.testbit (bitsValue bs n pos acc) j
  = if j <? Z.of_nat n then bitAt bs (pos + Z.of_nat n - 1 - j)
    else Z.testbit acc (j - Z.of_nat n).
Proof.
  induction n as [|n IH]; intros pos acc j Hj.
  - cbn [bitsValue]. change (Z.of_nat 0) with 0.
    destruct (Z.ltb_spec j 0); [lia |]. now rewrite Z.sub_0_r.
  - cbn [bitsValue]. rewrite IH by assumption.
    destruct (Z.ltb_spec j (Z.of_nat n)), (Z.ltb_spec j (Z.of_nat (S n))); try lia.
    + f_equal. lia.
    + assert (j = Z.of_nat n) as -> by lia. rewrite Z.sub_diag, Z.testbit_0_r.
      f_equal. lia.
    + replace (j - Z.of_nat n) with (Z.succ (j - Z.of_nat (S n))) by lia.
      apply Z.testbit_succ_r. lia.
Qed.

Lemma bitsValue_bounds bs (n : nat) : forall pos acc k,
  0 <= k -> 0 <= acc < 2 ^ k ->
  0 <= bitsValue bs n pos acc < 2 ^ (k + Z.of_nat n).
Proof.
  induction n as [|n IH]; intros pos acc k Hk Hacc.
  - cbn [bitsValue]. now rewrite Z.add_0_r.
  - cbn [bitsValue].
    replace (k + Z.of_nat (S n)) with (k + 1 + Z.of_nat n) by lia.
    apply IH; [lia |]. rewrite Z.pow_add_r, Z.pow_1_r by lia.
    destruct (bitAt bs pos); cbn [Z.b2z]; lia.
Qed.

End ReadValue.

Section ReadResults.
Import BitSource.

Lemma readBits_guard n s v s' :
  readBits n s = Ok (v, s') -> 1 <= n <= 32 /\ n <= available s.
Proof.
  unfold readBits. intros H.
  destruct (Z.ltb_spec n 1); [discriminate |].
  destruct (Z.gtb_spec n 32); [discriminate |].
  destruct (Z.gtb_spec n (available s)); [discriminate |]. lia.
Qed.

Lemma readBits_succeeds n s :
  1 <= n <= 32 -> n <= available s -> exists v s', readBits n s = Ok (v, s').
Proof.
  intros Hn Hav. unfold readBits.
  destruct (Z.ltb_spec n 1); [lia |].
  destruct (Z.gtb_spec n 32); [lia |].
  destruct (Z.gtb_spec n (available s)); [lia |]. cbn [orb].
  destruct (if bitOffset s >? 0 then _ else _) as [[[r1 n1] b1] o1].
  destruct (if n1 >? 0 then _ else _) as [[r2 b2] o2].
  eexists. eexists. reflexivity.
Qed.

(** A state with a sound cursor is the state at its position. *)
Lemma at_position_eq s :
  0 <= bitOffset s < 8 -> s = at_position (bytes s) (position s).
Proof.
  intros H. destruct s as [bs byo bio]. unfold at_position, position.
  cbn [bytes byteOffset bitOffset] in *. f_equal; Z.div_mod_to_equations; lia.
Qed.

Lemma readBits_state n s v s' :
  cursor_ok s -> readBits n s = Ok (v, s') ->
  s' = at_position (bytes s) (position s + n).
Proof.
  intros Hok H.
  destruct (readBits_step n s v s' Hok H) as ((Hb & _) & Hbytes & _ & Hpos).
  rewrite <- Hbytes, <- Hpos. now apply at_position_eq.
Qed.

(** A word is determined by the bits it holds. *)
Lemma readSoFar_unique bs r r' m p :
  readSoFar bs r m p -> readSoFar bs r' m p -> r = r'.
Proof.
  intros [Hi Hb] [Hi' Hb']. apply int32_ext; [exact Hi | exact Hi' |].
  intros k Hk. now rewrite Hb, Hb'.
Qed.

(** X9. A successful [readBits(n)] returns the number written by the next
    [n] bits of the buffer, the first bit read being the most significant:
    bit [j] of the result is the bit at position [position + n - 1 - j].
    For [n < 32] the result lies in [0, 2^n); for [n = 32] it is that number
    taken as a signed 32-bit integer.  The cursor ends [n] bits further. *)
Theorem readBits_value n s v s' :
  cursor_ok s -> readBits n s = Ok (v, s') ->
  v = toInt32 (bitsValue (bytes s) (Z.to_nat n) (position s) 0) /\
  (forall j, 0 <= j < n -> Z.testbit v j = bitAt (bytes s) (position s + n - 1 - j)) /\
  (n < 32 -> v = bitsValue (bytes s) (Z.to_nat n) (position s) 0 /\ 0 <= v < 2 ^ n) /\
  s' = at_position (bytes s) (position s + n).
Proof.
  intros Hok H. destruct (readBits_guard n s v s' H) as [Hn _].
  destruct (readBits_bits n s v s' Hok H) as [Hint Hbits].
  assert (v = toInt32 (bitsValue (bytes s) (Z.to_nat n) (position s) 0)) as Hv.
  { apply int32_ext; [exact Hint | apply toInt32_int32 |].
    intros k Hk. rewrite Hbits, testbit_toInt32, testbit_bitsValue by lia.
    rewrite Z2Nat.id by lia.
    destruct (Z.ltb_spec k n); [reflexivity | now rewrite Z.testbit_0_l]. }
  split; [exact Hv |]. split; [| split].
  - intros j Hj. rewrite Hbits by lia.
    destruct (Z.ltb_spec j n); [reflexivity | lia].
  - intros Hlt.
    pose proof (bitsValue_bounds (bytes s) (Z.to_nat n) (position s) 0 0
                  ltac:(lia) ltac:(cbn; lia)) as Hbv.
    rewrite Z2Nat.id, Z.add_0_l in Hbv by lia.
    assert (2 ^ n <= 2 ^ 31) by (apply Z.pow_le_mono_r; lia).
    rewrite toInt32_small in Hv by (unfold BitMatrix.int32; lia).
    split; [exact Hv | now rewrite Hv].
  - now apply (readBits_state n s v s').
Qed.

Lemma readBits_value_witness :
  11 = toInt32 (bitsValue [180; 58] (Z.to_nat 4) (position (new [180; 58])) 0) /\
  {| bytes := [180; 58]; byteOffset := 0; bitOffset := 4 |}
  = at_position [180; 58] (position (new [180; 58]) + 4).
Proof.
  destruct (readBits_value 4 (new [180; 58]) 11
              {| bytes := [180; 58]; byteOffset := 0; bitOffset := 4 |})
    as (H1 & _ & _ & H4).
  - unfold cursor_ok, available, new. cbn [bytes byteOffset bitOffset length]. lia.
  - vm_compute; reflexivity.
  - split; [exact H1 | exact H4].
Defined.

(** X10. Two reads in a row are one read of the two lengths together:
    when [readBits(a)] returns [va] and the next [readBits(b)] returns [vb],
    with [a + b <= 32], a single [readBits(a + b)] from the first state
    returns [(va << b) | vb] and ends in the same state. *)
Theorem readBits_twice a b s va s1 vb s2 :
  cursor_ok s -> readBits a s = Ok (va, s1) -> readBits b s1 = Ok (vb, s2) ->
  a + b <= 32 ->
  readBits (a + b) s = Ok (js_or (js_shl va b) vb, s2).
Proof.
  intros Hok Ha Hb Hab.
  destruct (readBits_guard a s va s1 Ha) as [Hna Hava].
  destruct (readBits_guard b s1 vb s2 Hb) as [Hnb Havb].
  destruct (readBits_step a s va s1 Hok Ha) as (Hok1 & Hbytes1 & _ & Hpos1).
  assert (available s1 = available s - a) as Hav1.
  { unfold available, position in *. rewrite Hbytes1. lia. }
  destruct (readBits_succeeds (a + b) s ltac:(lia) ltac:(lia)) as (v & s' & Hab').
  rewrite Hab'. do 2 f_equal.
  - eapply readSoFar_unique; [exact (readBits_bits _ _ _ _ Hok Hab') |].
    destruct (readBits_bits a s va s1 Hok Ha) as [_ Hbits_a].
    destruct (readBits_bits b s1 vb s2 Hok1 Hb) as [_ Hbits_b].
    split; [apply js_or_int32 |].
    intros j Hj. rewrite testbit_js_or, testbit_js_shl, Hbits_b by lia.
    rewrite Hbytes1, Hpos1.
    destruct (Z.leb_spec b j) as [Hge|Hlt]; cbn [andb orb].
    + destruct (Z.ltb_spec j b); [lia |]. cbn [andb]. rewrite orb_false_r.
      rewrite Hbits_a by lia.
      replace (position s + a - 1 - (j - b)) with (position s + (a + b) - 1 - j) by lia.
      f_equal. destruct (Z.ltb_spec (j - b) a), (Z.ltb_spec j (a + b)); try reflexivity; lia.
    + destruct (Z.ltb_spec j b); [| lia]. destruct (Z.ltb_spec j (a + b)); [| lia].
      cbn [andb]. f_equal. lia.
  - rewrite (readBits_state _ _ _ _ Hok Hab'), (readBits_state _ _ _ _ Hok1 Hb).
    rewrite Hbytes1, Hpos1. f_equal. lia.
Qed.

Lemma readBits_twice_witness :
  readBits (4 + 8) (new [180; 58])
  = Ok (js_or (js_shl 11 8) 67, {| bytes := [180; 58]; byteOffset := 1; bitOffset := 4 |}).
Proof.
  apply (readBits_twice 4 8 (new [180; 58]) 11
           {| bytes := [180; 58]; byteOffset := 0; bitOffset := 4 |} 67
           {| bytes := [180; 58]; byteOffset := 1; bitOffset := 4 |}).
  - unfold cursor_ok, available, new. cbn [bytes byteOffset bitOffset length]. lia.
  - vm_compute; reflexivity.
  - vm_compute; reflexivity.
  - lia.
Defined.

End ReadResults.

(** ** PerspectiveTransform: the two loops over points *)

Section PointLoops.
Import Num Points PerspectiveTransform.

Lemma evens_flatten (qs : list point) :
  evens (Z.of_nat (length (flatten qs)))
  = map (fun k => 2 * k) (map Z.of_nat (seq 0 (length qs))).
Proof.
  unfold evens, upto. rewrite length_flatten. do 3 f_equal.
  Z.div_mod_to_equations. lia.
Qed.

(** A loop that replaces every point by two functions of its coordinates. *)
Lemma pointwise_from (F G : number -> number -> number) ps : forall pre,
  fold_left
    (fun points i =>
       set (set points i (F (get points i) (get points (i + 1))))
           (i + 1) (G (get points i) (get points (i + 1))))
    (map (fun k => 2 * k) (map Z.of_nat (seq (length pre) (length ps))))
    (flatten (pre ++ ps))
  = flatten (pre ++ map (fun p => (fround (F (fst p) (snd p)), fround (G (fst p) (snd p)))) ps).
Proof.
  induction ps as [|p ps IH]; intros pre; [reflexivity |].
  cbn [fold_left map seq length].
  rewrite get_flatten_fst, get_flatten_snd, set_flatten_fst.
  rewrite (set_flatten_snd pre (_, snd p) ps). cbn [fst snd].
  specialize (IH (pre ++ [(fround (F (fst p) (snd p)), fround (G (fst p) (snd p)))])).
  rewrite length_app, Nat.add_1_r, <- !app_assoc in IH. cbn [app length] in IH.
  exact IH.
Qed.

Lemma transformPoints_from tr ps : forall pre,
  fold_left
    (fun points i =>
       let x := get points i in
       let y := get points (i + 1) in
       let denominator := add (add (mul (a13 tr) x) (mul (a23 tr) y)) (a33 tr) in
       let points :=
         set points i (div (add (add (mul (a11 tr) x) (mul (a21 tr) y)) (a31 tr)) denominator) in
       set points (i + 1)
         (div (add (add (mul (a12 tr) x) (mul (a22 tr) y)) (a32 tr)) denominator))
    (map (fun k => 2 * k) (map Z.of_nat (seq (length pre) (length ps))))
    (flatten (pre ++ ps))
  = flatten (pre ++ map (fun p => stored (imageOf tr p)) ps).
Proof.
  intros pre.
  exact (pointwise_from
           (fun x y => div (add (add (mul (a11 tr) x) (mul (a21 tr) y)) (a31 tr))
                           (add (add (mul (a13 tr) x) (mul (a23 tr) y)) (a33 tr)))
           (fun x y => div (add (add (mul (a12 tr) x) (mul (a22 tr) y)) (a32 tr))
                           (add (add (mul (a13 tr) x) (mul (a23 tr) y)) (a33 tr)))
           ps pre).
Qed.

Lemma transformPoints_flatten tr ps :
  transformPoints tr (flatten ps) = flatten (map (fun p => stored (imageOf tr p)) ps).
Proof.
  unfold transformPoints. rewrite evens_flatten.
  exact (transformPoints_from tr ps []).
Qed.

(** X11. [transformPoints] on an array of whole points replaces every point
    by its own image, computed in doubles and rounded to a single by the
    store: the new [y] is computed from the [x] the point had, not from the
    one just stored, no point depends on another, and the array keeps its
    length. *)
Theorem transformPoints_pointwise tr ps :
  transformPoints tr (flatten ps) = flatten (map (fun p => stored (imageOf tr p)) ps) /\
  length (transformPoints tr (flatten ps)) = length (flatten ps).
Proof.
  assert (transformPoints tr (flatten ps)
          = flatten (map (fun p => stored (imageOf tr p)) ps)) as H.
  { unfold transformPoints. rewrite evens_flatten.
    pose proof (transformPoints_from tr ps []) as Hfrom.
    cbn [length app] in Hfrom. exact Hfrom. }
  split; [exact H |].
  rewrite H, !length_flatten. f_equal. apply length_map.
Qed.

Lemma get_middle (pre : list number) x post :
  get (pre ++ x :: post) (Z.of_nat (length pre)) = x.
Proof.
  unfold get. destruct (Z.ltb_spec (Z.of_nat (length pre)) 0); [lia |].
  now rewrite Nat2Z.id, list_lookup_middle.
Qed.

Lemma set_middle (pre : list number) x post v :
  set (pre ++ x :: post) (Z.of_nat (length pre)) v = pre ++ fround v :: post.
Proof.
  unfold set. destruct (Z.ltb_spec (Z.of_nat (length pre)) 0); [lia |].
  rewrite Nat2Z.id. replace (length pre) with (length pre + 0)%nat at 1 by lia.
  now rewrite insert_app_r.
Qed.

(** The same loop over two arrays. *)
Lemma pairwise_from (F G : number -> number -> number) xs : forall ys prex prey,
  length prex = length prey -> length xs = length ys ->
  fold_left
    (fun '(xValues, yValues) i =>
       (set xValues i (F (get xValues i) (get yValues i)),
        set yValues i (G (get xValues i) (get yValues i))))
    (map Z.of_nat (seq (length prex) (length xs)))
    (prex ++ xs, prey ++ ys)
  = (prex ++ map (fun p => fround (F (fst p) (snd p))) (combine xs ys),
     prey ++ map (fun p => fround (G (fst p) (snd p))) (combine xs ys)).
Proof.
  induction xs as [|x xs IH]; intros ys prex prey Hpre Hlen.
  - destruct ys; [| discriminate]. reflexivity.
  - destruct ys as [|y ys]; [discriminate |].
    cbn [fold_left map seq length combine].
    rewrite get_middle, set_middle. rewrite Hpre, get_middle, set_middle.
    specialize (IH ys (prex ++ [fround (F x y)]) (prey ++ [fround (G x y)])).
    rewrite !length_app, Nat.add_1_r, <- !app_assoc in IH. cbn [app length] in IH.
    rewrite <- Hpre. cbn [fst snd]. apply IH; [lia | now injection Hlen].
Qed.

Lemma transformPointsWithValues_from tr xs : forall ys prex prey,
  length prex = length prey -> length xs = length ys ->
  fold_left
    (fun '(xValues, yValues) i =>
       let x := get xValues i in
       let y := get yValues i in
       let denominator := add (add (mul (a13 tr) x) (mul (a23 tr) y)) (a33 tr) in
       let xValues :=
         set xValues i (div (add (add (mul (a11 tr) x) (mul (a21 tr) y)) (a31 tr)) denominator) in
       let yValues :=
         set yValues i (div (add (add (mul (a12 tr) x) (mul (a22 tr) y)) (a32 tr)) denominator) in
       (xValues, yValues))
    (map Z.of_nat (seq (length prex) (length xs)))
    (prex ++ xs, prey ++ ys)
  = (prex ++ map (fun p => fst (stored (imageOf tr p))) (combine xs ys),
     prey ++ map (fun p => snd (stored (imageOf tr p))) (combine xs ys)).
Proof.
  intros ys prex prey Hpre Hlen.
  exact (pairwise_from
           (fun x y => div (add (add (mul (a11 tr) x) (mul (a21 tr) y)) (a31 tr))
                           (add (add (mul (a13 tr) x) (mul (a23 tr) y)) (a33 tr)))
           (fun x y => div (add (add (mul (a12 tr) x) (mul (a22 tr) y)) (a32 tr))
                           (add (add (mul (a13 tr) x) (mul (a23 tr) y)) (a33 tr)))
           xs ys prex prey Hpre Hlen).
Qed.

Lemma flatten_combine_map {A} (f g : A -> number) l :
  flatten (combine (map f l) (map g l)) = flatten (map (fun p => (f p, g p)) l).
Proof.
  induction l as [|a l IH]; [reflexivity |]. cbn [map combine flatten fst snd].
  now rewrite IH.
Qed.

(** X12. On two arrays of the same length, [transformPointsWithValues]
    replaces the [i]-th x and y by the image of the point they form, computed
    in doubles and rounded to a single by the store, and so agrees with
    [transformPoints] on the interleaved array. *)
Theorem transformPointsWithValues_agrees tr xs ys :
  length xs = length ys ->
  let r := transformPointsWithValues tr xs ys in
  fst r = map (fun p => fst (stored (imageOf tr p))) (combine xs ys) /\
  snd r = map (fun p => snd (stored (imageOf tr p))) (combine xs ys) /\
  flatten (combine (fst r) (snd r)) = transformPoints tr (flatten (combine xs ys)).
Proof.
  intros Hlen r.
  assert (r = (map (fun p => fst (stored (imageOf tr p))) (combine xs ys),
               map (fun p => snd (stored (imageOf tr p))) (combine xs ys))) as ->.
  { subst r. unfold transformPointsWithValues, upto. rewrite Nat2Z.id.
    exact (transformPointsWithValues_from tr xs ys [] [] eq_refl Hlen). }
  cbn [fst snd]. split; [reflexivity |]. split; [reflexivity |].
  rewrite transformPoints_flatten, flatten_combine_map. reflexivity.
Qed.

Lemma transformPointsWithValues_agrees_witness :
  fst (transformPointsWithValues identityTransform [Fin 1; Fin 3] [Fin 2; Fin 4])
  = map (fun p => fst (stored (imageOf identityTransform p)))
        (combine [Fin 1; Fin 3] [Fin 2; Fin 4]).
Proof.
  exact (proj1 (transformPointsWithValues_agrees identityTransform
                  [Fin 1; Fin 3] [Fin 2; Fin 4] eq_refl)).
Defined.

End PointLoops.

(** ** GridSampler: what a successful check leaves *)

Section NudgeResults.
Import Num Points GridSampler.

Lemma scanPoints_length w h ps : forall r,
  scanPoints w h ps = Ok r -> length r = length ps.
Proof.
  induction ps as [|p ps IH]; intros r H; cbn [scanPoints] in H.
  - now injection H as <-.
  - destruct (farOut w h p); [discriminate |]. destruct (oneOut w h p).
    + destruct (scanPoints w h ps) as [rest'|]; [| discriminate].
      cbn [bind] in H. injection H as <-. cbn [length]. now rewrite (IH rest').
    + now injection H as <-.
Qed.

(** The first point of a finished scan is inside. *)
Lemma scanPoints_head w h ps q R :
  1 <= w <= 2 ^ 24 + 1 -> 1 <= h <= 2 ^ 24 + 1 ->
  scanPoints w h ps = Ok (q :: R) -> inside w h q = true.
Proof.
  intros Hw Hh H. destruct ps as [|p ps]; cbn [scanPoints] in H; [discriminate |].
  destruct (farOut w h p) eqn:Ef; [discriminate |]. destruct (oneOut w h p) eqn:Eo.
  - destruct (scanPoints w h ps) as [rest'|]; [| discriminate].
    cbn [bind] in H. injection H as <- _. now apply clamp_inside.
  - injection H as <- _. unfold inside. now rewrite Ef, Eo.
Qed.

(** A last point that is inside is still the last point after the scan. *)
Lemma scanPoints_last w h L : forall p r,
  scanPoints w h (L ++ [p]) = Ok r -> inside w h p = true -> exists L', r = L' ++ [p].
Proof.
  induction L as [|p0 L IH]; intros p r H Hin.
  - cbn [app] in H. rewrite scanPoints_inside in H by assumption.
    injection H as <-. now exists [].
  - cbn [app scanPoints] in H.
    destruct (farOut w h p0); [discriminate |]. destruct (oneOut w h p0).
    + destruct (scanPoints w h (L ++ [p])) as [rest'|] eqn:E; [| discriminate].
      cbn [bind] in H. injection H as <-.
      destruct (IH p rest' E Hin) as [L' ->]. now exists (clamp w h p0 :: L').
    + injection H as <-. now exists (p0 :: L).
Qed.

(** What [inside] says of the two coordinates. *)
Lemma accepted_spec size v :
  accepted size v <->
  lt (floor v) (ofZ (-1)) = false /\ gt (floor v) (ofZ size) = false /\
  eqb (floor v) (ofZ (-1)) = false /\ eqb (floor v) (ofZ size) = false.
Proof.
  assert (forall z, lt (ofZ 0) (ofZ z) = lt NegZero (ofZ z)) as L1 by reflexivity.
  assert (forall z, lt (ofZ z) (ofZ 0) = lt (ofZ z) NegZero) as L2 by reflexivity.
  assert (forall z, eqb (ofZ 0) (ofZ z) = eqb NegZero (ofZ z)) as L3 by reflexivity.
  destruct v as [q| | | |]; cbn [accepted floor]; unfold gt.
  - change (Fin (inject_Z (Qfloor q))) with (ofZ (Qfloor q)).
    rewrite !lt_ofZ, !eqb_ofZ.
    destruct (Z.ltb_spec (Qfloor q) (-1)), (Z.ltb_spec size (Qfloor q)),
      (Z.eqb_spec (Qfloor q) (-1)), (Z.eqb_spec (Qfloor q) size);
      split; intros; repeat split; try reflexivity; try lia; try tauto;
      repeat match goal with H : _ /\ _ |- _ => destruct H end; discriminate.
  - rewrite <- L1, <- L2, <- !L3, !lt_ofZ, !eqb_ofZ.
    destruct (Z.ltb_spec size 0), (Z.eqb_spec 0 size);
      split; intros; repeat split; try reflexivity; try lia;
      repeat match goal with H : _ /\ _ |- _ => destruct H end; discriminate.
  - split; [intros [] | intros (_ & H & _); discriminate].
  - split; [intros [] | intros (H & _); discriminate].
  - split; [intros _; repeat split | trivial].
Qed.

Lemma inside_accepted w h p :
  inside w h p = true <-> accepted w (fst p) /\ accepted h (snd p).
Proof.
  rewrite !accepted_spec. unfold inside, farOut, oneOut.
  destruct (lt (floor (fst p)) (ofZ (-1))), (gt (floor (fst p)) (ofZ w)),
    (lt (floor (snd p)) (ofZ (-1))), (gt (floor (snd p)) (ofZ h)),
    (eqb (floor (fst p)) (ofZ (-1))), (eqb (floor (fst p)) (ofZ w)),
    (eqb (floor (snd p)) (ofZ (-1))), (eqb (floor (snd p)) (ofZ h));
    cbn [negb andb orb]; split; intros H; try discriminate; try tauto;
    repeat split; try reflexivity;
    repeat match goal with H : _ /\ _ |- _ => destruct H end; discriminate.
Qed.

(** X16. When [checkAndNudgePoints] returns on an array of whole points, for
    an image at most [2^24 + 1] wide and high, the array has kept its
    length, the coordinates of its first and of its last point are ones that
    the check leaves as they are (NaN, or a finite number whose floor is an
    index of the image), and a second check of the result returns it
    unchanged. *)
Theorem checkAndNudgePoints_result image ps r' :
  1 <= BitMatrix.width image <= 2 ^ 24 + 1 ->
  1 <= BitMatrix.height image <= 2 ^ 24 + 1 ->
  checkAndNudgePoints image (flatten ps) = Ok r' ->
  exists r,
    r' = flatten r /\ length r = length ps /\
    (forall q R, r = q :: R ->
       accepted (BitMatrix.width image) (fst q) /\
       accepted (BitMatrix.height image) (snd q)) /\
    (forall L q, r = L ++ [q] ->
       accepted (BitMatrix.width image) (fst q) /\
       accepted (BitMatrix.height image) (snd q)) /\
    checkAndNudgePoints image r' = Ok r'.
Proof.
  intros Hw Hh H. rewrite checkAndNudgePoints_scans in H.
  set (w := BitMatrix.width image) in *. set (h := BitMatrix.height image) in *.
  destruct (scanPoints w h ps) as [r1|] eqn:E1; [| discriminate]. cbn [bind] in H.
  destruct (scanPoints w h (rev r1)) as [r2|] eqn:E2; [| discriminate]. cbn [bind] in H.
  injection H as <-.
  assert (forall q R, rev r2 = q :: R -> inside w h q = true) as Hfirst.
  { intros q R Hr. destruct r1 as [|q1 R1].
    - cbn [rev scanPoints] in E2. injection E2 as <-. discriminate.
    - pose proof (scanPoints_head w h ps q1 R1 Hw Hh E1) as Hq1.
      cbn [rev] in E2. destruct (scanPoints_last w h (rev R1) q1 r2 E2 Hq1) as [L' ->].
      rewrite rev_unit in Hr. now injection Hr as <- _. }
  assert (forall L q, rev r2 = L ++ [q] -> inside w h q = true) as Hlast.
  { intros L q Hr. apply (f_equal (@rev _)) in Hr.
    rewrite rev_involutive, rev_unit in Hr. subst r2.
    exact (scanPoints_head w h (rev r1) q (rev L) Hw Hh E2). }
  exists (rev r2). split; [reflexivity |].
  split; [| split; [| split]].
  - rewrite length_rev, (scanPoints_length w h (rev r1) r2 E2), length_rev.
    exact (scanPoints_length w h ps r1 E1).
  - intros q R Hr. apply inside_accepted. exact (Hfirst q R Hr).
  - intros L q Hr. apply inside_accepted. exact (Hlast L q Hr).
  - rewrite checkAndNudgePoints_scans. fold w h.
    destruct (rev r2) as [|q R] eqn:Er; [reflexivity |].
    rewrite scanPoints_inside by (eapply Hfirst; reflexivity). cbn [bind].
    rewrite <- Er, rev_involutive.
    destruct r2 as [|q2 R2]; [reflexivity |].
    rewrite scanPoints_inside; [reflexivity |].
    exact (scanPoints_head w h (rev r1) q2 R2 Hw Hh E2).
Qed.

Lemma checkAndNudgePoints_result_witness :
  exists r,
    [Fin 0; Fin 0; Fin (9 # 2); Fin (9 # 2)] = flatten r /\
    checkAndNudgePoints image10 [Fin 0; Fin 0; Fin (9 # 2); Fin (9 # 2)]
    = Ok [Fin 0; Fin 0; Fin (9 # 2); Fin (9 # 2)].
Proof.
  destruct (checkAndNudgePoints_result image10
              [(single (-9 # 10), single (-9 # 10)); (Fin (9 # 2), Fin (9 # 2))]
              [Fin 0; Fin 0; Fin (9 # 2); Fin (9 # 2)])
    as (r & H1 & _ & _ & _ & H5).
  - cbn [BitMatrix.width image10]; lia.
  - cbn [BitMatrix.height image10]; lia.
  - vm_compute; reflexivity.
  - exists r. split; [exact H1 | exact H5].
Defined.

End NudgeResults.

(** ** DefaultGridSampler: outcome of a sampling call *)

Section SamplerOutcome.
Import Num DefaultGridSampler.

Lemma set_sameShape m x y : BitMatrix.sameShape m (BitMatrix.set m x y).
Proof.
  unfold BitMatrix.set, BitMatrix.withBits, BitMatrix.sameShape.
  cbn [BitMatrix.width BitMatrix.height BitMatrix.rowSize BitMatrix.bits].
  repeat split. apply length_typedSet.
Qed.

Lemma fill_sameShape {A} (b : A -> bool) (cx cy : A -> Z) (l : list A) : forall m,
  BitMatrix.sameShape m
    (fold_left (fun bits a => if b a then BitMatrix.set bits (cx a) (cy a) else bits) l m).
Proof.
  induction l as [|a l IH]; intros m; cbn [fold_left]; [apply sameShape_refl |].
  destruct (b a); [| apply IH].
  eapply sameShape_trans; [apply set_sameShape | apply IH].
Qed.

Lemma sampleRow_sameShape image transform bits points y bits' points' :
  sampleRow image transform (bits, points) y = Ok (bits', points') ->
  BitMatrix.sameShape bits bits'.
Proof.
  unfold sampleRow. intros H.
  destruct (GridSampler.checkAndNudgePoints image _) as [pts|]; [| discriminate].
  cbn [bind tryCatch] in H. injection H as <- _.
  exact (fill_sameShape
           (fun x => BitMatrix.getAtFloor image (get pts x) (get pts (x + 1)))
           (fun x => x / 2) (fun _ => y) _ bits).
Qed.

Lemma sampleRows_sameShape image transform ys : forall bits points st,
  foldM (sampleRow image transform) ys (bits, points) = Ok st ->
  BitMatrix.sameShape bits (fst st).
Proof.
  induction ys as [|y ys IH]; intros bits points st H; cbn [foldM] in H.
  - injection H as <-. apply sameShape_refl.
  - destruct (sampleRow image transform (bits, points) y) as [[bits1 points1]|] eqn:E;
      [| discriminate].
    cbn [bind] in H. eapply sameShape_trans.
    + exact (sampleRow_sameShape _ _ _ _ _ _ _ E).
    + exact (IH _ _ _ H).
Qed.

(** X17. When [sampleGridWithTransform] returns, both dimensions are
    positive and the matrix returned has them as its width and height, with
    the row size and the number of words the constructor gives such a
    matrix: the sampling loops never change the shape. *)
Theorem sampleGridWithTransform_outcome image dimensionX dimensionY transform m :
  sampleGridWithTransform image dimensionX dimensionY transform = Ok m ->
  1 <= dimensionX /\ 1 <= dimensionY /\
  BitMatrix.width m = dimensionX /\ BitMatrix.height m = dimensionY /\
  BitMatrix.rowSize m = (dimensionX + 31) / 32 /\
  Z.of_nat (length (BitMatrix.bits m)) = BitMatrix.rowSize m * BitMatrix.height m.
Proof.
  unfold sampleGridWithTransform.
  destruct (Z.leb_spec dimensionX 0) as [Hx|Hx]; [discriminate |].
  destruct (Z.leb_spec dimensionY 0) as [Hy|Hy]; [discriminate |].
  cbn [orb]. unfold BitMatrix.new.
  destruct (Z.ltb_spec dimensionX 1); [lia |].
  destruct (Z.ltb_spec dimensionY 1); [lia |]. cbn [orb bind].
  set (z := {| BitMatrix.width := dimensionX |}).
  destruct (foldM _ _ _) as [st|e'] eqn:E; cbn [bind]; [| discriminate].
  intros [= <-].
  destruct (sampleRows_sameShape _ _ _ _ _ _ E) as (Hw & Hh & Hr & Hl).
  rewrite Hw, Hh, Hr, Hl. subst z.
  cbn [BitMatrix.width BitMatrix.height BitMatrix.rowSize BitMatrix.bits].
  rewrite repeat_length.
  assert (0 <= (dimensionX + 31) / 32) by (apply Z.div_pos; lia).
  repeat split; try lia; apply Z2Nat.id; nia.
Qed.

Lemma sampleGridWithTransform_outcome_witness :
  BitMatrix.width {| BitMatrix.width := 2; BitMatrix.height := 2; BitMatrix.rowSize := 1;
                     BitMatrix.bits := [0; 0] |} = 2.
Proof.
  refine (proj1 (proj2 (proj2
            (sampleGridWithTransform_outcome image10 2 2
               (translation (-14 # 10) (-14 # 10)) _ _)))).
  vm_compute; reflexivity.
Defined.

End SamplerOutcome.

(** ** DefaultGridSampler: the bits sampled *)

Section Sampling.
Import Num Points DefaultGridSampler.

Lemma unflatten (n : nat) : forall l : list number,
  length l = (2 * n)%nat -> exists ps, l = flatten ps /\ length ps = n.
Proof.
  induction n as [|n IH]; intros l Hl.
  - destruct l; [| discriminate]. now exists [].
  - destruct l as [|a [|b l]]; cbn [length] in Hl; try lia.
    destruct (IH l ltac:(lia)) as (ps & -> & Hps).
    exists ((a, b) :: ps). split; [reflexivity |]. cbn [length]. lia.
Qed.

Lemma fold_left_map {A B C} (f : A -> B -> A) (g : C -> B) l : forall a,
  fold_left f (map g l) a = fold_left (fun a x => f a (g x)) l a.
Proof. induction l as [|x l IH]; intros a; [reflexivity |]. cbn [map fold_left]. apply IH. Qed.

Lemma fold_left_ext_in {A B} (f g : A -> B -> A) l :
  (forall a x, In x l -> f a x = g a x) -> forall a, fold_left f l a = fold_left g l a.
Proof.
  induction l as [|x l IH]; intros H a; [reflexivity |]. cbn [fold_left].
  rewrite H by now left. apply IH. intros a' x' Hx'. apply H. now right.
Qed.

(** The first loop of a row: the centres of the modules of row [y]. *)
Lemma fillPoints_from iValue ps : forall pre,
  fold_left
    (fun points x => set (set points x (add (ofZ (x / 2)) half)) (x + 1) iValue)
    (map (fun k => 2 * k) (map Z.of_nat (seq (length pre) (length ps))))
    (flatten (pre ++ ps))
  = flatten (pre ++ map (fun k => (fround (add (ofZ (Z.of_nat k)) half), fround iValue))
                        (seq (length pre) (length ps))).
Proof.
  induction ps as [|p ps IH]; intros pre; [reflexivity |].
  cbn [fold_left map seq length].
  rewrite set_flatten_fst, (set_flatten_snd pre (_, snd p) ps). cbn [fst].
  replace (2 * Z.of_nat (length pre) / 2) with (Z.of_nat (length pre))
    by (Z.div_mod_to_equations; lia).
  specialize (IH (pre ++ [(fround (add (ofZ (Z.of_nat (length pre))) half), fround iValue)])).
  rewrite length_app, Nat.add_1_r, <- !app_assoc in IH. cbn [app length] in IH.
  exact IH.
Qed.

Lemma get_flatten_map (f : Z -> point) n k :
  0 <= k < n ->
  get (flatten (map f (upto n))) (2 * k) = fst (f k) /\
  get (flatten (map f (upto n))) (2 * k + 1) = snd (f k).
Proof.
  intros Hk. rewrite (upto_split n k Hk), List.map_app. cbn [map].
  assert (Z.of_nat (length (map f (upto k))) = k) as Hlen
    by (rewrite length_map, length_upto; lia).
  set (post := map f (map Z.of_nat _)).
  pose proof (get_flatten_fst (map f (upto k)) (f k) post) as H1.
  pose proof (get_flatten_snd (map f (upto k)) (f k) post) as H2.
  rewrite Hlen in H1, H2. now split.
Qed.

(** A batch whose first and last point are inside passes the check as it is. *)
Lemma checkAndNudgePoints_unchanged image Q :
  (forall q R, Q = q :: R ->
     inside (BitMatrix.width image) (BitMatrix.height image) q = true) ->
  (forall L q, Q = L ++ [q] ->
     inside (BitMatrix.width image) (BitMatrix.height image) q = true) ->
  GridSampler.checkAndNudgePoints image (flatten Q) = Ok (flatten Q).
Proof.
  intros Hfirst Hlast. rewrite checkAndNudgePoints_scans.
  destruct Q as [|q R]; [reflexivity |].
  rewrite scanPoints_inside by (eapply Hfirst; reflexivity). cbn [bind].
  destruct (rev (q :: R)) as [|q' R'] eqn:Er.
  - cbn [scanPoints bind rev]. apply (f_equal (@rev _)) in Er.
    rewrite rev_involutive in Er. discriminate.
  - rewrite scanPoints_inside.
    + cbn [bind]. now rewrite <- Er, rev_involutive.
    + apply (Hlast (rev R') q'). apply (f_equal (@rev _)) in Er.
      rewrite rev_involutive in Er. rewrite Er. reflexivity.
Qed.

(** One row of the sampling loop when the first and the last sample point
    of the row are inside the image. *)
Lemma sampleRow_inside image transform dimensionX bits points y :
  1 <= dimensionX -> length points = (2 * Z.to_nat dimensionX)%nat ->
  inside (BitMatrix.width image) (BitMatrix.height image) (samplePoint transform 0 y) = true ->
  inside (BitMatrix.width image) (BitMatrix.height image)
         (samplePoint transform (dimensionX - 1) y) = true ->
  sampleRow image transform (bits, points) y
  = Ok (fold_left
          (fun bits k =>
             if BitMatrix.getAtFloor image (fst (samplePoint transform k y))
                                     (snd (samplePoint transform k y))
             then BitMatrix.set bits k y else bits)
          (upto dimensionX) bits,
        flatten (map (fun k => samplePoint transform k y) (upto dimensionX))).
Proof.
  intros Hx Hlen H0 Hn. destruct (unflatten _ _ Hlen) as (ps & -> & Hps).
  unfold sampleRow. cbv zeta. rewrite evens_flatten.
  pose proof (fillPoints_from (add (ofZ y) half) ps []) as Hfill.
  cbn [length app] in Hfill. rewrite Hfill, Hps. clear Hfill.
  assert (map (fun k : nat => (fround (add (ofZ (Z.of_nat k)) half), fround (add (ofZ y) half)))
              (seq 0 (Z.to_nat dimensionX))
          = map (fun k => moduleCentre k y) (upto dimensionX)) as ->
    by (unfold upto; now rewrite map_map).
  rewrite transformPoints_flatten, map_map.
  change (map (fun x => PerspectiveTransform.stored
                          (PerspectiveTransform.imageOf transform (moduleCentre x y)))
              (upto dimensionX))
    with (map (fun k => samplePoint transform k y) (upto dimensionX)).
  rewrite checkAndNudgePoints_unchanged.
  - cbn [bind tryCatch]. do 2 f_equal.
    rewrite fold_left_map. change (map Z.of_nat (seq 0 (Z.to_nat dimensionX)))
      with (upto dimensionX).
    apply fold_left_ext_in. intros a k Hk. apply elem_of_upto in Hk.
    destruct (get_flatten_map (fun k => samplePoint transform k y) dimensionX k Hk)
      as [E1 E2].
    unfold point in E1, E2. cbv beta in E1, E2. rewrite E1, E2.
    now replace (2 * k / 2) with k by (Z.div_mod_to_equations; lia).
  - intros q R HQ. rewrite (upto_split dimensionX 0 ltac:(lia)) in HQ.
    cbn [upto Z.to_nat seq map app] in HQ. now injection HQ as <- _.
  - intros L q HQ.
    replace dimensionX with (Z.of_nat (S (Z.to_nat (dimensionX - 1)))) in HQ at 1 by lia.
    rewrite upto_succ, List.map_app in HQ. cbn [map] in HQ.
    apply app_inj_tail in HQ as [_ <-]. now rewrite Z2Nat.id by lia.
Qed.

Lemma length_flatten_map {A} (f : A -> point) l :
  length (flatten (map f l)) = (2 * length l)%nat.
Proof. now rewrite length_flatten, length_map. Qed.

(** The loop over the rows [ys] under the same condition. *)
Lemma sampleRows_inside image transform dimensionX ys : forall bits points,
  1 <= dimensionX -> length points = (2 * Z.to_nat dimensionX)%nat ->
  (forall y, In y ys ->
     inside (BitMatrix.width image) (BitMatrix.height image) (samplePoint transform 0 y) = true /\
     inside (BitMatrix.width image) (BitMatrix.height image)
            (samplePoint transform (dimensionX - 1) y) = true) ->
  exists points',
    foldM (sampleRow image transform) ys (bits, points)
    = Ok (fold_left
            (fun bits y =>
               fold_left
                 (fun bits k =>
                    if BitMatrix.getAtFloor image (fst (samplePoint transform k y))
                                            (snd (samplePoint transform k y))
                    then BitMatrix.set bits k y else bits)
                 (upto dimensionX) bits)
            ys bits, points').
Proof.
  induction ys as [|y ys IH]; intros bits points Hx Hlen Hin.
  - exists points. reflexivity.
  - cbn [foldM fold_left].
    destruct (Hin y ltac:(now left)) as [H0 Hn].
    rewrite (sampleRow_inside image transform dimensionX bits points y Hx Hlen H0 Hn).
    cbn [bind]. apply IH; [assumption | |].
    + rewrite length_flatten_map, length_upto. reflexivity.
    + intros y' Hy'. apply Hin. now right.
Qed.

(** The matrix a sampling call returns, on all of its packed rows. *)
Lemma sampling_bits image dimensionX dimensionY transform :
  1 <= dimensionX < 2 ^ 31 -> 1 <= dimensionY < 2 ^ 31 ->
  (forall y, 0 <= y < dimensionY ->
     inside (BitMatrix.width image) (BitMatrix.height image) (samplePoint transform 0 y) = true /\
     inside (BitMatrix.width image) (BitMatrix.height image)
            (samplePoint transform (dimensionX - 1) y) = true) ->
  exists m,
    sampleGridWithTransform image dimensionX dimensionY transform = Ok m /\
    BitMatrix.wellFormed m /\
    BitMatrix.width m = dimensionX /\ BitMatrix.height m = dimensionY /\
    forall x y, 0 <= x < 32 * BitMatrix.rowSize m -> 0 <= y < dimensionY ->
      BitMatrix.get m x y
      = (x <? dimensionX) &&
        BitMatrix.getAtFloor image (fst (samplePoint transform x y))
                             (snd (samplePoint transform x y)).
Proof.
  intros Hx Hy Hin. unfold sampleGridWithTransform.
  destruct (Z.leb_spec dimensionX 0); [lia |].
  destruct (Z.leb_spec dimensionY 0); [lia |]. cbn [orb].
  destruct (new_fresh dimensionX dimensionY Hx Hy) as (z & Ez & Hwfz & Hwz & Hhz & Hgz).
  rewrite Ez. cbn [bind].
  destruct (sampleRows_inside image transform dimensionX (upto dimensionY) z
              (repeat (Fin 0) (Z.to_nat (2 * dimensionX)))) as [points' E].
  { lia. }
  { rewrite repeat_length. lia. }
  { intros y Hy'. apply Hin. now apply elem_of_upto. }
  rewrite E. cbn [bind fst]. clear E.
  set (p := fun c : Z * Z =>
              BitMatrix.getAtFloor image (fst (samplePoint transform (snd c) (fst c)))
                                   (snd (samplePoint transform (snd c) (fst c)))).
  rewrite (fold_nested
             (fun bits y k =>
                if BitMatrix.getAtFloor image (fst (samplePoint transform k y))
                                        (snd (samplePoint transform k y))
                then BitMatrix.set bits k y else bits)).
  rewrite (fold_guarded p (fun mt c => BitMatrix.set mt (snd c) (fst c))).
  destruct (setMany_spec (List.filter p (list_prod (upto dimensionY) (upto dimensionX)))
              z Hwfz) as (Hwf' & (Hw' & Hh' & Hr' & Hl') & Hg').
  { pose proof (rowSize_bounds z Hwfz) as [_ Hrw].
    intros [cy cx] Hc. cbn [fst snd]. apply filter_In in Hc as [Hc _].
    apply in_prod_iff in Hc as [Hcy Hcx]. apply elem_of_upto in Hcy, Hcx. lia. }
  set (m := fold_left _ _ z) in *.
  exists m. split; [reflexivity |]. split; [exact Hwf' |].
  split; [congruence |]. split; [congruence |].
  intros x y Hx' Hy'. rewrite Hr' in Hx'. rewrite Hg' by lia.
  rewrite Hgz, existsb_filter_prod. cbn [orb].
  destruct (Z.leb_spec 0 x), (Z.leb_spec 0 y), (Z.ltb_spec y dimensionY); try lia.
  cbn [andb]. now rewrite !andb_true_r.
Qed.

(** X18. Let both dimensions be positive and, for every row of the output,
    let the sample points of its first and of its last module be points
    that the check leaves as they are.  Then [sampleGridWithTransform] does
    not throw [NotFoundException], and a matrix it returns is well formed,
    [dimensionX] by [dimensionY], with its unused bits clear, and has as its
    bit [(x, y)] the bit of the image at the floor of the sample point of
    module [(x, y)]: the centre [(x + 0.5, y + 0.5)] as a single, transformed
    in doubles and stored as a single. *)
Theorem sampleGridWithTransform_samples image dimensionX dimensionY transform :
  1 <= dimensionX < 2 ^ 31 -> 1 <= dimensionY < 2 ^ 31 ->
  (forall y, 0 <= y < dimensionY ->
     accepted (BitMatrix.width image) (fst (samplePoint transform 0 y)) /\
     accepted (BitMatrix.height image) (snd (samplePoint transform 0 y)) /\
     accepted (BitMatrix.width image) (fst (samplePoint transform (dimensionX - 1) y)) /\
     accepted (BitMatrix.height image) (snd (samplePoint transform (dimensionX - 1) y))) ->
  sampleGridWithTransform image dimensionX dimensionY transform <> Throw NotFoundException /\
  forall m,
    sampleGridWithTransform image dimensionX dimensionY transform = Ok m ->
    BitMatrix.wellFormed m /\ BitMatrix.cleanPadding m /\
    BitMatrix.width m = dimensionX /\ BitMatrix.height m = dimensionY /\
    forall x y, 0 <= x < dimensionX -> 0 <= y < dimensionY ->
      BitMatrix.get m x y
      = BitMatrix.getAtFloor image (fst (samplePoint transform x y))
                             (snd (samplePoint transform x y)).
Proof.
  intros Hx Hy Hin.
  destruct (sampling_bits image dimensionX dimensionY transform Hx Hy)
    as (m & E & Hwf & Hw & Hh & Hget).
  { intros y Hy'. destruct (Hin y Hy') as (H1 & H2 & H3 & H4).
    split; apply inside_accepted; now split. }
  rewrite E. split; [discriminate |]. intros m' [= <-].
  pose proof (rowSize_bounds m Hwf) as [_ Hrw].
  split; [exact Hwf |].
  split; [| split; [exact Hw | split; [exact Hh |]]].
  - intros x y Hx' Hy'. rewrite Hget by lia.
    destruct (Z.ltb_spec x dimensionX); [lia | reflexivity].
  - intros x y Hx' Hy'. rewrite Hget by lia.
    destruct (Z.ltb_spec x dimensionX); [reflexivity | lia].
Qed.

End Sampling.

Section IdentitySampling.
Import Num Points DefaultGridSampler.

Lemma sampleGridWithTransform_samples_witness :
  sampleGridWithTransform darkImage4 4 4 identityTransform <> Throw NotFoundException.
Proof.
  refine (proj1 (sampleGridWithTransform_samples darkImage4 4 4 identityTransform _ _ _)).
  - lia.
  - lia.
  - intros y Hy.
    assert (y = 0 \/ y = 1 \/ y = 2 \/ y = 3) as [->|[->|[->| ->]]] by lia;
      vm_compute; repeat split; congruence.
Defined.

Lemma Qfloor_plus_half x : Qfloor (inject_Z x + (1 # 2)) = x.
Proof.
  unfold Qfloor, Qplus, inject_Z. cbn [Qnum Qden Pos.mul].
  Z.div_mod_to_equations. lia.
Qed.

(** *** Module centres under the identity transform

    The number [x + 0.5] is a single for an index [x] below [2^23], so no
    operation of the identity transform rounds it. *)
Local Open Scope Q_scope.

Lemma roundTo_centre prec emax q x :
  (prec = 24 /\ emax = 128)%Z \/ (prec = 53 /\ emax = 1024)%Z ->
  (0 <= x < 2 ^ 23)%Z -> q == inject_Z x + (1 # 2) ->
  centreOf (roundTo prec emax q) x.
Proof.
  intros Hfmt Hx Hq. exists (Qred q). split; [| now rewrite Qred_correct].
  apply (roundTo_exact prec emax q (2 * x + 1) (-1)).
  - rewrite Hq, inject_Z_plus, inject_Z_mult. change (2 ^ (-1)) with (1 # 2).
    change (inject_Z 2) with 2. change (inject_Z 1) with 1. field.
  - destruct Hfmt as [[-> ->]|[-> ->]]; lia.
  - destruct Hfmt as [[-> ->]|[-> ->]]; lia.
  - destruct Hfmt as [[-> ->]|[-> ->]]; lia.
Qed.

Lemma centre_positive q x : (0 <= x)%Z -> q == inject_Z x + (1 # 2) -> 0 < q.
Proof.
  intros Hx ->. apply Qlt_le_trans with (1 # 2); [reflexivity |].
  rewrite <- (Qplus_0_l (1 # 2)) at 1. apply Qplus_le_l.
  change 0 with (inject_Z 0). rewrite <- Zle_Qle. exact Hx.
Qed.

Lemma centre_nonzero q x :
  (0 <= x)%Z -> q == inject_Z x + (1 # 2) ->
  Qeq_bool q 0 = false /\ Qle_bool 0 q = true.
Proof.
  intros Hx Hq. pose proof (centre_positive q x Hx Hq) as Hpos. split.
  - destruct (Qeq_bool q 0) eqn:E; [| reflexivity].
    apply Qeq_bool_iff in E. rewrite E in Hpos. discriminate.
  - apply Qle_bool_iff. now apply Qlt_le_weak.
Qed.

Lemma centre_new x : (0 <= x < 2 ^ 23)%Z -> centreOf (fround (add (ofZ x) half)) x.
Proof.
  intros Hx. unfold add, ofZ, half. cbn [value].
  destruct (centre_nonzero (inject_Z x + (1 # 2)) x) as [-> _]; [lia | reflexivity |].
  destruct (roundTo_centre 53 1024 (inject_Z x + (1 # 2)) x) as (q & E & Hq);
    [now right | exact Hx | reflexivity |].
  unfold round64. rewrite E. cbn [fround].
  apply roundTo_centre; [now left | exact Hx | exact Hq].
Qed.

Lemma centre_fround v x : (0 <= x < 2 ^ 23)%Z -> centreOf v x -> centreOf (fround v) x.
Proof.
  intros Hx (q & -> & Hq). cbn [fround]. apply roundTo_centre; [now left | exact Hx | exact Hq].
Qed.

Lemma centre_mul_one v x : (0 <= x < 2 ^ 23)%Z -> centreOf v x -> centreOf (mul (Fin 1) v) x.
Proof.
  intros Hx (q & -> & Hq). unfold mul. cbn [isInfinite isZero orb value].
  destruct (centre_nonzero q x) as [-> _]; [lia | exact Hq |].
  change (Qeq_bool 1 0) with false. cbn [orb].
  apply roundTo_centre; [now right | exact Hx |]. rewrite Hq. ring.
Qed.

Lemma centre_mul_zero v x : (0 <= x)%Z -> centreOf v x -> mul (Fin 0) v = Fin 0.
Proof.
  intros Hx (q & -> & Hq). unfold mul. cbn [isInfinite isZero orb value signBit].
  destruct (centre_nonzero q x) as [_ ->]; [lia | exact Hq |]. reflexivity.
Qed.

Lemma centre_add_zero_r v x : (0 <= x < 2 ^ 23)%Z -> centreOf v x -> centreOf (add v (Fin 0)) x.
Proof.
  intros Hx (q & -> & Hq). unfold add. cbn [value].
  destruct (centre_nonzero (q + 0) x) as [-> _]; [lia | rewrite Hq; ring |].
  apply roundTo_centre; [now right | exact Hx |]. rewrite Hq. ring.
Qed.

Lemma centre_add_zero_l v x : (0 <= x < 2 ^ 23)%Z -> centreOf v x -> centreOf (add (Fin 0) v) x.
Proof.
  intros Hx (q & -> & Hq). unfold add. cbn [value].
  destruct (centre_nonzero (0 + q) x) as [-> _]; [lia | rewrite Hq; ring |].
  apply roundTo_centre; [now right | exact Hx |]. rewrite Hq. ring.
Qed.

Lemma centre_div_one v x : (0 <= x < 2 ^ 23)%Z -> centreOf v x -> centreOf (div v (Fin 1)) x.
Proof.
  intros Hx (q & -> & Hq). unfold div. cbn [isInfinite isZero value].
  destruct (centre_nonzero q x) as [-> _]; [lia | exact Hq |].
  change (Qeq_bool 1 0) with false. cbv iota.
  apply roundTo_centre; [now right | exact Hx |]. rewrite Hq. field.
Qed.

Local Close Scope Q_scope.

(** Under the identity transform the sample point of module [(x, y)] lies
    in pixel [(x, y)], for indices below [2^23]. *)
Lemma samplePoint_identity x y :
  0 <= x < 2 ^ 23 -> 0 <= y < 2 ^ 23 ->
  exists qx qy,
    samplePoint identityTransform x y = (Fin qx, Fin qy) /\
    Qfloor qx = x /\ Qfloor qy = y.
Proof.
  intros Hx Hy.
  pose proof (centre_new x Hx) as Cx. pose proof (centre_new y Hy) as Cy.
  unfold samplePoint, moduleCentre, PerspectiveTransform.stored,
    PerspectiveTransform.imageOf, identityTransform.
  cbn [fst snd PerspectiveTransform.a11 PerspectiveTransform.a12 PerspectiveTransform.a13
       PerspectiveTransform.a21 PerspectiveTransform.a22 PerspectiveTransform.a23
       PerspectiveTransform.a31 PerspectiveTransform.a32 PerspectiveTransform.a33].
  set (X := fround (add (ofZ x) half)) in *. set (Y := fround (add (ofZ y) half)) in *.
  rewrite (centre_mul_zero X x), (centre_mul_zero Y y) by (lia || assumption).
  change (add (add (Fin 0) (Fin 0)) (Fin 1)) with (Fin 1).
  destruct (centre_fround _ x Hx
              (centre_div_one _ x Hx
                 (centre_add_zero_r _ x Hx
                    (centre_add_zero_r _ x Hx (centre_mul_one X x Hx Cx)))))
    as (qx & -> & Hqx).
  destruct (centre_fround _ y Hy
              (centre_div_one _ y Hy
                 (centre_add_zero_r _ y Hy
                    (centre_add_zero_l _ y Hy (centre_mul_one Y y Hy Cy)))))
    as (qy & -> & Hqy).
  exists qx, qy. split; [reflexivity |].
  rewrite (Qfloor_comp _ _ Hqx), (Qfloor_comp _ _ Hqy). split; apply Qfloor_plus_half.
Qed.

(** X19. Sampling a well-formed matrix, at most [2^23] wide and high and
    with its unused bits clear, through the identity transform at its own
    width and height does not throw [NotFoundException], and the matrix it
    returns is the matrix sampled. *)
Theorem sampleGridWithTransform_identity image :
  BitMatrix.wellFormed image -> BitMatrix.cleanPadding image ->
  BitMatrix.width image <= 2 ^ 23 -> BitMatrix.height image <= 2 ^ 23 ->
  sampleGridWithTransform image (BitMatrix.width image) (BitMatrix.height image)
    identityTransform <> Throw NotFoundException /\
  forall m,
    sampleGridWithTransform image (BitMatrix.width image) (BitMatrix.height image)
      identityTransform = Ok m ->
    m = image.
Proof.
  intros Hwf Hclean Hw23 Hh23.
  pose proof (BitMatrix.wf_width image Hwf) as Hw.
  pose proof (BitMatrix.wf_height image Hwf) as Hh.
  destruct (sampling_bits image (BitMatrix.width image) (BitMatrix.height image)
              identityTransform Hw Hh) as (m & E & Hwfm & Hwm & Hhm & Hg).
  { intros y Hy. split.
    - destruct (samplePoint_identity 0 y) as (qx & qy & -> & Ex & Ey); [lia | lia |].
      apply inside_accepted. cbn [fst snd accepted]. lia.
    - destruct (samplePoint_identity (BitMatrix.width image - 1) y)
        as (qx & qy & -> & Ex & Ey); [lia | lia |].
      apply inside_accepted. cbn [fst snd accepted]. lia. }
  assert (BitMatrix.rowSize m = BitMatrix.rowSize image) as Hr
    by (rewrite (BitMatrix.wf_rowSize m Hwfm), (BitMatrix.wf_rowSize image Hwf); congruence).
  rewrite E. split; [discriminate |]. intros m' [= <-].
  apply matrix_ext_get; [assumption | assumption | |].
  - unfold BitMatrix.sameShape. rewrite Hwm, Hhm.
    repeat split; [exact Hr |].
    pose proof (BitMatrix.wf_length m Hwfm). pose proof (BitMatrix.wf_length image Hwf).
    apply Nat2Z.inj. congruence.
  - intros x y Hx Hy. rewrite Hg by (rewrite ?Hr; lia).
    destruct (Z.ltb_spec x (BitMatrix.width image)) as [Hlt|Hge]; cbn [andb].
    + destruct (samplePoint_identity x y) as (qx & qy & -> & Ex & Ey); [lia | lia |].
      cbn [fst snd BitMatrix.getAtFloor value]. now rewrite Ex, Ey.
    + symmetry. apply Hclean; lia.
Qed.

Lemma sampleGridWithTransform_identity_witness :
  sampleGridWithTransform matrix35x3 (BitMatrix.width matrix35x3)
    (BitMatrix.height matrix35x3) identityTransform <> Throw NotFoundException.
Proof.
  apply sampleGridWithTransform_identity.
  - fixture_wellFormed.
  - apply cleanPadding_checked; [cbn; lia | vm_compute; reflexivity].
  - cbn [BitMatrix.width matrix35x3]. lia.
  - cbn [BitMatrix.height matrix35x3]. lia.
Defined.

End IdentitySampling.

(** ** BitMatrix: the lowest and the highest bit of a word *)

Section BitSearch.
Import BitMatrix.

(** The first index below [n] at which [P] holds, if there is one. *)
Lemma search_up (P : Z -> bool) (n : nat) :
  (forall k, 0 <= k < Z.of_nat n -> P k = false) \/
  (exists k, 0 <= k < Z.of_nat n /\ P k = true /\ forall j, 0 <= j < k -> P j = false).
Proof.
  induction n as [|n IH].
  - left. intros k Hk. lia.
  - destruct IH as [Hnone | (k & Hk & Hp & Hmin)].
    + destruct (P (Z.of_nat n)) eqn:E.
      * right. exists (Z.of_nat n). split; [lia |]. split; [exact E |].
        intros j Hj. apply Hnone. lia.
      * left. intros k Hk. destruct (Z.eq_dec k (Z.of_nat n)) as [->|Hne];
          [exact E | apply Hnone; lia].
    + right. exists k. split; [lia |]. split; assumption.
Qed.

(** The last index below [n] at which [P] holds, if there is one. *)
Lemma search_down (P : Z -> bool) (n : nat) :
  (forall k, 0 <= k < Z.of_nat n -> P k = false) \/
  (exists k, 0 <= k < Z.of_nat n /\ P k = true /\
             forall j, k < j < Z.of_nat n -> P j = false).
Proof.
  induction n as [|n IH].
  - left. intros k Hk. lia.
  - destruct (P (Z.of_nat n)) eqn:E.
    + right. exists (Z.of_nat n). split; [lia |]. split; [exact E |]. intros j Hj. lia.
    + destruct IH as [Hnone | (k & Hk & Hp & Hmax)].
      * left. intros k Hk. destruct (Z.eq_dec k (Z.of_nat n)) as [->|Hne];
          [exact E | apply Hnone; lia].
      * right. exists k. split; [lia |]. split; [exact Hp |].
        intros j Hj. destruct (Z.eq_dec j (Z.of_nat n)) as [->|Hne];
          [exact E | apply Hmax; lia].
Qed.

Lemma int32_zero : int32 0.
Proof. unfold int32. lia. Qed.

(** A word that is not zero has a lowest and a highest bit. *)
Lemma lowest_set_bit w :
  int32 w -> w <> 0 ->
  exists k, 0 <= k < 32 /\ Z.testbit w k = true /\
            forall j, 0 <= j < k -> Z.testbit w j = false.
Proof.
  intros Hw Hnz. destruct (search_up (Z.testbit w) 32) as [Hnone|H]; [| exact H].
  exfalso. apply Hnz. apply int32_ext; [assumption | apply int32_zero |].
  intros k Hk. rewrite Z.testbit_0_l. apply Hnone. lia.
Qed.

Lemma highest_set_bit w :
  int32 w -> w <> 0 ->
  exists k, 0 <= k < 32 /\ Z.testbit w k = true /\
            forall j, k < j < 32 -> Z.testbit w j = false.
Proof.
  intros Hw Hnz. destruct (search_down (Z.testbit w) 32) as [Hnone|H]; [| exact H].
  exfalso. apply Hnz. apply int32_ext; [assumption | apply int32_zero |].
  intros k Hk. rewrite Z.testbit_0_l. apply Hnone. lia.
Qed.

(** [(theBits << (31 - bit)) & 0xFFFFFFFF] is zero exactly when the bits of
    [theBits] up to [bit] are. *)
Lemma low_bits_zero w b :
  0 <= b < 32 -> (forall j, 0 <= j <= b -> Z.testbit w j = false) ->
  js_and (js_shl w (31 - b)) 4294967295 = 0.
Proof.
  intros Hb Hz. apply int32_ext; [apply js_and_int32 | apply int32_zero |].
  intros k Hk. rewrite Z.testbit_0_l, testbit_js_and, testbit_js_shl by lia.
  destruct (Z.leb_spec (31 - b) k); [| reflexivity].
  rewrite Hz by lia. reflexivity.
Qed.

Lemma low_bits_not_zero w b :
  0 <= b < 32 -> Z.testbit w b = true -> js_and (js_shl w (31 - b)) 4294967295 <> 0.
Proof.
  intros Hb Hset E. apply (f_equal (fun v => Z.testbit v 31)) in E.
  rewrite Z.testbit_0_l, testbit_js_and, testbit_js_shl in E by lia.
  destruct (Z.leb_spec (31 - b) 31); [| lia].
  replace (31 - (31 - b)) with b in E by lia. rewrite Hset in E.
  discriminate.
Qed.

Lemma lowestBit_spec w k :
  0 <= k < 32 -> Z.testbit w k = true -> (forall j, 0 <= j < k -> Z.testbit w j = false) ->
  lowestBit w = Some k.
Proof.
  intros Hk Hset Hmin. unfold lowestBit.
  assert (forall fuel bit, 0 <= bit <= k -> (Z.to_nat (k - bit) < fuel)%nat ->
            lowestBitLoop fuel w bit = Some k) as Hloop.
  { induction fuel as [|fuel IH]; intros bit Hbit Hfuel; [lia |].
    cbn [lowestBitLoop]. destruct (Z.eq_dec bit k) as [->|Hne].
    - pose proof (low_bits_not_zero w k Hk Hset) as Hnz.
      apply Z.eqb_neq in Hnz. now rewrite Hnz.
    - rewrite (low_bits_zero w bit) by (try lia; intros j Hj; apply Hmin; lia).
      cbn [Z.eqb]. apply IH; lia. }
  apply Hloop; lia.
Qed.

(** [theBits >>> bit] is zero exactly when the bits of [theBits] from [bit]
    on are. *)
Lemma high_bits_zero w b :
  0 <= b < 32 -> (forall j, b <= j < 32 -> Z.testbit w j = false) -> js_shr w b = 0.
Proof.
  intros Hb Hz. unfold js_shr, toUint32. rewrite land_31_small by assumption.
  apply Z.bits_inj'. intros i Hi. rewrite Z.testbit_0_l, Z.shiftr_spec by assumption.
  destruct (Z.lt_ge_cases (i + b) 32).
  - rewrite testbit_mod32 by lia. apply Hz. lia.
  - apply Z.mod_pow2_bits_high. lia.
Qed.

Lemma high_bits_not_zero w b :
  0 <= b < 32 -> Z.testbit w b = true -> js_shr w b <> 0.
Proof.
  intros Hb Hset E. apply (f_equal (fun v => Z.testbit v 0)) in E.
  unfold js_shr, toUint32 in E. rewrite land_31_small in E by assumption.
  rewrite Z.testbit_0_l, Z.shiftr_spec, Z.add_0_l, testbit_mod32, Hset in E by lia.
  discriminate.
Qed.

Lemma highestBit_spec w k :
  0 <= k < 32 -> Z.testbit w k = true -> (forall j, k < j < 32 -> Z.testbit w j = false) ->
  highestBit w = Some k.
Proof.
  intros Hk Hset Hmax. unfold highestBit.
  assert (forall fuel bit, k <= bit < 32 -> (Z.to_nat (bit - k) < fuel)%nat ->
            highestBitLoop fuel w bit = Some k) as Hloop.
  { induction fuel as [|fuel IH]; intros bit Hbit Hfuel; [lia |].
    cbn [highestBitLoop]. destruct (Z.eq_dec bit k) as [->|Hne].
    - pose proof (high_bits_not_zero w k Hk Hset) as Hnz.
      apply Z.eqb_neq in Hnz. now rewrite Hnz.
    - rewrite (high_bits_zero w bit) by (try lia; intros j Hj; apply Hmax; lia).
      cbn [Z.eqb]. apply IH; lia. }
  apply Hloop; lia.
Qed.

End BitSearch.

(** ** BitMatrix: the corner queries on any matrix *)

Section Corners.
Import BitMatrix.

(** The first word of a list that is not zero. *)
Lemma first_nonzero (l : list Z) :
  (exists i v, l !! i = Some v /\ v <> 0) ->
  exists zs w rest, l = zs ++ w :: rest /\ Forall (eq 0) zs /\ w <> 0.
Proof.
  induction l as [|a l IH]; intros (i & v & Hi & Hv); [discriminate |].
  destruct (Z.eq_dec a 0) as [->|Ha].
  - destruct i as [|i]; [cbn in Hi; congruence |].
    destruct IH as (zs & w & rest & -> & Hzs & Hw); [now exists i, v |].
    exists (0 :: zs), w, rest. split; [reflexivity |]. split; [| exact Hw].
    now constructor.
  - exists [], a, l. split; [reflexivity |]. split; [constructor | exact Ha].
Qed.

Lemma last_nonzero (l : list Z) :
  (exists i v, l !! i = Some v /\ v <> 0) ->
  exists pre w zs, l = pre ++ w :: zs /\ Forall (eq 0) zs /\ w <> 0.
Proof.
  intros (i & v & Hi & Hv).
  destruct (first_nonzero (rev l)) as (zs & w & rest & E & Hzs & Hw).
  { assert (In v (rev l)) as Hin.
    { apply in_rev. rewrite rev_involutive.
      eapply list_elem_of_In, list_elem_of_lookup_2. eassumption. }
    apply list_elem_of_In, list_elem_of_lookup_1 in Hin as [j Hj]. now exists j, v. }
  exists (rev rest), w, (rev zs).
  apply (f_equal (@rev _)) in E. rewrite rev_involutive in E.
  rewrite E, rev_middle. split; [reflexivity |]. split; [| exact Hw].
  apply List.Forall_forall. intros z Hz. apply in_rev in Hz.
  rewrite List.Forall_forall in Hzs. now apply Hzs.
Qed.

(** The word that holds a set bit. *)
Lemma setAt_word m x y :
  wellFormed m -> setAt m x y ->
  exists w, typedGet (bits m) (y * rowSize m + x / 32) = Some w /\ int32 w /\ w <> 0 /\
            Z.testbit w (x mod 32) = true /\
            forall k, 0 <= k < 32 -> Z.testbit w k = get m (32 * (x / 32) + k) y.
Proof.
  intros Hwf (Hx & Hy & Hget).
  assert (0 <= x / 32 < rowSize m) as Hc by (Z.div_mod_to_equations; lia).
  destruct (word_lookup m y (x / 32) Hwf Hy Hc) as (w & Ew & Hint & Hbits).
  exists w. split; [exact Ew |]. split; [exact Hint |].
  assert (Z.testbit w (x mod 32) = true) as Hset.
  { rewrite Hbits by (apply Z.mod_pos_bound; lia).
    now replace (32 * (x / 32) + x mod 32) with x by (Z.div_mod_to_equations; lia). }
  split; [| split; [exact Hset | exact Hbits]].
  intros ->. rewrite Z.testbit_0_l in Hset. discriminate.
Qed.

(** A set bit gives a word of the array that is not zero. *)
Lemma someBitSet_word m :
  wellFormed m -> someBitSet m -> exists i v, bits m !! i = Some v /\ v <> 0.
Proof.
  intros Hwf (x & y & Hset). pose proof Hset as (Hx & Hy & _).
  destruct (setAt_word m x y Hwf Hset) as (w & Ew & _ & Hnz & _).
  unfold typedGet in Ew. destruct (_ <? 0); [discriminate |]. eauto.
Qed.

(** Row and column of the word at index [i]. *)
Lemma word_position m (i : nat) :
  wellFormed m -> (i < length (bits m))%nat ->
  let y := Z.of_nat i / rowSize m in
  let c := Z.of_nat i mod rowSize m in
  0 <= y < height m /\ 0 <= c < rowSize m /\ Z.of_nat i = y * rowSize m + c.
Proof.
  intros Hwf Hi y c. subst y c. pose proof (rowSize_bounds m Hwf) as [Hrs _].
  pose proof (wf_length m Hwf) as Hlen.
  pose proof (Z.div_mod (Z.of_nat i) (rowSize m) ltac:(lia)).
  pose proof (Z.mod_pos_bound (Z.of_nat i) (rowSize m) ltac:(lia)).
  split; [| split; [assumption | lia]].
  split; [apply Z.div_pos; lia |]. apply Z.div_lt_upper_bound; lia.
Qed.

Lemma index_order rs y c y' c' :
  0 <= c < rs -> 0 <= c' < rs ->
  (y * rs + c = y' * rs + c' -> y = y' /\ c = c') /\
  (y * rs + c < y' * rs + c' -> y < y' \/ (y = y' /\ c < c')).
Proof.
  intros Hc Hc'. destruct (Z.lt_trichotomy y y') as [H|[H|H]]; split; intros; nia.
Qed.

(** X20. On a well-formed matrix whose unused bits are clear and which has
    a set bit, [getTopLeftOnBit] returns the coordinates of the first set
    bit in reading order: no set bit lies in a row above it, nor to its left
    in its own row. *)
Theorem getTopLeftOnBit_first m :
  wellFormed m -> cleanPadding m -> someBitSet m ->
  exists x0 y0,
    getTopLeftOnBit m = Some (Some [x0; y0]) /\ firstSetBit m x0 y0 /\ x0 < width m.
Proof.
  intros Hwf Hclean Hsome.
  pose proof (rowSize_bounds m Hwf) as [Hrs Hrw]. pose proof (wf_length m Hwf) as Hlen.
  pose proof (wf_width m Hwf) as Hw. pose proof (wf_height m Hwf) as Hh.
  destruct (first_nonzero (bits m) (someBitSet_word m Hwf Hsome))
    as (zs & w & rest & E & Hzs & Hnz).
  assert (length zs < length (bits m))%nat as Hi by (rewrite E, length_app; cbn [length]; lia).
  destruct (word_position m (length zs) Hwf Hi) as (Hy & Hc & Hpos).
  set (i := Z.of_nat (length zs)) in *.
  set (y0 := i / rowSize m) in *. set (c0 := i mod rowSize m) in *.
  assert (typedGet (bits m) i = Some w) as Ew.
  { unfold typedGet. destruct (Z.ltb_spec i 0); [lia |]. subst i.
    rewrite Nat2Z.id, E. now apply list_lookup_middle. }
  destruct (word_lookup m y0 c0 Hwf Hy Hc) as (w' & Ew' & Hint & Hbits).
  rewrite <- Hpos, Ew in Ew'. injection Ew' as <-.
  destruct (lowest_set_bit w Hint Hnz) as (k & Hk & Hset & Hmin).
  assert (get m (32 * c0 + k) y0 = true) as Hget by (now rewrite <- Hbits).
  assert (32 * c0 + k < width m) as Hxw.
  { destruct (Z.lt_ge_cases (32 * c0 + k) (width m)); [assumption |].
    rewrite Hclean in Hget by lia. discriminate. }
  exists (32 * c0 + k), y0. split; [| split; [| exact Hxw]].
  - assert (skipZerosUp (bits m) 0 = i) as Hskip
      by (rewrite E, skipZerosUp_stop by assumption; apply Z.add_0_l).
    unfold getTopLeftOnBit. rewrite Hskip.
    destruct (Z.eqb_spec i (Z.of_nat (length (bits m)))); [lia |].
    rewrite Ew. cbn [orUndefined]. rewrite (lowestBit_spec w k Hk Hset Hmin).
    cbn [mbind option_bind]. unfold storedQuotient, jsRem.
    destruct (Z.eqb_spec (rowSize m) 0); [lia |].
    rewrite Hpos.
    destruct (quot_rem_index (rowSize m) y0 c0 ltac:(lia) Hc) as (Hq & _ & Hr).
    rewrite Hq, Hr. cbn [fmap option_fmap option_map storedOrNaN].
    rewrite !toInt32_small by (unfold int32; lia). do 3 f_equal. lia.
  - split; [repeat split; try lia; assumption |].
    intros x y Hs.
    destruct (setAt_word m x y Hwf Hs) as (wx & Ewx & _ & Hnzx & Hsetx & _).
    destruct Hs as (Hx & Hy' & _).
    assert (0 <= x / 32 < rowSize m) as Hcx by (Z.div_mod_to_equations; lia).
    assert (0 <= x mod 32 < 32) as Hkx by (apply Z.mod_pos_bound; lia).
    assert (i <= y * rowSize m + x / 32) as Hge.
    { destruct (Z.lt_ge_cases (y * rowSize m + x / 32) i) as [Hlt|]; [| assumption].
      exfalso. apply Hnzx. unfold typedGet in Ewx.
      destruct (Z.ltb_spec (y * rowSize m + x / 32) 0); [discriminate |].
      rewrite E, lookup_app_l in Ewx by lia.
      symmetry. exact (Forall_lookup_1 _ _ _ _ Hzs Ewx). }
    destruct (index_order (rowSize m) y0 c0 y (x / 32) Hc Hcx) as [Hsame Hless].
    destruct (Z.eq_dec i (y * rowSize m + x / 32)) as [Heq|Hne].
    + rewrite Hpos in Heq. destruct (Hsame Heq) as [<- Hcc]. right. split; [reflexivity |].
      rewrite <- Heq, <- Hpos, Ew in Ewx. injection Ewx as <-.
      destruct (Z.lt_ge_cases (x mod 32) k) as [Hlt|Hge'].
      * rewrite Hmin in Hsetx by lia. discriminate.
      * Z.div_mod_to_equations. lia.
    + rewrite Hpos in Hge, Hne. destruct (Hless ltac:(lia)) as [Hlt|[<- Hlt]];
        [now left | right]. split; [reflexivity |]. Z.div_mod_to_equations. lia.
Qed.

Lemma getTopLeftOnBit_first_witness :
  exists x0 y0,
    getTopLeftOnBit matrix35x3 = Some (Some [x0; y0]) /\ firstSetBit matrix35x3 x0 y0.
Proof.
  destruct (getTopLeftOnBit_first matrix35x3) as (x0 & y0 & H1 & H2 & _).
  - fixture_wellFormed.
  - apply cleanPadding_checked; [cbn; lia | vm_compute; reflexivity].
  - exists 0, 0. repeat split; cbn [rowSize height matrix35x3]; lia.
  - exists x0, y0. split; [exact H1 | exact H2].
Defined.

(** X21. On a well-formed matrix whose unused bits are clear and which has
    a set bit, [getBottomRightOnBit] returns the coordinates of the last set
    bit in reading order: no set bit lies in a row below it, nor to its
    right in its own row. *)
Theorem getBottomRightOnBit_last m :
  wellFormed m -> cleanPadding m -> someBitSet m ->
  exists x0 y0,
    getBottomRightOnBit m = Some (Some [x0; y0]) /\ lastSetBit m x0 y0 /\ x0 < width m.
Proof.
  intros Hwf Hclean Hsome.
  pose proof (rowSize_bounds m Hwf) as [Hrs Hrw]. pose proof (wf_length m Hwf) as Hlen.
  pose proof (wf_width m Hwf) as Hw. pose proof (wf_height m Hwf) as Hh.
  destruct (last_nonzero (bits m) (someBitSet_word m Hwf Hsome))
    as (pre & w & zs & E & Hzs & Hnz).
  assert (length (bits m) = (length pre + S (length zs))%nat) as Hlen'
    by (rewrite E, length_app; reflexivity).
  assert (length pre < length (bits m))%nat as Hi by lia.
  destruct (word_position m (length pre) Hwf Hi) as (Hy & Hc & Hpos).
  set (i := Z.of_nat (length pre)) in *.
  set (y0 := i / rowSize m) in *. set (c0 := i mod rowSize m) in *.
  assert (typedGet (bits m) i = Some w) as Ew.
  { unfold typedGet. destruct (Z.ltb_spec i 0); [lia |]. subst i.
    rewrite Nat2Z.id, E. now apply list_lookup_middle. }
  destruct (word_lookup m y0 c0 Hwf Hy Hc) as (w' & Ew' & Hint & Hbits).
  rewrite <- Hpos, Ew in Ew'. injection Ew' as <-.
  destruct (highest_set_bit w Hint Hnz) as (k & Hk & Hset & Hmax).
  assert (get m (32 * c0 + k) y0 = true) as Hget by (now rewrite <- Hbits).
  assert (32 * c0 + k < width m) as Hxw.
  { destruct (Z.lt_ge_cases (32 * c0 + k) (width m)); [assumption |].
    rewrite Hclean in Hget by lia. discriminate. }
  exists (32 * c0 + k), y0. split; [| split; [| exact Hxw]].
  - assert (skipZerosDown (rev (bits m)) (Z.of_nat (length (bits m)) - 1) = i) as Hskip.
    { rewrite E at 1. rewrite rev_middle.
      rewrite skipZerosDown_stop
        by (try assumption; apply List.Forall_forall; intros z Hz; apply in_rev in Hz;
            rewrite List.Forall_forall in Hzs; now apply Hzs).
      rewrite length_rev. lia. }
    unfold getBottomRightOnBit. rewrite Hskip.
    destruct (Z.ltb_spec i 0); [lia |].
    rewrite Ew. cbn [orUndefined]. rewrite (highestBit_spec w k Hk Hset Hmax).
    cbn [mbind option_bind]. unfold storedFloorQuotient, jsRem.
    destruct (Z.eqb_spec (rowSize m) 0); [lia |].
    rewrite Hpos.
    destruct (quot_rem_index (rowSize m) y0 c0 ltac:(lia) Hc) as (_ & Hq & Hr).
    rewrite Hq, Hr. cbn [fmap option_fmap option_map storedOrNaN].
    rewrite !toInt32_small by (unfold int32; lia). do 3 f_equal. lia.
  - split; [repeat split; try lia; assumption |].
    intros x y Hs.
    destruct (setAt_word m x y Hwf Hs) as (wx & Ewx & _ & Hnzx & Hsetx & _).
    destruct Hs as (Hx & Hy' & _).
    assert (0 <= x / 32 < rowSize m) as Hcx by (Z.div_mod_to_equations; lia).
    assert (0 <= x mod 32 < 32) as Hkx by (apply Z.mod_pos_bound; lia).
    assert (y * rowSize m + x / 32 <= i) as Hle.
    { destruct (Z.lt_ge_cases i (y * rowSize m + x / 32)) as [Hlt|]; [| lia].
      exfalso. apply Hnzx. unfold typedGet in Ewx.
      destruct (Z.ltb_spec (y * rowSize m + x / 32) 0); [discriminate |].
      rewrite E in Ewx.
      change (pre ++ w :: zs) with (pre ++ [w] ++ zs) in Ewx.
      rewrite app_assoc, lookup_app_r in Ewx by (rewrite length_app; cbn [length]; lia).
      symmetry. exact (Forall_lookup_1 _ _ _ _ Hzs Ewx). }
    destruct (index_order (rowSize m) y (x / 32) y0 c0 Hcx Hc) as [Hsame Hless].
    destruct (Z.eq_dec (y * rowSize m + x / 32) i) as [Heq|Hne].
    + rewrite Hpos in Heq. destruct (Hsame Heq) as [-> Hcc]. right. split; [reflexivity |].
      rewrite Heq, <- Hpos, Ew in Ewx. injection Ewx as <-.
      destruct (Z.lt_ge_cases k (x mod 32)) as [Hlt|Hge'].
      * rewrite Hmax in Hsetx by lia. discriminate.
      * Z.div_mod_to_equations. lia.
    + rewrite Hpos in Hle, Hne. destruct (Hless ltac:(lia)) as [Hlt|[-> Hlt]];
        [now left | right]. split; [reflexivity |]. Z.div_mod_to_equations. lia.
Qed.

Lemma getBottomRightOnBit_last_witness :
  exists x0 y0,
    getBottomRightOnBit matrix35x3 = Some (Some [x0; y0]) /\ lastSetBit matrix35x3 x0 y0.
Proof.
  destruct (getBottomRightOnBit_last matrix35x3) as (x0 & y0 & H1 & H2 & _).
  - fixture_wellFormed.
  - apply cleanPadding_checked; [cbn; lia | vm_compute; reflexivity].
  - exists 0, 0. repeat split; cbn [rowSize height matrix35x3]; lia.
  - exists x0, y0. split; [exact H1 | exact H2].
Defined.

End Corners.

(** ** BitMatrix: the enclosing rectangle of any matrix *)

Section EnclosingBox.
Import BitMatrix.

(** The body of the loops at a word that is not zero. *)
Lemma encloseWord_nonzero m y c w lo hi left_ top right_ bottom :
  typedGet (bits m) (y * rowSize m + c) = Some w -> w <> 0 ->
  lowestBit w = Some lo -> highestBit w = Some hi -> 0 <= lo -> hi <= 31 ->
  encloseWord m y (left_, top, right_, bottom) c
  = Some (Z.min left_ (32 * c + lo), Z.min top y, Z.max right_ (32 * c + hi), Z.max bottom y).
Proof.
  intros Ew Hnz Hlo Hhi Hlo0 Hhi31. unfold encloseWord. rewrite Ew.
  cbn [nonZeroWord orUndefined]. apply Z.eqb_neq in Hnz. rewrite Hnz. cbn [negb].
  rewrite Hlo, Hhi.
  destruct (Z.ltb_spec (c * 32) left_), (Z.gtb_spec (c * 32 + 31) right_);
    cbn [mbind option_bind];
    destruct (Z.ltb_spec y top), (Z.gtb_spec y bottom);
    try destruct (Z.ltb_spec (c * 32 + lo) left_);
    try destruct (Z.gtb_spec (c * 32 + hi) right_);
    do 2 f_equal; repeat (f_equal; try lia).
Qed.

Lemma seenBefore_next m y c x' y' :
  seenBefore m y c x' y' -> seenBefore m y (c + 1) x' y'.
Proof. intros [Hs Hpos]. split; [exact Hs | lia]. Qed.

Lemma seenBefore_split m y c x' y' :
  seenBefore m y (c + 1) x' y' ->
  seenBefore m y c x' y' \/ (setAt m x' y' /\ y' = y /\ x' / 32 = c).
Proof.
  intros [Hs Hpos]. destruct (Z.eq_dec (x' / 32) c) as [Hc|Hc].
  - destruct Hpos as [Hlt|[-> _]]; [left; split; [exact Hs | now left] | now right].
  - left. split; [exact Hs | lia].
Qed.

Lemma boxSoFar_ext m y c y2 c2 st :
  (forall x' y', seenBefore m y c x' y' <-> seenBefore m y2 c2 x' y') ->
  boxSoFar m y c st -> boxSoFar m y2 c2 st.
Proof.
  intros Hiff. destruct st as [[[l t] r] b]. unfold boxSoFar.
  intros (Hall & Hl & Ht & Hr & Hb).
  split; [intros x' y' Hs; apply Hall; now apply Hiff |].
  repeat split.
  - destruct Hl as [->|[y' Hs]]; [now left | right; exists y'; now apply Hiff].
  - destruct Ht as [->|[x' Hs]]; [now left | right; exists x'; now apply Hiff].
  - destruct Hr as [->|[y' Hs]]; [now left | right; exists y'; now apply Hiff].
  - destruct Hb as [->|[x' Hs]]; [now left | right; exists x'; now apply Hiff].
Qed.

(** One turn of the inner loop keeps the four variables right. *)
Lemma encloseWord_step m y c st :
  wellFormed m -> 0 <= y < height m -> 0 <= c < rowSize m ->
  boxSoFar m y c st ->
  exists st', encloseWord m y st c = Some st' /\ boxSoFar m y (c + 1) st'.
Proof.
  intros Hwf Hy Hc Hbox. destruct st as [[[l t] r] b].
  destruct (word_lookup m y c Hwf Hy Hc) as (w & Ew & Hint & Hbits).
  destruct (Z.eq_dec w 0) as [->|Hnz].
  - exists (l, t, r, b). split; [now apply encloseWord_zero |].
    apply (boxSoFar_ext m y c); [| exact Hbox].
    intros x' y'. split; [apply seenBefore_next |].
    intros Hs. destruct (seenBefore_split m y c x' y' Hs) as [H|(Hset & -> & <-)];
      [exact H |].
    destruct (setAt_word m x' y Hwf Hset) as (w' & Ew' & _ & Hnz' & _).
    rewrite Ew in Ew'. injection Ew' as <-. contradiction.
  - destruct (lowest_set_bit w Hint Hnz) as (lo & Hlo & Hlo_set & Hlo_min).
    destruct (highest_set_bit w Hint Hnz) as (hi & Hhi & Hhi_set & Hhi_max).
    assert (lo <= hi) as Hlohi.
    { destruct (Z.lt_ge_cases hi lo); [| lia]. rewrite Hlo_min in Hhi_set by lia.
      discriminate. }
    eexists. split.
    { apply (encloseWord_nonzero m y c w lo hi); try assumption; try lia.
      - now apply lowestBit_spec.
      - now apply highestBit_spec. }
    assert (forall k, 0 <= k < 32 -> Z.testbit w k = true ->
              seenBefore m y (c + 1) (32 * c + k) y) as Hnew.
    { intros k Hk Hset. split; [| right; split; [reflexivity |]].
      - repeat split; try lia. now rewrite <- Hbits.
      - Z.div_mod_to_equations. lia. }
    unfold boxSoFar in *. destruct Hbox as (Hall & Hl & Ht & Hr & Hb).
    split; [| repeat split].
    + intros x' y' Hs. destruct (seenBefore_split m y c x' y' Hs) as [H|(Hset & -> & Hcx)].
      * specialize (Hall x' y' H). lia.
      * destruct (setAt_word m x' y Hwf Hset) as (w' & Ew' & _ & _ & Hbit & _).
        rewrite Hcx, Ew in Ew'. injection Ew' as <-.
        pose proof Hset as (Hx' & _ & _).
        assert (0 <= x' mod 32 < 32) as Hk by (apply Z.mod_pos_bound; lia).
        assert (lo <= x' mod 32).
        { destruct (Z.lt_ge_cases (x' mod 32) lo); [| lia].
          rewrite Hlo_min in Hbit by lia. discriminate. }
        assert (x' mod 32 <= hi).
        { destruct (Z.lt_ge_cases hi (x' mod 32)); [| lia].
          rewrite Hhi_max in Hbit by lia. discriminate. }
        pose proof (Z.div_mod x' 32 ltac:(lia)). lia.
    + destruct (Z.le_gt_cases l (32 * c + lo)).
      * rewrite Z.min_l by assumption.
        destruct Hl as [->|[y' Hs]]; [now left | right; exists y'; now apply seenBefore_next].
      * rewrite Z.min_r by lia. right. exists y. now apply Hnew.
    + destruct (Z.le_gt_cases t y).
      * rewrite Z.min_l by assumption.
        destruct Ht as [->|[x' Hs]]; [now left | right; exists x'; now apply seenBefore_next].
      * rewrite Z.min_r by lia. right. exists (32 * c + lo). now apply Hnew.
    + destruct (Z.le_gt_cases (32 * c + hi) r).
      * rewrite Z.max_l by assumption.
        destruct Hr as [->|[y' Hs]]; [now left | right; exists y'; now apply seenBefore_next].
      * rewrite Z.max_r by lia. right. exists y. now apply Hnew.
    + destruct (Z.le_gt_cases y b).
      * rewrite Z.max_l by assumption.
        destruct Hb as [->|[x' Hs]]; [now left | right; exists x'; now apply seenBefore_next].
      * rewrite Z.max_r by lia. right. exists (32 * c + lo). now apply Hnew.
Qed.

(** The inner loop, over the words of row [y]. *)
Lemma encloseRow m y (n : nat) : forall st,
  wellFormed m -> 0 <= y < height m -> Z.of_nat n <= rowSize m ->
  boxSoFar m y 0 st ->
  exists st', forEach (encloseWord m y) (upto (Z.of_nat n)) st = Some st' /\
              boxSoFar m y (Z.of_nat n) st'.
Proof.
  induction n as [|n IH]; intros st Hwf Hy Hn Hbox.
  - exists st. split; [reflexivity | exact Hbox].
  - destruct (IH st Hwf Hy ltac:(lia) Hbox) as (st1 & E1 & Hbox1).
    destruct (encloseWord_step m y (Z.of_nat n) st1 Hwf Hy ltac:(lia) Hbox1)
      as (st2 & E2 & Hbox2).
    exists st2. rewrite upto_succ, forEach_app, E1. cbn [mbind option_bind forEach].
    rewrite E2. cbn [mbind option_bind]. split; [reflexivity |].
    now replace (Z.of_nat (S n)) with (Z.of_nat n + 1) by lia.
Qed.

(** The outer loop, over the rows. *)
Lemma encloseRows m (n : nat) : forall st,
  wellFormed m -> Z.of_nat n <= height m ->
  boxSoFar m 0 0 st ->
  exists st',
    forEach (fun st y => forEach (encloseWord m y) (upto (rowSize m)) st)
            (upto (Z.of_nat n)) st = Some st' /\
    boxSoFar m (Z.of_nat n) 0 st'.
Proof.
  induction n as [|n IH]; intros st Hwf Hn Hbox.
  - exists st. split; [reflexivity | exact Hbox].
  - pose proof (rowSize_bounds m Hwf) as [Hrs _].
    destruct (IH st Hwf ltac:(lia) Hbox) as (st1 & E1 & Hbox1).
    destruct (encloseRow m (Z.of_nat n) (Z.to_nat (rowSize m)) st1 Hwf ltac:(lia)
                ltac:(lia) Hbox1) as (st2 & E2 & Hbox2).
    rewrite Z2Nat.id in E2, Hbox2 by lia.
    exists st2. rewrite upto_succ, forEach_app, E1. cbn [mbind option_bind forEach].
    rewrite E2. cbn [mbind option_bind]. split; [reflexivity |].
    apply (boxSoFar_ext m (Z.of_nat n) (rowSize m)); [| exact Hbox2].
    intros x' y'. unfold seenBefore, setAt.
    split; intros ((Hx & Hy & Hg) & Hpos); (split; [now repeat split |]);
      assert (0 <= x' / 32 < rowSize m) by (Z.div_mod_to_equations; lia); lia.
Qed.

(** X22. On a well-formed matrix whose unused bits are clear and which has
    a set bit, [getEnclosingRectangle] returns [left, top, width, height] of
    the smallest rectangle that holds every set bit: no set bit lies outside
    of it, and each of its four sides is touched by one. *)
Theorem getEnclosingRectangle_box m :
  wellFormed m -> cleanPadding m -> someBitSet m ->
  exists left_ top right_ bottom,
    getEnclosingRectangle m
    = Some (Some [left_; top; right_ - left_ + 1; bottom - top + 1]) /\
    enclosingBox m left_ top right_ bottom /\
    0 <= left_ <= right_ /\ right_ < width m /\ 0 <= top <= bottom /\ bottom < height m.
Proof.
  intros Hwf Hclean (x1 & y1 & Hset1).
  pose proof (wf_width m Hwf) as Hw. pose proof (wf_height m Hwf) as Hh.
  assert (forall x y, setAt m x y -> 0 <= x < width m /\ 0 <= y < height m) as Hin.
  { intros x y (Hx & Hy & Hg). split; [| exact Hy].
    destruct (Z.lt_ge_cases x (width m)); [lia |].
    rewrite Hclean in Hg by lia. discriminate. }
  destruct (encloseRows m (Z.to_nat (height m)) (width m, height m, -1, -1) Hwf ltac:(lia))
    as ([[[l t] r] b] & E & Hbox).
  { unfold boxSoFar. split; [| now repeat split; left].
    intros x' y' ((Hx' & Hy' & _) & Hpos).
    assert (0 <= x' / 32) by (Z.div_mod_to_equations; lia). lia. }
  rewrite Z2Nat.id in E, Hbox by lia.
  assert (forall x y, setAt m x y <-> seenBefore m (height m) 0 x y) as Hseen.
  { intros x y. split; [| now intros [Hs _]].
    intros Hs. split; [exact Hs |]. destruct Hs as (_ & Hy & _). lia. }
  destruct Hbox as (Hall & Hl & Ht & Hr & Hb).
  destruct (Hall x1 y1 (proj1 (Hseen x1 y1) Hset1)) as [Hx1 Hy1].
  destruct (Hin x1 y1 Hset1) as [Hx1' Hy1'].
  destruct Hl as [->|[yl Hsl]]; [lia |]. apply Hseen in Hsl.
  destruct Ht as [->|[xt Hst]]; [lia |]. apply Hseen in Hst.
  destruct Hr as [->|[yr Hsr]]; [lia |]. apply Hseen in Hsr.
  destruct Hb as [->|[xb Hsb]]; [lia |]. apply Hseen in Hsb.
  destruct (Hin l yl Hsl) as [Hl0 _]. destruct (Hin r yr Hsr) as [Hr0 _].
  destruct (Hin xt t Hst) as [_ Ht0]. destruct (Hin xb b Hsb) as [_ Hb0].
  exists l, t, r, b. split; [| split; [| lia]].
  - unfold getEnclosingRectangle. rewrite E. cbn [mbind option_bind].
    destruct (Z.ltb_spec r l); [lia |]. destruct (Z.ltb_spec b t); [lia |].
    cbn [orb]. unfold int32ArrayFrom. cbn [map].
    now rewrite !toInt32_small by (unfold int32; lia).
  - split; [intros x y Hs; apply Hall; now apply Hseen |].
    repeat split; eauto.
Qed.

Lemma getEnclosingRectangle_box_witness :
  exists left_ top right_ bottom,
    getEnclosingRectangle matrix35x3
    = Some (Some [left_; top; right_ - left_ + 1; bottom - top + 1]) /\
    enclosingBox matrix35x3 left_ top right_ bottom.
Proof.
  destruct (getEnclosingRectangle_box matrix35x3) as (l & t & r & b & H1 & H2 & _).
  - fixture_wellFormed.
  - apply cleanPadding_checked; [cbn; lia | vm_compute; reflexivity].
  - exists 0, 0. repeat split; cbn [rowSize height matrix35x3]; lia.
  - exists l, t, r, b. split; [exact H1 | exact H2].
Defined.

End EnclosingBox.
